(** * Artemis GraphQL engine: error model, input coercion, field collection
      and value completion, embedded from the Go sources. *)

From stdpp Require Import gmap strings list pretty.
From Stdlib Require Import ZArith Lia.

Set Default Proof Using "Type".
#[global] Set Warnings "-register-all,-inconsistent-scopes".
Open Scope string_scope.
Open Scope list_scope.

(* ===================================================================== *)
(** ** package graphql: errors (error.go) *)
(* ===================================================================== *)

Module graphql.

(** [type ErrKind uint8] with its six enumerators. *)
Inductive ErrKind :=
| ErrKindOther
| ErrKindCoercion
| ErrKindSyntax
| ErrKindValidation
| ErrKindExecution
| ErrKindInternal.

#[global] Instance ErrKind_eq_dec : EqDecision ErrKind.
Proof. solve_decision. Defined.

Definition ErrKind_String (k : ErrKind) : string :=
  match k with
  | ErrKindOther => "other error"
  | ErrKindCoercion => "coercion error"
  | ErrKindSyntax => "syntax error"
  | ErrKindValidation => "validation error"
  | ErrKindExecution => "execution error"
  | ErrKindInternal => "internal error"
  end.

Record ErrorLocation := { Line : nat; Column : nat }.

(** A response path key is a field name or a list index. *)
Inductive PathKey :=
| KeyName (name : string)
| KeyIndex (index : Z).

Record ResponsePath := { keys : list PathKey }.

Definition AppendFieldName (path : ResponsePath) (name : string) : ResponsePath :=
  {| keys := keys path ++ [KeyName name] |}.

Definition AppendIndex (path : ResponsePath) (index : Z) : ResponsePath :=
  {| keys := keys path ++ [KeyIndex index] |}.

(** [Clone] copies the keys into a fresh array; as a value the copy has the
    same keys. *)
Definition Clone (path : ResponsePath) : ResponsePath :=
  match keys path with
  | [] => {| keys := [] |}
  | ks => {| keys := ks |}
  end.

(** [ErrorExtensions] is a Go map and may be nil ([None]); its values are
    arbitrary and kept as their renderings. *)
Definition ErrorExtensions := option (list (string * string)).

(** An error of a type other than [*Error]; it may implement the optional
    provider interfaces [ErrorWithLocations], [ErrorWithPath] and
    [ErrorWithExtensions] ([None]: it does not). *)
Record Foreign := mkForeign {
  foreignText : string;
  withLocations : option (list ErrorLocation);
  withPath : option (option ResponsePath);
  withExtensions : option ErrorExtensions }.

(** Values of the Go interface [error]: the core [*Error] or a foreign one. *)
Inductive GoError (E : Type) :=
| CoreError (e : E)
| ForeignError (f : Foreign).
Arguments CoreError {E} e.
Arguments ForeignError {E} f.

Inductive Error := mkError {
  Message : string;
  Locations : list ErrorLocation;
  Path : option ResponsePath;
  Extensions : ErrorExtensions;
  Err : option (GoError Error);
  Op : string;
  Kind : ErrKind }.

Definition error := GoError Error.

(** One element of the variadic [args ...interface{}] of [NewError], by
    dynamic type.  [ArgOther] is a value of any type the switch does not
    list (the untyped nil included), with its [%T] and [%v] renderings. *)
Inductive Arg :=
| ArgErrorLocation (l : ErrorLocation)
| ArgErrorLocations (ls : list ErrorLocation)
| ArgResponsePath (p : option ResponsePath)
| ArgErrorExtensions (x : ErrorExtensions)
| ArgError (err : error)
| ArgOp (op : string)
| ArgErrKind (k : ErrKind)
| ArgOther (goType : string) (repr : string).

Definition setLocations (e : Error) (ls : list ErrorLocation) : Error :=
  mkError (Message e) ls (Path e) (Extensions e) (Err e) (Op e) (Kind e).
Definition setPath (e : Error) (p : option ResponsePath) : Error :=
  mkError (Message e) (Locations e) p (Extensions e) (Err e) (Op e) (Kind e).
Definition setExtensions (e : Error) (x : ErrorExtensions) : Error :=
  mkError (Message e) (Locations e) (Path e) x (Err e) (Op e) (Kind e).
Definition setErr (e : Error) (err : option error) : Error :=
  mkError (Message e) (Locations e) (Path e) (Extensions e) err (Op e) (Kind e).
Definition setOp (e : Error) (op : string) : Error :=
  mkError (Message e) (Locations e) (Path e) (Extensions e) (Err e) op (Kind e).
Definition setKind (e : Error) (k : ErrKind) : Error :=
  mkError (Message e) (Locations e) (Path e) (Extensions e) (Err e) (Op e) k.

(** [fmt.Errorf("unknown type %T, value %v in error call", arg, arg)]. *)
Definition unknownTypeError (goType repr : string) : error :=
  ForeignError
    (mkForeign ("unknown type " +:+ goType +:+ ", value " +:+ repr +:+ " in error call")
               None None None).

(** The [for _, arg := range args] loop of [NewError]: each recognised
    argument overwrites its field; the first unrecognised one leaves the
    loop and the function ([inr]). *)
Fixpoint applyArgs (e : Error) (args : list Arg) : Error + (string * string) :=
  match args with
  | [] => inl e
  | arg :: rest =>
      match arg with
      | ArgErrorLocation l => applyArgs (setLocations e [l]) rest
      | ArgErrorLocations ls => applyArgs (setLocations e ls) rest
      | ArgResponsePath p => applyArgs (setPath e p) rest
      | ArgErrorExtensions x => applyArgs (setExtensions e x) rest
      | ArgError err => applyArgs (setErr e (Some err)) rest
      | ArgOp op => applyArgs (setOp e op) rest
      | ArgErrKind k => applyArgs (setKind e k) rest
      | ArgOther goType repr => inr (goType, repr)
      end
  end.

(** Inheritance from the underlying error [prev], in source order:
    locations, path, extensions, kind. *)
Definition propagateLocations (e : Error) (prev : error) : Error :=
  if decide (length (Locations e) = 0) then
    match prev with
    | ForeignError f =>
        match withLocations f with
        | Some ls => setLocations e ls
        | None => e
        end
    | CoreError p =>
        if decide (0 < length (Locations p)) then setLocations e (Locations p) else e
    end
  else e.

Definition propagatePath (e : Error) (prev : error) : Error :=
  match Path e with
  | None =>
      match prev with
      | ForeignError f =>
          match withPath f with
          | Some p => setPath e p
          | None => e
          end
      | CoreError p =>
          match Path p with
          | Some pp => setPath e (Some (Clone pp))
          | None => e
          end
      end
  | Some _ => e
  end.

Definition propagateExtensions (e : Error) (prev : error) : Error :=
  match Extensions e with
  | None =>
      match prev with
      | ForeignError f =>
          match withExtensions f with
          | Some x => setExtensions e x
          | None => e
          end
      | CoreError p => setExtensions e (Extensions p)
      end
  | Some _ => e
  end.

Definition propagateKind (e : Error) (prev : error) : Error :=
  if decide (Kind e = ErrKindOther) then
    match prev with
    | CoreError p => setKind e (Kind p)
    | ForeignError _ => e
    end
  else e.

Definition propagate (e : Error) : Error :=
  match Err e with
  | Some prev =>
      propagateKind
        (propagateExtensions (propagatePath (propagateLocations e prev) prev) prev)
        prev
  | None => e
  end.

(** [func NewError(message string, args ...interface{}) error].  The log
    line written on a bad call goes to the process log and is not part of
    the returned value. *)
Definition NewError (message : string) (args : list Arg) : error :=
  match applyArgs (mkError message [] None None None "" ErrKindOther) args with
  | inr (goType, repr) => unknownTypeError goType repr
  | inl e => CoreError (propagate e)
  end.

Definition WrapError (err : error) (message : string) : error :=
  NewError message [ArgError err].

End graphql.

(* ===================================================================== *)
(** ** Dynamically typed Go values (interface{}) *)
(* ===================================================================== *)

(** The Go values that flow through coercion and completion: nil, scalars,
    slices and arrays, [map[string]interface{}], a [*graphql.Error] (which a
    resolver may return as a value), and values of any other type.  Maps
    are kept as association lists in (some) iteration order; [lookupKey] is
    the Go index expression [m[k]]. *)
Inductive Value :=
| VNil
| VBool (b : bool)
| VInt (n : Z)
| VString (s : string)
| VSlice (elems : list Value)
| VMap (entries : list (string * Value))
| VError (e : graphql.Error)
| VOpaque (goType : string) (repr : string).

Fixpoint lookupKey {A} (name : string) (entries : list (string * A)) : option A :=
  match entries with
  | [] => None
  | (k, v) :: rest => if String.eqb k name then Some v else lookupKey name rest
  end.

(** [m[k] = v] on a Go map: overwrite in place, or add a new entry. *)
Fixpoint setKey {A} (name : string) (v : A) (entries : list (string * A))
  : list (string * A) :=
  match entries with
  | [] => [(name, v)]
  | (k, w) :: rest =>
      if String.eqb k name then (k, v) :: rest else (k, w) :: setKey name v rest
  end.

(* ===================================================================== *)
(** ** package util: OrList (or_list.go) *)
(* ===================================================================== *)

Module util.

(** The double quote rune. *)
Definition dquote : string := String (Ascii.ascii_of_nat 34) EmptyString.

Definition writeItem (quoted : bool) (item : string) : string :=
  if quoted then dquote +:+ item +:+ dquote else item.

(** The loop [for i := 1; i < numItems; i++] of [OrList], over the items
    that follow the first. *)
Fixpoint orListRest (numItems : nat) (i : nat) (items : list string) (quoted : bool)
  : string :=
  match items with
  | [] => ""
  | item :: rest =>
      (if decide (2 < numItems) then ", " else " ")
      +:+ (if decide (i = numItems - 1) then "or " else "")
      +:+ writeItem quoted item
      +:+ orListRest numItems (S i) rest quoted
  end.

(** [func OrList(items []string, maxLength uint, quoted bool) string].
    [None] is the index-out-of-range panic of [items[0]] after truncation
    to [maxLength = 0]. *)
Definition OrList (items : list string) (maxLength : nat) (quoted : bool)
  : option string :=
  if decide (length items <= 0) then Some ""
  else
    let numItems := if decide (maxLength < length items) then maxLength else length items in
    let items := if decide (maxLength < length items) then take maxLength items else items in
    match items with
    | [] => None
    | first :: rest => Some (writeItem quoted first +:+ orListRest numItems 1 rest quoted)
    end.

End util.

(* ===================================================================== *)
(** ** The type system consumed by the coercer and the completer *)
(* ===================================================================== *)

Module types.
Import graphql.

(** A leaf coercion function, as supplied with a scalar or enum type. *)
Definition Coercer := Value -> error + Value.

(** Modelled from the spec: an input object field has a type and may have a
    default value ([Some] when [HasDefaultValue()] holds). *)
Record InputFieldOf (T : Type) := mkInputField {
  ifType : T;
  ifDefault : option Value }.
Arguments mkInputField {T} _ _.
Arguments ifType {T} _.
Arguments ifDefault {T} _.

(** Modelled from the spec: an output field of an object type has a name, a
    type, arguments and an optional resolver. *)
Record FieldOf (T : Type) := mkField {
  fName : string;
  fType : T;
  fArgs : list (string * InputFieldOf T);
  fResolver : option (Value -> list (string * Value) -> error + Value) }.
Arguments mkField {T} _ _ _ _.
Arguments fName {T} _.
Arguments fType {T} _.
Arguments fArgs {T} _.
Arguments fResolver {T} _.

(** Modelled from the spec: the type declarations of package graphql are
    absent from the sources; [graphql.Type] is a tagged union over Scalar,
    Enum, InputObject, List and NonNull for input coercion and over Leaf
    (scalar, enum), Object, Abstract (interface, union), List and NonNull
    for completion.  Maps of fields are kept as association lists. *)
Inductive Type_ :=
| Scalar (name : string) (coerceVariableValue coerceResultValue : Coercer)
| Enum (name : string) (values : list string)
       (coerceVariableValue coerceResultValue : Coercer)
| InputObject (name : string) (fields : list (string * InputFieldOf Type_))
| List (elementType : Type_)
| NonNull (innerType : Type_)
| Object (name : string) (fields : list (string * FieldOf Type_))
| Interface (name : string)
| Union (name : string).

Abbreviation InputField := (InputFieldOf Type_).
Abbreviation Field := (FieldOf Type_).

Definition HasDefaultValue (f : InputField) : bool :=
  match ifDefault f with Some _ => true | None => false end.

Definition IsNonNullType (t : Type_) : bool :=
  match t with NonNull _ => true | _ => false end.

(** [t.(graphql.WrappingType)]: List and NonNull. *)
Definition isWrappingType (t : Type_) : bool :=
  match t with List _ | NonNull _ => true | _ => false end.

Definition TypeName (t : Type_) : string :=
  match t with
  | Scalar n _ _ | Enum n _ _ _ | InputObject n _ | Object n _
  | Interface n | Union n => n
  | List _ | NonNull _ => ""
  end.

End types.

(* ===================================================================== *)
(** ** package value: input coercion (value_coercion.go) *)
(* ===================================================================== *)

Module value.
Import graphql types.

(** [graphql.Errors]. *)
Abbreviation Errors := (list Error).

(** [*valuePath]: the linked list of keys from the current position back to
    the root; the nil pointer is the empty list. *)
Definition valuePath := list PathKey.

Fixpoint valuePath_String_go (path : valuePath) (s : string) : string :=
  match path with
  | [] => s
  | KeyName key :: prev => valuePath_String_go prev ("." +:+ key +:+ s)
  | KeyIndex key :: prev => valuePath_String_go prev ("[" +:+ pretty key +:+ "]" +:+ s)
  end.

Definition valuePath_String (path : valuePath) : string :=
  let s := valuePath_String_go path "" in
  if decide (0 < String.length s) then "value" +:+ s else s.

Definition NewListIndex (path : valuePath) (index : Z) : valuePath :=
  KeyIndex index :: path.

Definition NewObjectField (path : valuePath) (name : string) : valuePath :=
  KeyName name :: path.

Definition Empty (path : valuePath) : bool :=
  match path with [] => true | _ => false end.

(** The type assertion to [*graphql.Error] applied to the result of
    [NewError].  It is only applied to calls whose arguments are all of
    recognised types, for which [NewError] returns a core error; on any other
    error the Go assertion would panic. *)
Definition assertError (err : error) : Error :=
  match err with
  | CoreError e => e
  | ForeignError f => mkError (foreignText f) [] None None None "" ErrKindOther
  end.

(** [blameNode] is carried as the location [ErrorLocationOfASTNode] reads
    from it, [None] for a nil node. *)
Definition newCoercionError (message : string) (blameNode : option ErrorLocation)
    (path : valuePath) (subMessage : string) (originalError : option error) : Error :=
  let m1 := if Empty path then message else message +:+ " at " +:+ valuePath_String path in
  let m2 := if decide (0 < String.length subMessage)
            then m1 +:+ "; " +:+ subMessage else m1 +:+ "." in
  let locations := match blameNode with Some l => [l] | None => [] end in
  match originalError with
  | None => assertError (NewError m2 [ArgErrorLocations locations])
  | Some err => assertError (NewError m2 [ArgErrorLocations locations; ArgError err])
  end.

Section Coercion.

(** [fmt]'s rendering of a type ([%v], [String()]), of a value ([%v]) and of
    a value's dynamic type ([%T]), and [util.SuggestionList], are absent from
    the sources and taken as parameters. *)
Variable typeString : Type_ -> string.
Variable valueString : Value -> string.
Variable valueTypeString : Value -> string.
Variable SuggestionList : string -> list string -> list string.

Definition didYouMean (suggestions : list string) : string :=
  if decide (0 < length suggestions)
  then "did you mean " +:+ default "" (util.OrList suggestions 5 false) +:+ "?"
  else "".

(** One iteration of the element loop of the List case. *)
Definition listStep (acc : list Value * Errors) (r : Value * Errors)
  : list Value * Errors :=
  let '(coercedValues, errs) := acc in
  let '(coercedValue, elementErrs) := r in
  if decide (0 < length elementErrs) then (coercedValues, errs ++ elementErrs)
  else if decide (length errs = 0) then (coercedValues ++ [coercedValue], errs)
  else (coercedValues, errs).

(** The "every provided field is defined" loop of the InputObject case. *)
Fixpoint checkProvided (t : Type_) (fields : list (string * InputField))
    (blameNode : option ErrorLocation) (path : valuePath)
    (provided : list string) (errs : Errors) : Errors :=
  match provided with
  | [] => errs
  | name :: rest =>
      match lookupKey name fields with
      | Some _ => checkProvided t fields blameNode path rest errs
      | None =>
          let suggestions := SuggestionList name (map fst fields) in
          checkProvided t fields blameNode path rest
            (errs ++ [newCoercionError
                        ("Field " +:+ util.dquote +:+ name +:+ util.dquote
                         +:+ " is not defined by type " +:+ typeString t)
                        blameNode path (didYouMean suggestions) None])
      end
  end.

(** One iteration of the "every defined field is valid" loop of the
    InputObject case; [coerceField] is the recursive call on the field's type
    with the path extended by the field's name. *)
Definition fieldStep (name : string) (field : InputField)
    (objectValue : list (string * Value)) (blameNode : option ErrorLocation)
    (path : valuePath) (coerceField : Value -> Value * Errors)
    (acc : list (string * Value) * Errors) : list (string * Value) * Errors :=
  let '(coercedValue, errs) := acc in
  let path := NewObjectField path name in
  match lookupKey name objectValue with
  | None =>
      match ifDefault field with
      | Some d => (setKey name d coercedValue, errs)
      | None =>
          if IsNonNullType (ifType field) then
            (coercedValue,
             errs ++ [newCoercionError
                        ("Field " +:+ valuePath_String path
                         +:+ " of required type " +:+ typeString (ifType field)
                         +:+ " was not provided")
                        blameNode [] "" None])
          else (coercedValue, errs)
      end
  | Some fieldValue =>
      let '(coercedField, fieldErrs) := coerceField fieldValue in
      if decide (0 < length fieldErrs) then (coercedValue, errs ++ fieldErrs)
      else if decide (length errs = 0)
           then (setKey name coercedField coercedValue, errs)
           else (coercedValue, errs)
  end.

Fixpoint coerceValueImpl (value : Value) (t : Type_)
    (blameNode : option ErrorLocation) (path : valuePath) {struct t}
  : Value * Errors :=
  match t with
  | NonNull innerType =>
      match value with
      | VNil =>
          (VNil, [newCoercionError
                    ("Expected non-nullable type " +:+ typeString t +:+ " not to be null")
                    blameNode path "" None])
      | _ => coerceValueImpl value innerType blameNode path
      end
  | _ =>
  match value with
  | VNil => (VNil, [])
  | _ =>
  match t with
  | Scalar _ coerceVariableValue _ =>
      match coerceVariableValue value with
      | inl err =>
          let subMessage :=
            match err with
            | CoreError e => if decide (Kind e = ErrKindCoercion) then Message e else ""
            | ForeignError _ => ""
            end in
          (VNil, [newCoercionError ("Expected type " +:+ typeString t)
                    blameNode path subMessage (Some err)])
      | inr coerced => (coerced, [])
      end
  | Enum _ values coerceVariableValue _ =>
      match coerceVariableValue value with
      | inl err =>
          let suggestions := SuggestionList (valueString value) values in
          (VNil, [newCoercionError ("Expected type " +:+ typeString t)
                    blameNode path (didYouMean suggestions) (Some err)])
      | inr coerced => (coerced, [])
      end
  | List elementType =>
      match value with
      | VSlice elems =>
          if decide (length elems = 0) then (VSlice [], [])
          else
            let fix loop (i : Z) (elems : list Value) (acc : list Value * Errors) :=
              match elems with
              | [] => acc
              | elem :: rest =>
                  loop (i + 1)%Z rest
                    (listStep acc
                       (coerceValueImpl elem elementType blameNode (NewListIndex path i)))
              end in
            let '(coercedValues, errs) := loop 0%Z elems ([], []) in
            if decide (0 < length errs) then (VNil, errs)
            else (VSlice coercedValues, [])
      | _ =>
          let '(coercedValue, errs) := coerceValueImpl value elementType blameNode path in
          if decide (0 < length errs) then (VNil, errs)
          else (VSlice [coercedValue], [])
      end
  | InputObject _ fields =>
      match value with
      | VMap objectValue =>
          let '(coercedValue, errs) :=
            fold_left
              (fun acc '(name, field) =>
                 fieldStep name field objectValue blameNode path
                   (fun fieldValue =>
                      coerceValueImpl fieldValue (ifType field) blameNode
                        (NewObjectField path name))
                   acc)
              fields ([], []) in
          let errs := checkProvided t fields blameNode path (map fst objectValue) errs in
          if decide (0 < length errs) then (VNil, errs)
          else (VMap coercedValue, [])
      | _ =>
          (VNil, [newCoercionError
                    ("Expected type " +:+ typeString t +:+ " to be an object")
                    blameNode path ""
                    (Some (NewError
                             ("value for InputObject should be given in a "
                              +:+ "map[string]interface{}, but got: " +:+ valueTypeString value)
                             []))])
      end
  | _ =>
      (VNil, [newCoercionError (typeString t +:+ " is not a valid input type")
                blameNode path "" None])
  end
  end
  end.

(** [func CoerceValue(value, t, blameNode)]. *)
Definition CoerceValue (value : Value) (t : Type_) (blameNode : option ErrorLocation)
  : Value * Errors :=
  coerceValueImpl value t blameNode [].

End Coercion.

End value.

(* ===================================================================== *)
(** ** package ast: the parts of the document the executor reads *)
(* ===================================================================== *)

Module ast.

(** An argument value in the document: a literal or a variable reference. *)
Inductive ArgumentValue :=
| Literal (v : Value)
| VariableRef (name : string).

Record Directive := mkDirective {
  directiveName : string;
  directiveArguments : list (string * ArgumentValue) }.

(** Modelled from the spec: package ast is absent from the sources; a field
    selection exposes its name, optional alias, arguments, directives,
    selection set and location. *)
Record FieldOf (S : Type) := mkField {
  Alias : option string;
  Name : string;
  Arguments : list (string * ArgumentValue);
  Directives : list Directive;
  SelectionSet : list S;
  Location : graphql.ErrorLocation }.
Arguments mkField {S} _ _ _ _ _ _.
Arguments Alias {S} _.
Arguments Name {S} _.
Arguments Arguments {S} _.
Arguments Directives {S} _.
Arguments SelectionSet {S} _.
Arguments Location {S} _.

(** Modelled from the spec: [ast.Selection] is a field, an inline fragment
    (optional type condition, directives, selection set) or a fragment
    spread (name, directives). *)
Inductive Selection :=
| FieldSelection (f : FieldOf Selection)
| InlineFragment (typeCondition : option string) (directives : list Directive)
                 (selectionSet : list Selection)
| FragmentSpread (name : string) (directives : list Directive).

Abbreviation Field := (FieldOf Selection).

Record FragmentDefinition := mkFragmentDefinition {
  fragmentTypeCondition : string;
  fragmentSelectionSet : list Selection }.

(** Modelled from the spec: [ResponseKey] is absent from the sources; the
    response key is the alias of a field selection if present, else its
    field name. *)
Definition ResponseKey (f : Field) : string :=
  match Alias f with
  | Some alias => alias
  | None => Name f
  end.

Definition GetDirectives (s : Selection) : list Directive :=
  match s with
  | FieldSelection f => Directives f
  | InlineFragment _ directives _ => directives
  | FragmentSpread _ directives => directives
  end.

End ast.

(* ===================================================================== *)
(** ** package executor: field collection (execute.go) *)
(* ===================================================================== *)

Module executor.
Import graphql.

(** How a Go call ends: it returns, it panics, or (for the loops that are
    bounded by fuel here) it has not returned within the bound. *)
Inductive Outcome (A : Type) :=
| Done (a : A)
| Panic (msg : string)
| OutOfFuel.
Arguments Done {A} a.
Arguments Panic {A} msg.
Arguments OutOfFuel {A}.

(** Pointers are addresses in the heaps of the state below. *)
Abbreviation nodeptr := nat (only parsing).
Abbreviation resultptr := nat (only parsing).

(** A value of type [[]*ExecutionNode]: nil, or a slice with its backing
    array. *)
Inductive Slice :=
| NilSlice
| SliceAt (array : nat).

#[global] Instance Slice_eq_dec : EqDecision Slice.
Proof. solve_decision. Defined.

(** Modelled from the spec: [graphql.Object] is an object type, with its
    name and its fields by name. *)
Record ObjectType := mkObjectType {
  objectName : string;
  objectFields : list (string * types.Field) }.

(** Modelled from the spec: the declaration of [ExecutionNode] is absent
    from the sources; its fields are the parent, the definitions, the field,
    the argument values and the children, a map from a concrete object type
    to an ordered list of child ExecutionNodes.  [Children] is keyed by the
    runtime object type; a schema holds one type object per name, so the
    identity of the key is the type's name.  The map may be nil ([None]). *)
Record ExecutionNode := mkExecutionNode {
  Parent : option nodeptr;
  Definitions : list ast.Field;
  Field : option types.Field;
  ArgumentValues : list (string * Value);
  Children : option (gmap string Slice) }.

(** Modelled from the spec: [IsRoot] is absent from the sources; the root
    ExecutionNode has nil parent and nil definitions. *)
Definition IsRoot (node : ExecutionNode) : bool :=
  match Parent node with None => true | Some _ => false end.

(** Modelled from the spec: the schema object is absent from the sources;
    it offers [TypeFromAST] and [PossibleTypes]. *)
Record Schema := mkSchema {
  TypeFromAST : string -> option types.Type_;
  PossibleTypes : types.Type_ -> list types.Type_ }.

(** Modelled from the spec: [ExecutionContext] and its operation are absent
    from the sources; they give the top-level selection set, the schema, the
    fragment definitions keyed by name, the root type, the variable values,
    the root source value and the default resolver. *)
Record ExecutionContext := mkExecutionContext {
  OperationSelectionSet : list ast.Selection;
  OperationSchema : Schema;
  FragmentDefs : gmap string ast.FragmentDefinition;
  RootType : ObjectType;
  VariableValues : list (string * Value);
  RootValue : Value;
  DefaultFieldResolver : Value -> list (string * Value) -> error + Value }.

(** Identity of two type objects: same kind and name, same wrapping. *)
Fixpoint sameType (a b : types.Type_) : bool :=
  match a, b with
  | types.Scalar n _ _, types.Scalar m _ _ => String.eqb n m
  | types.Enum n _ _ _, types.Enum m _ _ _ => String.eqb n m
  | types.InputObject n _, types.InputObject m _ => String.eqb n m
  | types.Object n _, types.Object m _ => String.eqb n m
  | types.Interface n, types.Interface m => String.eqb n m
  | types.Union n, types.Union m => String.eqb n m
  | types.List x, types.List y => sameType x y
  | types.NonNull x, types.NonNull y => sameType x y
  | _, _ => false
  end.

(** [t.(graphql.AbstractType)]. *)
Definition isAbstractType (t : types.Type_) : bool :=
  match t with types.Interface _ | types.Union _ => true | _ => false end.

Definition asType (o : ObjectType) : types.Type_ :=
  types.Object (objectName o) (objectFields o).

(** The two directives [shouldIncludeNode] asks about. *)
Inductive DirectiveDef := SkipDirective | IncludeDirective.

(** Modelled from the spec: [ArgumentValues.Get] is absent from the sources;
    argument values are a map from name to coerced value, read here with nil
    for a name that has none. *)
Definition Get (values : list (string * Value)) (name : string) : Value :=
  default VNil (lookupKey name values).

(** [taskData] of the collector's stack. *)
Record taskData := mkTaskData {
  selectionSet : list ast.Selection;
  selectionIndex : nat }.

(** The local state of [buildChildExecutionNodesForSelectionSet].  The stack
    has its top at the head.  Every node the function allocates is appended
    to [childNodes] at once, so a pointer to a new node is its position in
    [childNodes]: [fields] maps a response key to that position. *)
Record BuildState := mkBuildState {
  stack : list taskData;
  fields : gmap string nat;
  childNodes : list ExecutionNode;
  visitedFragmentNames : gset string }.

Definition appendDefinition (selection : ast.Field) (node : ExecutionNode)
  : ExecutionNode :=
  mkExecutionNode (Parent node) (Definitions node ++ [selection]) (Field node)
                  (ArgumentValues node) (Children node).

Section Engine.

(** [values.DirectiveValues] and [values.ArgumentValues] are absent from the
    sources and taken as parameters. *)
Variable DirectiveValues :
  DirectiveDef -> list ast.Directive -> list (string * Value)
  -> error + list (string * Value).
Variable ArgumentValuesOf :
  types.Field -> ast.Field -> list (string * Value) -> error + list (string * Value).

(** [func shouldIncludeNode(ctx, node) (bool, error)]; the type assertion
    [.(bool)] panics on a value that is not a boolean. *)
Definition shouldIncludeNode (ctx : ExecutionContext) (node : ast.Selection)
  : Outcome (error + bool) :=
  match DirectiveValues SkipDirective (ast.GetDirectives node) (VariableValues ctx) with
  | inl err => Done (inl err)
  | inr skip =>
      match Get skip "if" with
      | VBool true => Done (inr false)
      | VNil | VBool false =>
          match DirectiveValues IncludeDirective (ast.GetDirectives node)
                  (VariableValues ctx) with
          | inl err => Done (inl err)
          | inr include =>
              match Get include "if" with
              | VBool false => Done (inr false)
              | VNil | VBool true => Done (inr true)
              | _ => Panic "interface conversion: interface {} is not bool"
              end
          end
      | _ => Panic "interface conversion: interface {} is not bool"
      end
  end.

(** [func findFieldDef(schema, parentType, fieldName) graphql.Field]. *)
Definition findFieldDef (schema : Schema) (parentType : ObjectType)
    (fieldName : string) : option types.Field :=
  lookupKey fieldName (objectFields parentType).

(** [func doesTypeConditionSatisfy(ctx, typeCondition, t) bool]. *)
Definition doesTypeConditionSatisfy (ctx : ExecutionContext)
    (typeCondition : string) (t : types.Type_) : bool :=
  let schema := OperationSchema ctx in
  if match TypeFromAST schema typeCondition with
     | Some conditionalType => sameType conditionalType t
     | None => false
     end
  then true
  else if isAbstractType t
       then existsb (fun possibleType => sameType possibleType t)
                    (PossibleTypes schema t)
       else false.

Definition pushTask (st : BuildState) (stack' : list taskData)
    (selectionSet : list ast.Selection) (visited : gset string) : BuildState :=
  mkBuildState (mkTaskData selectionSet 0 :: stack') (fields st) (childNodes st) visited.

(** The body of the inner loop, for the selection at [selectionIndex] of the
    top task [data]: advance the index (popping the task when it is
    exhausted), check the directives, then dispatch on the selection. *)
Definition processSelection (ctx : ExecutionContext) (parentNode : nodeptr)
    (runtimeType : ObjectType) (st : BuildState)
    (data : taskData) (below : list taskData) (selection : ast.Selection)
  : Outcome (error + BuildState) :=
  let index := S (selectionIndex data) in
  let stack' :=
    if decide (length (selectionSet data) <= index) then below
    else mkTaskData (selectionSet data) index :: below in
  match shouldIncludeNode ctx selection with
  | Panic msg => Panic msg
  | OutOfFuel => OutOfFuel
  | Done (inl err) => Done (inl err)
  | Done (inr false) =>
      Done (inr (mkBuildState stack' (fields st) (childNodes st)
                              (visitedFragmentNames st)))
  | Done (inr true) =>
      match selection with
      | ast.FieldSelection selection =>
          let name := ast.ResponseKey selection in
          match fields st !! name with
          | Some field =>
              Done (inr (mkBuildState stack' (fields st)
                           (alter (appendDefinition selection) field (childNodes st))
                           (visitedFragmentNames st)))
          | None =>
              match findFieldDef (OperationSchema ctx) runtimeType (ast.Name selection) with
              | None =>
                  Done (inr (mkBuildState stack' (fields st) (childNodes st)
                                          (visitedFragmentNames st)))
              | Some fieldDef =>
                  match ArgumentValuesOf fieldDef selection (VariableValues ctx) with
                  | inl err => Done (inl err)
                  | inr arguments =>
                      let field :=
                        mkExecutionNode (Some parentNode) [selection] (Some fieldDef)
                                        arguments None in
                      Done (inr (mkBuildState stack'
                                   (<[name := length (childNodes st)]> (fields st))
                                   (childNodes st ++ [field])
                                   (visitedFragmentNames st)))
                  end
              end
          end
      | ast.InlineFragment typeCondition _ selectionSet =>
          if match typeCondition with
             | Some cond => doesTypeConditionSatisfy ctx cond (asType runtimeType)
             | None => true
             end
          then Done (inr (pushTask st stack' selectionSet (visitedFragmentNames st)))
          else Done (inr (mkBuildState stack' (fields st) (childNodes st)
                                       (visitedFragmentNames st)))
      | ast.FragmentSpread fragmentName _ =>
          if decide (fragmentName ∈ visitedFragmentNames st)
          then Done (inr (mkBuildState stack' (fields st) (childNodes st)
                                       (visitedFragmentNames st)))
          else
            let visited := {[fragmentName]} ∪ visitedFragmentNames st in
            match FragmentDefs ctx !! fragmentName with
            | None =>
                Done (inr (mkBuildState stack' (fields st) (childNodes st) visited))
            | Some fragmentDef =>
                if doesTypeConditionSatisfy ctx (ast.fragmentTypeCondition fragmentDef)
                     (asType runtimeType)
                then Done (inr (pushTask st stack' (ast.fragmentSelectionSet fragmentDef)
                                         visited))
                else Done (inr (mkBuildState stack' (fields st) (childNodes st) visited))
            end
      end
  end.

(** The loops [for len(stack) > 0 { for data.selectionIndex < numSelections
    && !interrupted { ... } }].  The outer loop re-enters the inner loop on
    the top task, so together they iterate [processSelection] on the top of
    the stack; a top task with no selection left to read (an empty selection
    set) is never popped and the outer loop spins on it. *)
Fixpoint collectLoop (fuel : nat) (ctx : ExecutionContext) (parentNode : nodeptr)
    (runtimeType : ObjectType) (st : BuildState)
  : Outcome (error + list ExecutionNode) :=
  match fuel with
  | O => OutOfFuel
  | S fuel =>
      match stack st with
      | [] => Done (inr (childNodes st))
      | data :: below =>
          match selectionSet data !! selectionIndex data with
          | None => collectLoop fuel ctx parentNode runtimeType st
          | Some selection =>
              match processSelection ctx parentNode runtimeType st data below selection with
              | Done (inr st') => collectLoop fuel ctx parentNode runtimeType st'
              | Done (inl err) => Done (inl err)
              | Panic msg => Panic msg
              | OutOfFuel => OutOfFuel
              end
          end
      end
  end.

(** [func buildChildExecutionNodesForSelectionSet(ctx, parentNode,
    runtimeType) ([]*ExecutionNode, error)]; [parent] is the node
    [parentNode] points to.  The result lists the new nodes in the order of
    [childNodes]. *)
Definition buildChildExecutionNodesForSelectionSet (fuel : nat)
    (ctx : ExecutionContext) (parentNode : nodeptr) (parent : ExecutionNode)
    (runtimeType : ObjectType) : Outcome (error + list ExecutionNode) :=
  let stack :=
    if IsRoot parent then [mkTaskData (OperationSelectionSet ctx) 0]
    else map (fun definition => mkTaskData (ast.SelectionSet definition) 0)
             (Definitions parent) in
  collectLoop fuel ctx parentNode runtimeType (mkBuildState stack ∅ [] ∅).

(* --------------------------------------------------------------------- *)
(** *** Result nodes, the executor's state, and field collection *)
(* --------------------------------------------------------------------- *)

Inductive ResultKind :=
| ResultKindUnresolved
| ResultKindNil
| ResultKindLeaf
| ResultKindList
| ResultKindObject.

#[global] Instance ResultKind_eq_dec : EqDecision ResultKind.
Proof. solve_decision. Defined.

(** The value of a ResultNode: absent, a coerced leaf, the element nodes of
    a list, or [ObjectResultValue] with the execution nodes and the result
    node of each. *)
Inductive ResultValue :=
| NoValue
| LeafValue (v : Value)
| ListValue (elements : list resultptr)
| ObjectValue (ExecutionNodes : Slice) (FieldValues : list resultptr).

(** Modelled from the spec: the declaration of [ResultNode] is absent from
    the sources; each node records its parent, its kind, its value and a
    non-null flag. *)
Record ResultNode := mkResultNode {
  resultParent : option resultptr;
  resultKind : ResultKind;
  resultValue : ResultValue;
  resultIsNonNull : bool }.

(** The zero value of [ResultNode], as [make([]ResultNode, n)] yields it. *)
Definition zeroResultNode : ResultNode :=
  mkResultNode None ResultKindUnresolved NoValue false.

Definition SetIsNonNull (r : ResultNode) : ResultNode :=
  mkResultNode (resultParent r) (resultKind r) (resultValue r) true.
Definition setResultParent (parent : resultptr) (r : ResultNode) : ResultNode :=
  mkResultNode (Some parent) (resultKind r) (resultValue r) (resultIsNonNull r).
Definition setResult (kind : ResultKind) (value : ResultValue) (r : ResultNode)
  : ResultNode :=
  mkResultNode (resultParent r) kind value (resultIsNonNull r).

(** [result.Kind = ResultKindNil; result.Value = nil]. *)
Definition setNil : ResultNode -> ResultNode := setResult ResultKindNil NoValue.

Record ExecuteNodeTask := mkExecuteNodeTask {
  taskNode : nodeptr;
  taskResult : resultptr;
  taskSource : Value }.

(** The heaps of execution nodes, of backing arrays of child-node slices and
    of result nodes, and the executor's task queue and error list. *)
Record State := mkState {
  nodes : list ExecutionNode;
  arrays : list (list nodeptr);
  results : list ResultNode;
  queue : list ExecuteNodeTask;
  errs : list Error }.

Definition withNodes (st : State) (ns : list ExecutionNode) : State :=
  mkState ns (arrays st) (results st) (queue st) (errs st).
Definition withResults (st : State) (rs : list ResultNode) : State :=
  mkState (nodes st) (arrays st) rs (queue st) (errs st).

Definition setChildren (children : gmap string Slice) (n : ExecutionNode)
  : ExecutionNode :=
  mkExecutionNode (Parent n) (Definitions n) (Field n) (ArgumentValues n) (Some children).

(** The elements of a slice of execution nodes. *)
Definition sliceElements (st : State) (s : Slice) : list nodeptr :=
  match s with
  | NilSlice => []
  | SliceAt a => default [] (arrays st !! a)
  end.

(** [func collectFields(ctx, node, runtimeType) ([]*ExecutionNode, error)].
    The nodes a build creates go to the end of the node heap, and the slice
    it returns gets a backing array of its own. *)
Definition collectFields (fuel : nat) (ctx : ExecutionContext) (node : nodeptr)
    (runtimeType : ObjectType) (st : State) : Outcome ((error + Slice) * State) :=
  match nodes st !! node with
  | None => Panic "invalid memory address or nil pointer dereference"
  | Some n =>
      let '(children, childNodes) :=
        match Children n with
        | None => (∅, NilSlice)
        | Some children => (children, default NilSlice (children !! objectName runtimeType))
        end in
      let st := withNodes st (<[node := setChildren children n]> (nodes st)) in
      let store (childNodes : Slice) (st : State) :=
        withNodes st
          (alter (setChildren (<[objectName runtimeType := childNodes]> children))
                 node (nodes st)) in
      match childNodes with
      | SliceAt _ => Done (inr childNodes, store childNodes st)
      | NilSlice =>
          match buildChildExecutionNodesForSelectionSet fuel ctx node n runtimeType with
          | Done (inl err) => Done (inl err, st)
          | Done (inr newNodes) =>
              let pointers := seq (length (nodes st)) (length newNodes) in
              let childNodes := SliceAt (length (arrays st)) in
              Done (inr childNodes,
                    store childNodes
                      (mkState (nodes st ++ newNodes) (arrays st ++ [pointers])
                               (results st) (queue st) (errs st)))
          | Panic msg => Panic msg
          | OutOfFuel => OutOfFuel
          end
      end
  end.

(* --------------------------------------------------------------------- *)
(** *** The executor interface *)
(* --------------------------------------------------------------------- *)

(** Modelled from the spec: [Dispatch] is absent from the sources;
    Dispatch(task) enqueues an ExecuteNodeTask. *)
Definition Dispatch (task : ExecuteNodeTask) (st : State) : State :=
  mkState (nodes st) (arrays st) (results st) (queue st ++ [task]) (errs st).

(** Modelled from the spec: the null-bubbling walk is absent from the
    sources; when a non-null-required node is set to Nil, the parent is
    immediately set to Nil (and its stored value discarded), and this
    repeats up the ResultNode chain. *)
Fixpoint bubble (fuel : nat) (result : resultptr) (rs : list ResultNode)
  : list ResultNode :=
  match fuel with
  | O => rs
  | S fuel =>
      match rs !! result with
      | Some r =>
          if resultIsNonNull r then
            match resultParent r with
            | Some parent => bubble fuel parent (alter setNil parent rs)
            | None => rs
            end
          else rs
      | None => rs
      end
  end.

(** Modelled from the spec: [AppendError] is absent from the sources;
    AppendError(e, result) records an error against the run (an append to
    the error list), and the null set on [result] bubbles from it. *)
Definition AppendError (e : Error) (result : resultptr) (st : State) : State :=
  mkState (nodes st) (arrays st) (bubble (length (results st)) result (results st))
          (queue st) (errs st ++ [e]).

(** Modelled from the spec: [IsNil] is absent from the sources; it reports
    whether the node's kind is Nil. *)
Definition IsNil (st : State) (result : resultptr) : option bool :=
  r ← results st !! result;
  Some (bool_decide (resultKind r = ResultKindNil)).

(** Modelled from the spec: [values.IsNullish] is absent from the sources;
    it recognises the null value. *)
Definition IsNullish (v : Value) : bool :=
  match v with VNil => true | _ => false end.

(* --------------------------------------------------------------------- *)
(** *** Value completion *)
(* --------------------------------------------------------------------- *)

(** [fmt]'s rendering of a type, [parentFieldType(ctx, node).Name()],
    [ResultNode.Path] and [graphql.NewDefaultResultCoercionError] are absent
    from the sources and taken as parameters. *)
Variable typeString : types.Type_ -> string.
Variable parentFieldTypeName : ExecutionContext -> ExecutionNode -> string.
Variable ResultPath : State -> resultptr -> ResponsePath.
Variable NewDefaultResultCoercionError : string -> Value -> error -> error.

Definition nilDereference {A} : Outcome A :=
  Panic "invalid memory address or nil pointer dereference".

(** [func (task *ExecuteNodeTask) handleNodeError(err error, result *ResultNode)]. *)
Definition handleNodeError (task : ExecuteNodeTask) (err : error)
    (result : resultptr) (st : State) : Outcome State :=
  match nodes st !! taskNode task, results st !! result with
  | Some node, Some _ =>
      let locations := map ast.Location (Definitions node) in
      let path := ResultPath st result in
      let e :=
        match err with
        | CoreError e => setPath (setLocations e locations) (Some path)
        | ForeignError f =>
            value.assertError
              (NewError (foreignText f)
                        [ArgErrorLocations locations; ArgResponsePath (Some path)])
        end in
      Done (AppendError e result (withResults st (alter setNil result (results st))))
  | _, _ => nilDereference
  end.

(** The allocation [make([]ResultNode, n)]: [n] zero nodes at the end of the
    heap, and the pointers to them. *)
Definition makeResultNodes (n : nat) (st : State) : list resultptr * State :=
  (seq (length (results st)) n, withResults st (results st ++ replicate n zeroResultNode)).

(** The loop of [dispatchTasksForObject] over the child nodes. *)
Fixpoint dispatchLoop (result : resultptr) (value : Value)
    (items : list (nodeptr * resultptr)) (st : State) : Outcome State :=
  match items with
  | [] => Done st
  | (childNode, nodeResult) :: rest =>
      let st := withResults st (alter (setResultParent result) nodeResult (results st)) in
      match nodes st !! childNode with
      | Some child =>
          match Field child with
          | Some field =>
              let st :=
                if types.IsNonNullType (types.fType field)
                then withResults st (alter SetIsNonNull nodeResult (results st))
                else st in
              dispatchLoop result value rest
                (Dispatch (mkExecuteNodeTask childNode nodeResult value) st)
          | None => nilDereference
          end
      | None => nilDereference
      end
  end.

(** [func dispatchTasksForObject(ctx, executor, result, childNodes, value)]. *)
Definition dispatchTasksForObject (ctx : ExecutionContext) (result : resultptr)
    (childNodes : Slice) (value : Value) (st : State) : Outcome State :=
  let pointers := sliceElements st childNodes in
  let '(nodeResults, st) := makeResultNodes (length pointers) st in
  match results st !! result with
  | Some _ =>
      let st :=
        withResults st
          (alter (setResult ResultKindObject (ObjectValue childNodes nodeResults))
                 result (results st)) in
      dispatchLoop result value (zip pointers nodeResults) st
  | None => nilDereference
  end.

(** [func (task) completeLeafValue(returnType, result, value) (ok bool)]. *)
Definition completeLeafValue (task : ExecuteNodeTask) (returnType : types.Type_)
    (coerceResultValue : types.Coercer) (result : resultptr) (value : Value)
    (st : State) : Outcome (bool * State) :=
  match coerceResultValue value with
  | inl err =>
      let err :=
        match err with
        | CoreError e =>
            if decide (Kind e = ErrKindCoercion) then err
            else NewDefaultResultCoercionError (types.TypeName returnType) value err
        | ForeignError _ =>
            NewDefaultResultCoercionError (types.TypeName returnType) value err
        end in
      match handleNodeError task err result st with
      | Done st => Done (false, st)
      | Panic msg => Panic msg
      | OutOfFuel => OutOfFuel
      end
  | inr coercedValue =>
      match results st !! result with
      | Some _ =>
          Done (true,
                withResults st
                  (alter (setResult ResultKindLeaf (LeafValue coercedValue))
                         result (results st)))
      | None => nilDereference
      end
  end.

(** [func (task) completeObjectValue(returnType, result, value) (ok bool)]. *)
Definition completeObjectValue (fuel : nat) (ctx : ExecutionContext)
    (task : ExecuteNodeTask) (returnType : ObjectType) (result : resultptr)
    (value : Value) (st : State) : Outcome (bool * State) :=
  match collectFields fuel ctx (taskNode task) returnType st with
  | Done (inl err, st) =>
      match handleNodeError task err result st with
      | Done st => Done (false, st)
      | Panic msg => Panic msg
      | OutOfFuel => OutOfFuel
      end
  | Done (inr childNodes, st) =>
      match dispatchTasksForObject ctx result childNodes value st with
      | Done st => Done (true, st)
      | Panic msg => Panic msg
      | OutOfFuel => OutOfFuel
      end
  | Panic msg => Panic msg
  | OutOfFuel => OutOfFuel
  end.

(** [func (task) completeAbstractValue(returnType, result, value) (ok bool)]:
    its body is [panic("unimplemented")]. *)
Definition completeAbstractValue (task : ExecuteNodeTask) (returnType : types.Type_)
    (result : resultptr) (value : Value) (st : State) : Outcome (bool * State) :=
  Panic "unimplemented".

(** [func (task) completeNonWrappingValue(returnType, result, value) (ok bool)]. *)
Definition completeNonWrappingValue (fuel : nat) (ctx : ExecutionContext)
    (task : ExecuteNodeTask) (returnType : types.Type_) (result : resultptr)
    (value : Value) (st : State) : Outcome (bool * State) :=
  if IsNullish value then
    match results st !! result with
    | Some _ => Done (true, withResults st (alter setNil result (results st)))
    | None => nilDereference
    end
  else
    match value with
    | VError err =>
        match handleNodeError task (CoreError err) result st with
        | Done st => Done (false, st)
        | Panic msg => Panic msg
        | OutOfFuel => OutOfFuel
        end
    | _ =>
        match returnType with
        | types.Scalar _ _ coerceResultValue
        | types.Enum _ _ _ coerceResultValue =>
            completeLeafValue task returnType coerceResultValue result value st
        | types.Object name fields =>
            completeObjectValue fuel ctx task (mkObjectType name fields) result value st
        | types.Interface _ | types.Union _ =>
            completeAbstractValue task returnType result value st
        | _ =>
            match handleNodeError task
                    (NewError ("Cannot complete value of unexpected type " +:+ util.dquote
                               +:+ typeString returnType +:+ util.dquote +:+ ".") [])
                    result st with
            | Done st => Done (false, st)
            | Panic msg => Panic msg
            | OutOfFuel => OutOfFuel
            end
        end
    end.

(** The loop over the elements of a list whose element type is not a
    wrapping type: each element's node gets its parent and is completed in
    turn; the loop breaks when an element fails and its error has nil'ed the
    list's own node. *)
Fixpoint completeElements (fuel : nat) (ctx : ExecutionContext)
    (task : ExecuteNodeTask) (elementType : types.Type_) (result : resultptr)
    (items : list (resultptr * Value)) (st : State) : Outcome State :=
  match items with
  | [] => Done st
  | (resultNode, value) :: rest =>
      let st := withResults st (alter (setResultParent result) resultNode (results st)) in
      match completeNonWrappingValue fuel ctx task elementType resultNode value st with
      | Done (ok, st) =>
          if negb ok then
            match IsNil st result with
            | Some true => Done st
            | Some false => completeElements fuel ctx task elementType result rest st
            | None => nilDereference
            end
          else completeElements fuel ctx task elementType result rest st
      | Panic msg => Panic msg
      | OutOfFuel => OutOfFuel
      end
  end.

(** [ValueNode] of the work queue of [completeWrappingValue]. *)
Record ValueNode := mkValueNode {
  vnReturnType : types.Type_;
  vnResult : resultptr;
  vnValue : Value }.

(** The message arguments [parentFieldType(task.ctx, node).Name()] and
    [node.Field.Name()]. *)
Definition fieldLabel (ctx : ExecutionContext) (task : ExecuteNodeTask) (st : State)
  : option string :=
  node ← nodes st !! taskNode task;
  field ← Field node;
  Some (parentFieldTypeName ctx node +:+ "." +:+ types.fName field).

(** The loop [for len(queue) > 0] of [completeWrappingValue]. *)
Fixpoint completeQueue (fuel : nat) (ctx : ExecutionContext) (task : ExecuteNodeTask)
    (steps : nat) (queue : list ValueNode) (st : State) : Outcome State :=
  match queue with
  | [] => Done st
  | valueNode :: queue =>
  match steps with
  | O => OutOfFuel
  | S steps =>
      let continue := completeQueue fuel ctx task steps in
      let result := vnResult valueNode in
      let value := vnValue valueNode in
      match (r ← results st !! result; parent ← resultParent r; IsNil st parent) with
      | None => nilDereference
      | Some true => continue queue st
      | Some false =>
          let '(isNonNullType, returnType) :=
            match vnReturnType valueNode with
            | types.NonNull innerType => (true, innerType)
            | t => (false, t)
            end in
          if IsNullish value then
            if isNonNullType then
              match fieldLabel ctx task st with
              | Some label =>
                  match handleNodeError task
                          (NewError ("Cannot return null for non-nullable field "
                                     +:+ label +:+ ".") [])
                          result st with
                  | Done st => continue queue st
                  | Panic msg => Panic msg
                  | OutOfFuel => OutOfFuel
                  end
              | None => nilDereference
              end
            else continue queue (withResults st (alter setNil result (results st)))
          else
            match returnType with
            | types.List elementType =>
                match value with
                | VSlice elems =>
                    let '(resultNodes, st) := makeResultNodes (length elems) st in
                    let st :=
                      if isNonNullType
                      then withResults st
                             (foldr (alter SetIsNonNull) (results st) resultNodes)
                      else st in
                    let st :=
                      withResults st
                        (alter (setResult ResultKindList (ListValue resultNodes))
                               result (results st)) in
                    if types.isWrappingType elementType then
                      let st :=
                        withResults st
                          (foldr (alter (setResultParent result)) (results st) resultNodes) in
                      continue
                        (queue ++ zip_with (mkValueNode elementType) resultNodes elems) st
                    else
                      match completeElements fuel ctx task elementType result
                              (zip resultNodes elems) st with
                      | Done st => continue queue st
                      | Panic msg => Panic msg
                      | OutOfFuel => OutOfFuel
                      end
                | _ =>
                    match fieldLabel ctx task st with
                    | Some label =>
                        match handleNodeError task
                                (NewError ("Expected Iterable, but did not find one for field "
                                           +:+ label +:+ ".") [])
                                result st with
                        | Done st => continue queue st
                        | Panic msg => Panic msg
                        | OutOfFuel => OutOfFuel
                        end
                    | None => nilDereference
                    end
                end
            | _ =>
                match completeNonWrappingValue fuel ctx task returnType result value st with
                | Done (_, st) => continue queue st
                | Panic msg => Panic msg
                | OutOfFuel => OutOfFuel
                end
            end
      end
  end
  end.

(** [func (task) completeWrappingValue(returnType, result, value)]. *)
Definition completeWrappingValue (fuel : nat) (ctx : ExecutionContext)
    (task : ExecuteNodeTask) (returnType : types.Type_) (result : resultptr)
    (value : Value) (st : State) : Outcome State :=
  match value with
  | VError err => handleNodeError task (CoreError err) result st
  | _ => completeQueue fuel ctx task fuel [mkValueNode returnType result value] st
  end.

(** [func (task) completeValue(returnType, result, value)]. *)
Definition completeValue (fuel : nat) (ctx : ExecutionContext) (task : ExecuteNodeTask)
    (returnType : types.Type_) (result : resultptr) (value : Value) (st : State)
  : Outcome State :=
  if types.isWrappingType returnType
  then completeWrappingValue fuel ctx task returnType result value st
  else
    match completeNonWrappingValue fuel ctx task returnType result value st with
    | Done (_, st) => Done st
    | Panic msg => Panic msg
    | OutOfFuel => OutOfFuel
    end.

(** [func (task *ExecuteNodeTask) Run()]. *)
Definition Run (fuel : nat) (ctx : ExecutionContext) (task : ExecuteNodeTask)
    (st : State) : Outcome State :=
  match nodes st !! taskNode task with
  | Some node =>
      match Field node with
      | Some field =>
          let resolver := default (DefaultFieldResolver ctx) (types.fResolver field) in
          match resolver (taskSource task) (ArgumentValues node) with
          | inl err => handleNodeError task err (taskResult task) st
          | inr value => completeValue fuel ctx task (types.fType field) (taskResult task) value st
          end
      | None => nilDereference
      end
  | None => nilDereference
  end.

(** [func collectAndDispatchRootTasks(ctx, executor)], returning the root
    result node or an error. *)
Definition collectAndDispatchRootTasks (fuel : nat) (ctx : ExecutionContext) (st : State)
  : Outcome ((error + resultptr) * State) :=
  let rootNode := length (nodes st) in
  let st := withNodes st (nodes st ++ [mkExecutionNode None [] None [] None]) in
  match collectFields fuel ctx rootNode (RootType ctx) st with
  | Done (inl err, st) => Done (inl err, st)
  | Done (inr childNodes, st) =>
      let result := length (results st) in
      let st := withResults st (results st ++ [zeroResultNode]) in
      match dispatchTasksForObject ctx result childNodes (RootValue ctx) st with
      | Done st => Done (inr result, st)
      | Panic msg => Panic msg
      | OutOfFuel => OutOfFuel
      end
  | Panic msg => Panic msg
  | OutOfFuel => OutOfFuel
  end.

End Engine.

End executor.

(* ===================================================================== *)
(** ** Vocabulary of the statements *)
(* ===================================================================== *)

Module error_spec.
Import graphql.

(** The kinds passed as [ErrKind] arguments, in argument order. *)
Definition kindArgs (args : list Arg) : list ErrKind :=
  omap (fun a => match a with ArgErrKind k => Some k | _ => None end) args.

(** The kind the caller gave: the last [ErrKind] argument, [ErrKindOther]
    when there is none. *)
Definition givenKind (args : list Arg) : ErrKind :=
  List.last (kindArgs args) ErrKindOther.

(** An argument of one of the seven types the switch lists. *)
Definition recognised (a : Arg) : Prop :=
  match a with ArgOther _ _ => False | _ => True end.

End error_spec.

Module coercion_spec.
Import graphql types value.

Section Loop.

Variable typeString : Type_ -> string.
Variable valueString : Value -> string.
Variable valueTypeString : Value -> string.
Variable SuggestionList : string -> list string -> list string.

Local Abbreviation coerce :=
  (coerceValueImpl typeString valueString valueTypeString SuggestionList).

(** The field loop of the InputObject case, as [coerceValueImpl] runs it. *)
Definition fieldsLoop (objectValue : list (string * Value))
    (blameNode : option ErrorLocation) (path : valuePath)
    (fields : list (string * InputField))
    (acc : list (string * Value) * Errors) : list (string * Value) * Errors :=
  fold_left
    (fun acc '(name, field) =>
       fieldStep typeString name field objectValue blameNode path
         (fun fieldValue =>
            coerce fieldValue (ifType field) blameNode (NewObjectField path name))
         acc)
    fields acc.

End Loop.

(** The two runs of the field loop (field supplied with its default, field
    omitted) agree on the errors, and on the coerced map as long as there is
    no error. *)
Definition agree (acc1 acc2 : list (string * Value) * Errors) : Prop :=
  acc1.2 = acc2.2 /\ (acc1.2 = [] -> acc1.1 = acc2.1).

End coercion_spec.

Module collector_spec.
Import graphql executor.

(** What a successful [collectFields] leaves behind: the node's children
    map holds the returned slice under the runtime type, and the slice is
    not nil. *)
Definition stored (st : State) (node : nodeptr) (runtimeType : ObjectType)
    (childNodes : Slice) : Prop :=
  exists n children,
    nodes st !! node = Some n /\ Children n = Some children /\
    children !! objectName runtimeType = Some childNodes /\
    childNodes <> NilSlice.

(** The response key under which a node's definitions were collected. *)
Definition nodeKey (n : ExecutionNode) : string :=
  match Definitions n with
  | f :: _ => ast.ResponseKey f
  | [] => ""
  end.

(** A node has at least one definition, and all share its response key. *)
Definition keyed (n : ExecutionNode) : Prop :=
  Definitions n <> [] /\
  Forall (fun f => ast.ResponseKey f = nodeKey n) (Definitions n).

(** The invariant of the collector's loop: [fields] is exactly the index of
    [childNodes] by response key. *)
Record Inv (st : BuildState) : Prop := mkInv {
  inv_fields : forall k i, fields st !! k = Some i ->
    exists n, childNodes st !! i = Some n /\ nodeKey n = k;
  inv_nodes : forall i n, childNodes st !! i = Some n ->
    fields st !! nodeKey n = Some i;
  inv_keyed : Forall keyed (childNodes st) }.

(** [st'] is a later state of the loop than [st]: keys keep their node and
    every node's definitions only grow at the end. *)
Definition ext (st st' : BuildState) : Prop :=
  (forall k i, fields st !! k = Some i -> fields st' !! k = Some i) /\
  (forall i n, childNodes st !! i = Some n ->
     exists n', childNodes st' !! i = Some n' /\
                Definitions n `prefix_of` Definitions n').

(** The number of loop iterations a selection costs: one, plus those of the
    selections of an inline fragment. *)
Fixpoint selectionSize (s : ast.Selection) : nat :=
  match s with
  | ast.InlineFragment _ _ ss => S (sum_list_with selectionSize ss)
  | _ => 1
  end.

(** No inline fragment in the selection has an empty selection set. *)
Fixpoint fragmentsNonEmpty (s : ast.Selection) : bool :=
  match s with
  | ast.InlineFragment _ _ ss =>
      match ss with
      | [] => false
      | _ => forallb fragmentsNonEmpty ss
      end
  | _ => true
  end.

Definition wfSelectionSet (ss : list ast.Selection) : Prop :=
  ss <> [] /\ forallb fragmentsNonEmpty ss = true.

(** A task of the stack that still has a selection to read. *)
Definition wfTask (data : taskData) : Prop :=
  selectionIndex data < length (selectionSet data) /\
  forallb fragmentsNonEmpty (selectionSet data) = true.

Definition stackSize (stack : list taskData) : nat :=
  sum_list_with
    (fun data => sum_list_with selectionSize
                   (drop (selectionIndex data) (selectionSet data)))
    stack.

(** The selections of the fragment definitions not applied so far. *)
Definition unvisitedWeight (defs : gmap string ast.FragmentDefinition)
    (visited : gset string) : nat :=
  sum_list_with
    (fun '(name, def) =>
       if decide (name ∈ visited) then 0
       else sum_list_with selectionSize (ast.fragmentSelectionSet def))
    (map_to_list defs).

(** The termination measure of the collector's loop. *)
Definition measure (ctx : ExecutionContext) (st : BuildState) : nat :=
  stackSize (stack st) + unvisitedWeight (FragmentDefs ctx) (visitedFragmentNames st).

(** The selection sets the collector starts from. *)
Definition initialSelectionSets (ctx : ExecutionContext) (parent : ExecutionNode)
  : list (list ast.Selection) :=
  if IsRoot parent then [OperationSelectionSet ctx]
  else map ast.SelectionSet (Definitions parent).

(** The selection sets to collect and the fragment definitions are not
    empty, at any depth of inline fragments. *)
Definition wfContext (ctx : ExecutionContext) (parent : ExecutionNode) : Prop :=
  Forall wfSelectionSet (initialSelectionSets ctx parent) /\
  map_Forall (fun _ def => wfSelectionSet (ast.fragmentSelectionSet def))
             (FragmentDefs ctx).

Definition collectBound (ctx : ExecutionContext) (parent : ExecutionNode) : nat :=
  sum_list_with (sum_list_with selectionSize) (initialSelectionSets ctx parent)
  + unvisitedWeight (FragmentDefs ctx) ∅.

(** The stack after the index of the top task has been advanced. *)
Definition advanced (data : taskData) (below : list taskData) : list taskData :=
  if decide (length (selectionSet data) <= S (selectionIndex data)) then below
  else mkTaskData (selectionSet data) (S (selectionIndex data)) :: below.

End collector_spec.

Module completion_spec.
Import graphql executor.

(** In a well-formed heap of result nodes a parent is allocated before its
    children. *)
Definition wfResults (rs : list ResultNode) : Prop :=
  forall a n p, rs !! a = Some n -> resultParent n = Some p -> p < a.

(** [rs'] extends [rs], stays well formed, and agrees with [rs] on every
    node of [rs] allocated after [r]. *)
Definition frame (r : resultptr) (rs rs' : list ResultNode) : Prop :=
  wfResults rs' /\ length rs <= length rs' /\
  forall a, r < a -> a < length rs -> rs' !! a = rs !! a.

(** The state in which [completeWrappingValue] enters the element loop of a
    list of [n] elements at [result]: the element nodes are allocated (and
    flagged when the list type was non-null) and [result] is a List. *)
Definition elementLoopState (isNonNullType : bool) (result : resultptr) (n : nat)
    (st : State) : State :=
  let '(resultNodes, st) := makeResultNodes n st in
  let st :=
    if isNonNullType
    then withResults st (foldr (alter SetIsNonNull) (results st) resultNodes)
    else st in
  withResults st
    (alter (setResult ResultKindList (ListValue resultNodes)) result (results st)).

Section Elements.

Variable DirectiveValues :
  DirectiveDef -> list ast.Directive -> list (string * Value)
  -> error + list (string * Value).
Variable ArgumentValuesOf :
  types.Field -> ast.Field -> list (string * Value) -> error + list (string * Value).
Variable typeString : types.Type_ -> string.
Variable ResultPath : State -> resultptr -> ResponsePath.
Variable NewDefaultResultCoercionError : string -> Value -> error -> error.
Variables (fuel : nat) (ctx : ExecutionContext) (task : ExecuteNodeTask).
Variables (elementType : types.Type_) (result : resultptr).

Local Abbreviation completeElement r value st :=
  (completeNonWrappingValue DirectiveValues ArgumentValuesOf typeString ResultPath
     NewDefaultResultCoercionError fuel ctx task elementType r value
     (withResults st (alter (setResultParent result) r (results st)))).

(** The elements of [items] were completed one after the other, none of
    them failing with the list's node nil'ed. *)
Inductive ranThrough : list (resultptr * Value) -> State -> State -> Prop :=
| ranThrough_nil st : ranThrough [] st st
| ranThrough_cons r value rest st ok st1 st2 :
    completeElement r value st = Done (ok, st1) ->
    ok = true \/ IsNil st1 result = Some false ->
    ranThrough rest st1 st2 ->
    ranThrough ((r, value) :: rest) st st2.

End Elements.

End completion_spec.

(* ===================================================================== *)
(** ** Concrete schemas, documents and states *)
(* ===================================================================== *)

Module samples.
Import graphql types value executor.

(** GraphQL's notation for types, standing in for the [String()] methods. *)
Fixpoint typeNotation (t : Type_) : string :=
  match t with
  | List elementType => "[" +:+ typeNotation elementType +:+ "]"
  | NonNull innerType => typeNotation innerType +:+ "!"
  | _ => TypeName t
  end.

Definition noSuggestions (input : string) (options : list string) : list string := [].
Definition noRendering (v : Value) : string := "".

Abbreviation coerceWith :=
  (coerceValueImpl typeNotation noRendering noRendering noSuggestions).

Definition plainError (text : string) : error :=
  ForeignError (mkForeign text None None None).

(** The built-in Int scalar, restricted to what the examples need. *)
Definition IntCoercer : Coercer := fun v =>
  match v with
  | VInt n => inr (VInt n)
  | _ => inl (plainError "not an integer")
  end.
Definition Int : Type_ := Scalar "Int" IntCoercer IntCoercer.

Definition StringCoercer : Coercer := fun v =>
  match v with
  | VString s => inr (VString s)
  | _ => inl (plainError "not a string")
  end.
Definition String_ : Type_ := Scalar "String" StringCoercer StringCoercer.

(** A custom scalar whose input form is the text "on"/"off" and whose
    internal form is a boolean. *)
Definition SwitchInput : Coercer := fun v =>
  match v with
  | VString "on" => inr (VBool true)
  | VString "off" => inr (VBool false)
  | _ => inl (plainError "expected on or off")
  end.
Definition SwitchResult : Coercer := fun v =>
  match v with
  | VBool true => inr (VString "on")
  | VBool false => inr (VString "off")
  | _ => inl (plainError "expected a boolean")
  end.
Definition Switch : Type_ := Scalar "Switch" SwitchInput SwitchResult.

Definition Settings : Type_ :=
  InputObject "Settings" [("power", mkInputField Switch (Some (VBool true)))].

Definition Page : Type_ :=
  InputObject "Page"
    [("limit", mkInputField Int (Some (VInt 10)));
     ("tag", mkInputField String_ None)].

(** A reading of the directives of a selection for the examples: the
    literal arguments of the directive of the given name. *)
Definition literalArguments (arguments : list (string * ast.ArgumentValue))
    (variables : list (string * Value)) : list (string * Value) :=
  map (fun '(name, a) =>
         (name, match a with
                | ast.Literal v => v
                | ast.VariableRef x => default VNil (lookupKey x variables)
                end))
      arguments.

Definition directiveName_ (def : DirectiveDef) : string :=
  match def with SkipDirective => "skip" | IncludeDirective => "include" end.

Definition sampleDirectiveValues (def : DirectiveDef) (directives : list ast.Directive)
    (variables : list (string * Value)) : error + list (string * Value) :=
  match List.find (fun d => String.eqb (ast.directiveName d) (directiveName_ def))
                  directives with
  | Some d => inr (literalArguments (ast.directiveArguments d) variables)
  | None => inr []
  end.

Definition sampleArgumentValues (fieldDef : types.Field) (selection : ast.Field)
    (variables : list (string * Value)) : error + list (string * Value) :=
  inr (literalArguments (ast.Arguments selection) variables).

Definition emptySchema : Schema := mkSchema (fun _ => None) (fun _ => []).

Definition sampleContext (selectionSet : list ast.Selection) (rootType : ObjectType)
  : ExecutionContext :=
  mkExecutionContext selectionSet emptySchema ∅ rootType [] VNil
                     (fun _ _ => inr VNil).

Definition leaf (alias : option string) (name : string)
    (directives : list ast.Directive) (line : nat) : ast.Field :=
  ast.mkField alias name [] directives [] (Build_ErrorLocation line 1).

Definition skipIf (b : bool) : ast.Directive :=
  ast.mkDirective "skip" [("if", ast.Literal (VBool b))].
Definition includeIf (b : bool) : ast.Directive :=
  ast.mkDirective "include" [("if", ast.Literal (VBool b))].

Definition rootNode : ExecutionNode := mkExecutionNode None [] None [] None.

Abbreviation sampleBuild :=
  (buildChildExecutionNodesForSelectionSet sampleDirectiveValues sampleArgumentValues).

Definition QueryAB : ObjectType :=
  mkObjectType "Query"
    [("a", types.mkField "a" (types.NonNull Int) [] None);
     ("b", types.mkField "b" String_ [] None)].

Definition sampleABA : ExecutionContext :=
  sampleContext [ast.FieldSelection (leaf None "a" [] 1);
                 ast.FieldSelection (leaf None "b" [] 2);
                 ast.FieldSelection (leaf None "a" [] 3)] QueryAB.

Definition rootOnly : State :=
  mkState [mkExecutionNode None [] None [] None] [] [] [] [].

(** The response key of an execution node: that of its definitions. *)
Definition responseKeyOf (n : ExecutionNode) : string :=
  match Definitions n with
  | f :: _ => ast.ResponseKey f
  | [] => ""
  end.

(** The position of [x] in [l]. *)
Fixpoint indexOf (x : nat) (l : list nat) : nat :=
  match l with
  | [] => 0
  | y :: rest => if decide (x = y) then 0 else S (indexOf x rest)
  end.

(** The key of the result node [r] in its parent [p]: a list index, or the
    response key of the execution node of the field. *)
Definition keyIn (st : State) (p r : resultptr) : PathKey :=
  match resultValue <$> results st !! p with
  | Some (ListValue elements) => KeyIndex (Z.of_nat (indexOf r elements))
  | Some (ObjectValue executionNodes fieldValues) =>
      KeyName
        (default ""
           (node ← sliceElements st executionNodes !! indexOf r fieldValues;
            responseKeyOf <$> nodes st !! node))
  | _ => KeyName ""
  end.

(** The response path of a result node, walking result, parent, ..., root
    and reversing. *)
Fixpoint pathKeys (depth : nat) (st : State) (r : resultptr) : list PathKey :=
  match depth with
  | O => []
  | S depth =>
      match results st !! r with
      | Some node =>
          match resultParent node with
          | Some p => pathKeys depth st p ++ [keyIn st p r]
          | None => []
          end
      | None => []
      end
  end.

Definition samplePath (st : State) (result : resultptr) : ResponsePath :=
  Build_ResponsePath (pathKeys (length (results st)) st result).

Definition sampleResultCoercionError (typeName : string) (v : Value) (err : error)
  : error :=
  NewError ("Expected a value of type " +:+ typeName) [ArgError err; ArgErrKind ErrKindCoercion].

Abbreviation sampleRun :=
  (Run sampleDirectiveValues sampleArgumentValues
       typeNotation (fun _ _ => "Query") samplePath
       sampleResultCoercionError).
Abbreviation sampleRoot :=
  (collectAndDispatchRootTasks sampleDirectiveValues
     sampleArgumentValues).
Abbreviation sampleComplete :=
  (completeValue sampleDirectiveValues sampleArgumentValues
     typeNotation (fun _ _ => "Query") samplePath
     sampleResultCoercionError).

Definition emptyState : State := mkState [] [] [] [] [].

(** [type Query { field: T }] with a resolver that returns [value], and the
    query [{ field }]. *)
Definition oneFieldQuery (T : types.Type_) (value : Value) : ExecutionContext :=
  sampleContext
    [ast.FieldSelection (leaf None "field" [] 1)]
    (mkObjectType "Query"
       [("field", types.mkField "field" T [] (Some (fun _ _ => inr value)))]).

(** The serial executor: tasks are run one at a time from the queue in FIFO
    order. *)
Fixpoint runTasks (steps fuel : nat) (ctx : ExecutionContext) (st : State)
  : Outcome State :=
  match steps with
  | O => OutOfFuel
  | S steps =>
      match queue st with
      | [] => Done st
      | task :: rest =>
          match sampleRun fuel ctx task
                  (mkState (nodes st) (arrays st) (results st) rest (errs st)) with
          | Done st => runTasks steps fuel ctx st
          | Panic msg => Panic msg
          | OutOfFuel => OutOfFuel
          end
      end
  end.

(** Collect the root fields, then run the first task of the queue. *)
Definition runFirstField (fuel : nat) (ctx : ExecutionContext) : Outcome State :=
  match sampleRoot fuel ctx emptyState with
  | Done (inr _, st) =>
      match queue st with
      | task :: _ => sampleRun fuel ctx task st
      | [] => Done st
      end
  | Done (inl _, st) => Done st
  | Panic msg => Panic msg
  | OutOfFuel => OutOfFuel
  end.

(** Collect the root fields and run every task. *)
Definition execute (fuel : nat) (ctx : ExecutionContext) : Outcome State :=
  match sampleRoot fuel ctx emptyState with
  | Done (_, st) => runTasks fuel fuel ctx st
  | Panic msg => Panic msg
  | OutOfFuel => OutOfFuel
  end.

(** The response data below a result node. *)
Fixpoint dataOf (depth : nat) (st : State) (r : resultptr) : Value :=
  match depth with
  | O => VNil
  | S depth =>
      match resultValue <$> results st !! r with
      | Some (LeafValue v) => v
      | Some (ListValue elements) => VSlice (map (dataOf depth st) elements)
      | Some (ObjectValue executionNodes fieldValues) =>
          VMap (zip_with
                  (fun node fieldValue =>
                     (default "" (responseKeyOf <$> nodes st !! node),
                      dataOf depth st fieldValue))
                  (sliceElements st executionNodes) fieldValues)
      | _ => VNil
      end
  end.

(** The response of a run: the data below the root result node, and the
    message and path of every error. *)
Definition responseOf (o : Outcome State)
  : option (Value * list (string * list PathKey)) :=
  match o with
  | Done st =>
      Some (dataOf (length (results st)) st 0,
            map (fun e => (Message e, default [] (keys <$> Path e))) (errs st))
  | _ => None
  end.

(** The schema of the spec's scenarios:
    [type Query { a: Int!, b: String, list: [Int!]!, obj: Obj }] and
    [type Obj { x: Int, y: Int! }], each field resolved by reading the
    property of its name from the source. *)
Definition property (name : string) : Value -> list (string * Value) -> error + Value :=
  fun source _ =>
    match source with
    | VMap entries => inr (default VNil (lookupKey name entries))
    | _ => inr VNil
    end.

Definition resolved (name : string) (T : Type_) : string * types.Field :=
  (name, types.mkField name T [] (Some (property name))).

Definition Obj : Type_ :=
  Object "Obj" [resolved "x" Int; resolved "y" (NonNull Int)].

Definition ScenarioQuery : ObjectType :=
  mkObjectType "Query"
    [resolved "a" (NonNull Int); resolved "b" String_;
     resolved "list" (NonNull (List (NonNull Int))); resolved "obj" Obj].

Definition scenario (selectionSet : list ast.Selection) (rootValue : Value)
  : ExecutionContext :=
  mkExecutionContext selectionSet emptySchema ∅ ScenarioQuery [] rootValue
                     (fun _ _ => inr VNil).

Definition selecting (name : string) (line : nat) (selectionSet : list ast.Selection)
  : ast.Selection :=
  ast.FieldSelection
    (ast.mkField None name [] [] selectionSet (Build_ErrorLocation line 1)).

Definition resultsOf (o : Outcome State) : list ResultNode :=
  match o with Done st => results st | _ => [] end.

(** The state of [completeWrappingValue] when it enters the element loop
    for the field [field: [Int]!] resolved to a three-element list: node 0
    is the root object, node 1 the list, nodes 2 to 4 its elements. *)
Definition elementLoopStart : State :=
  mkState
    [mkExecutionNode None [] None [] None;
     mkExecutionNode (Some 0) [leaf None "field" [] 1]
       (Some (types.mkField "field" (types.NonNull (types.List Int))
                            [] None))
       [] None]
    [[1]]
    [mkResultNode None ResultKindObject (ObjectValue (SliceAt 0) [1]) false;
     mkResultNode (Some 0) ResultKindList (ListValue [2; 3; 4]) true;
     mkResultNode None ResultKindUnresolved NoValue true;
     mkResultNode None ResultKindUnresolved NoValue true;
     mkResultNode None ResultKindUnresolved NoValue true]
    [] [].

Abbreviation sampleCompleteNonWrapping :=
  (completeNonWrappingValue sampleDirectiveValues
     sampleArgumentValues typeNotation samplePath
     sampleResultCoercionError).
Abbreviation sampleElementsLoop :=
  (completeElements sampleDirectiveValues
     sampleArgumentValues typeNotation samplePath
     sampleResultCoercionError).

Definition sampleTask : ExecuteNodeTask := mkExecuteNodeTask 1 1 VNil.
Definition sampleListContext : ExecutionContext :=
  oneFieldQuery (types.NonNull (types.List Int))
                (VSlice [VInt 1; VString "x"; VInt 3]).

End samples.

(* ===================================================================== *)
(** ** package graphql: response paths as text (error.go) *)
(* ===================================================================== *)

Module response_path.
Import graphql.

(** The loop of [func (path *ResponsePath) String() string] over the keys;
    [b] is what the builder holds.  A field name is preceded by a dot unless
    the builder is empty; an index is written between brackets, in base 10. *)
Fixpoint writeKeys (keys : list PathKey) (b : string) : string :=
  match keys with
  | [] => b
  | KeyName key :: rest =>
      writeKeys rest ((if decide (0 < String.length b) then b +:+ "." else b) +:+ key)
  | KeyIndex key :: rest =>
      writeKeys rest (b +:+ "[" +:+ pretty key +:+ "]")
  end.

Definition ResponsePath_String (path : ResponsePath) : string :=
  writeKeys (keys path) "".

End response_path.

(* ===================================================================== *)
(** ** Vocabulary of the further statements *)
(* ===================================================================== *)

Module orlist_spec.

(** The items between the first and the last, each after a comma. *)
Definition commaItems (quoted : bool) (items : list string) : string :=
  foldr (fun item s => ", " +:+ util.writeItem quoted item +:+ s) "" items.

(** The text for the items that are written: one item stands alone, two are
    joined by " or ", three or more are separated by commas, with ", or "
    before the last. *)
Definition orText (quoted : bool) (items : list string) : string :=
  match items with
  | [] => ""
  | [a] => util.writeItem quoted a
  | [a; b] => util.writeItem quoted a +:+ " or " +:+ util.writeItem quoted b
  | a :: rest =>
      util.writeItem quoted a +:+ commaItems quoted (removelast rest)
      +:+ ", or " +:+ util.writeItem quoted (List.last rest "")
  end.

End orlist_spec.

Module inheritance_spec.
Import graphql.

(** What the caller gave for each field of the error: the last argument of
    the field's type, and the zero value when there is none. *)
Definition locationArgs (args : list Arg) : list (list ErrorLocation) :=
  omap (fun a => match a with
                 | ArgErrorLocation l => Some [l]
                 | ArgErrorLocations ls => Some ls
                 | _ => None
                 end) args.
Definition pathArgs (args : list Arg) : list (option ResponsePath) :=
  omap (fun a => match a with ArgResponsePath p => Some p | _ => None end) args.
Definition extensionsArgs (args : list Arg) : list ErrorExtensions :=
  omap (fun a => match a with ArgErrorExtensions x => Some x | _ => None end) args.
Definition errArgs (args : list Arg) : list (option error) :=
  omap (fun a => match a with ArgError err => Some (Some err) | _ => None end) args.
Definition opArgs (args : list Arg) : list string :=
  omap (fun a => match a with ArgOp op => Some op | _ => None end) args.

Definition givenLocations (args : list Arg) : list ErrorLocation :=
  List.last (locationArgs args) [].
Definition givenPath (args : list Arg) : option ResponsePath :=
  List.last (pathArgs args) None.
Definition givenExtensions (args : list Arg) : ErrorExtensions :=
  List.last (extensionsArgs args) None.
Definition givenErr (args : list Arg) : option error :=
  List.last (errArgs args) None.
Definition givenOp (args : list Arg) : string :=
  List.last (opArgs args) "".

(** [WrapError] applied once per message, innermost first. *)
Definition wrapAll (err : error) (messages : list string) : error :=
  fold_left WrapError messages err.

End inheritance_spec.

Module element_spec.
Import graphql types value.

Section Elements.

Variable typeString : Type_ -> string.
Variable valueString : Value -> string.
Variable valueTypeString : Value -> string.
Variable SuggestionList : string -> list string -> list string.

(** What coercion gives for each element of a list, the element at
    position [k] being coerced under the path extended with the index
    [i + k]. *)
Fixpoint elementResults (elementType : Type_) (blameNode : option ErrorLocation)
    (path : valuePath) (i : Z) (elems : list Value) : list (Value * Errors) :=
  match elems with
  | [] => []
  | elem :: rest =>
      coerceValueImpl typeString valueString valueTypeString SuggestionList
        elem elementType blameNode (NewListIndex path i)
      :: elementResults elementType blameNode path (i + 1)%Z rest
  end.

End Elements.

End element_spec.

Module collected_spec.
Import graphql executor.

Section Collected.

Variable ArgumentValuesOf :
  types.Field -> ast.Field -> list (string * Value) -> error + list (string * Value).

(** What the collector builds for a response key: a child of the parent
    node, with no children of its own yet, whose field definition is the
    one the runtime type has for the name of its first definition, and whose
    argument values are those of that first definition. *)
Definition collectedFrom (ctx : ExecutionContext) (parentNode : nodeptr)
    (runtimeType : ObjectType) (n : ExecutionNode) : Prop :=
  Parent n = Some parentNode /\ Children n = None /\
  exists first fieldDef,
    head (Definitions n) = Some first /\
    Field n = Some fieldDef /\
    findFieldDef (OperationSchema ctx) runtimeType (ast.Name first) = Some fieldDef /\
    ArgumentValuesOf fieldDef first (VariableValues ctx) = inr (ArgumentValues n).

End Collected.

(** The node at [node] is the same in both states but for its children. *)
Definition sameButChildren (st st' : State) (node : nodeptr) : Prop :=
  exists n n',
    nodes st !! node = Some n /\ nodes st' !! node = Some n' /\
    Parent n' = Parent n /\ Definitions n' = Definitions n /\
    Field n' = Field n /\ ArgumentValues n' = ArgumentValues n.

End collected_spec.

Module dispatch_spec.
Import graphql executor.

(** The child nodes all exist and have a field definition. *)
Definition dispatchable (st : State) (pointers : list nodeptr) : Prop :=
  Forall (fun c => exists n field, nodes st !! c = Some n /\ Field n = Some field) pointers.

(** The tasks created for the child nodes [pointers], the result node of the
    i-th being the i-th node allocated after [base]. *)
Definition tasksFor (pointers : list nodeptr) (base : nat) (value : Value)
  : list ExecuteNodeTask :=
  zip_with (fun c r => mkExecuteNodeTask c r value) pointers (seq base (length pointers)).

(** The non-null flag that the type of the field of node [c] asks for. *)
Definition fieldIsNonNull (st : State) (c : nodeptr) : bool :=
  match nodes st !! c with
  | Some n =>
      match Field n with
      | Some field => types.IsNonNullType (types.fType field)
      | None => false
      end
  | None => false
  end.

(** A run only adds: the errors, the queue and the arrays are extended at
    the end, and no node or result node is freed. *)
Definition grows (st st' : State) : Prop :=
  errs st `prefix_of` errs st' /\ queue st `prefix_of` queue st' /\
  arrays st `prefix_of` arrays st' /\
  length (nodes st) <= length (nodes st') /\
  length (results st) <= length (results st').

End dispatch_spec.

Module samples_dispatch.
Import graphql executor samples.

(** The state after the root fields of [{ a b }] were collected under
    [QueryAB] and the root result node was allocated. *)
Definition collectedAB : State :=
  mkState
    [mkExecutionNode None [] None [] (Some {["Query" := SliceAt 0]});
     mkExecutionNode (Some 0) [leaf None "a" [] 1]
       (Some (types.mkField "a" (types.NonNull Int) [] None)) [] None;
     mkExecutionNode (Some 0) [leaf None "b" [] 2]
       (Some (types.mkField "b" String_ [] None)) [] None]
    [[1; 2]]
    [zeroResultNode]
    [] [].

(** The same state after the tasks of the two fields were dispatched. *)
Definition dispatchedAB : State :=
  mkState (nodes collectedAB) (arrays collectedAB)
    [mkResultNode None ResultKindObject (ObjectValue (SliceAt 0) [1; 2]) false;
     mkResultNode (Some 0) ResultKindUnresolved NoValue true;
     mkResultNode (Some 0) ResultKindUnresolved NoValue false]
    [mkExecuteNodeTask 1 1 VNil; mkExecuteNodeTask 2 2 VNil] [].

End samples_dispatch.

Module completion_vocab.
Import graphql executor.

(** [CoerceResultValue] of a leaf type (a scalar or an enum). *)
Definition resultCoercer (t : types.Type_) : option types.Coercer :=
  match t with
  | types.Scalar _ _ coerceResultValue | types.Enum _ _ _ coerceResultValue =>
      Some coerceResultValue
  | _ => None
  end.

(** The error that [handleNodeError] records for [err]: a core error keeps
    all it holds but the locations and the path; any other error gives a
    new error that holds its text, the locations and the path. *)
Definition recorded (err : error) (locations : list ErrorLocation) (path : ResponsePath)
  : Error :=
  match err with
  | CoreError c =>
      mkError (Message c) locations (Some path) (Extensions c) (Err c) (Op c) (Kind c)
  | ForeignError f =>
      mkError (foreignText f) locations (Some path) None None "" ErrKindOther
  end.

End completion_vocab.

(* ===================================================================== *)
(** ** Properties of the error constructor *)
(* ===================================================================== *)

Module error_facts.
Import graphql error_spec.

Lemma last_cons_default (k d : ErrKind) ks :
  List.last (k :: ks) d = List.last ks k.
Proof.
  revert k d. induction ks as [|k' ks IH]; intros k d; [reflexivity|].
  change (List.last (k' :: ks) d = List.last (k' :: ks) k).
  by rewrite (IH k' d), (IH k' k).
Qed.

Lemma applyArgs_Kind args : forall e e',
  applyArgs e args = inl e' -> Kind e' = List.last (kindArgs args) (Kind e).
Proof.
  induction args as [|a args IH]; intros e e' H.
  - simpl in H. inversion H. reflexivity.
  - destruct a; simpl in H; try discriminate; rewrite (IH _ _ H);
      try reflexivity.
    change (kindArgs (ArgErrKind k :: args)) with (k :: kindArgs args).
    by rewrite last_cons_default.
Qed.

Lemma propagate_Err e : Err (propagate e) = Err e.
Proof.
  unfold propagate. destruct (Err e) as [prev|] eqn:E; [|done].
  unfold propagateKind, propagateExtensions, propagatePath, propagateLocations.
  repeat (case_decide || case_match); simpl; congruence.
Qed.

Lemma propagate_Kind e prev :
  Err e = Some prev ->
  Kind (propagate e) =
    if decide (Kind e = ErrKindOther)
    then match prev with CoreError p => Kind p | ForeignError _ => Kind e end
    else Kind e.
Proof.
  intros E. unfold propagate. rewrite E.
  unfold propagateKind, propagateExtensions, propagatePath, propagateLocations.
  repeat (case_decide || case_match); simpl in *; congruence.
Qed.

Lemma applyArgs_prefix pre : forall e goType repr post,
  Forall recognised pre ->
  applyArgs e (pre ++ ArgOther goType repr :: post) = inr (goType, repr).
Proof.
  induction pre as [|a pre IH]; intros e goType repr post Hpre; simpl.
  - reflexivity.
  - inversion Hpre as [|? ? Ha Hrest]; subst.
    destruct a; simpl in Ha; try contradiction; apply IH; assumption.
Qed.

Lemma first_unrecognised (args : list Arg) goType repr :
  ArgOther goType repr ∈ args ->
  exists pre ty v post,
    args = pre ++ ArgOther ty v :: post /\ Forall recognised pre.
Proof.
  induction args as [|a args IH]; intros Hin.
  - by apply elem_of_nil in Hin.
  - destruct a as [l|ls|p|x|err|op|k|ty v].
    8: { exists [], ty, v, args. split; [reflexivity|constructor]. }
    all: apply elem_of_cons in Hin as [Heq|Hin]; [discriminate|].
    all: destruct (IH Hin) as (pre & ty & v & post & -> & Hpre).
    all: eexists (_ :: pre), ty, v, post; split; [reflexivity|].
    all: constructor; [exact I|assumption].
Qed.

Lemma applyArgs_recognised args : forall e,
  Forall recognised args -> exists e', applyArgs e args = inl e'.
Proof.
  induction args as [|a args IH]; intros e Hall; [by eexists|].
  inversion Hall as [|? ? Ha Hrest]; subst.
  destruct a; simpl in *; try contradiction; by apply IH.
Qed.

(** With arguments of recognised types only, [NewError] returns a core
    error. *)
Lemma NewError_recognised message args :
  Forall recognised args -> exists e, NewError message args = CoreError e.
Proof.
  intros Hall. unfold NewError.
  destruct (applyArgs_recognised args (mkError message [] None None None "" ErrKindOther)
              Hall) as [e' ->].
  by eexists.
Qed.

(** C8. Kind propagation in [NewError]: when the constructed Error has an
    underlying cause that is itself a core Error, an unspecified kind
    (Other) is replaced by the cause's kind, and a kind other than Other
    given as an argument is kept whatever the cause's kind is. *)
Theorem NewError_kind_propagation (message : string) (args : list Arg) (e c : Error) :
  NewError message args = CoreError e ->
  Err e = Some (CoreError c) ->
  (givenKind args = ErrKindOther -> Kind e = Kind c) /\
  (givenKind args <> ErrKindOther -> Kind e = givenKind args).
Proof.
  unfold NewError. intros HN HErr.
  destruct (applyArgs _ args) as [e0|[ty v]] eqn:Happ; [|discriminate].
  inversion HN; subst e; clear HN.
  pose proof (applyArgs_Kind _ _ _ Happ) as HK. simpl in HK.
  fold (givenKind args) in HK.
  rewrite propagate_Err in HErr.
  rewrite (propagate_Kind _ _ HErr), HK.
  split; intros Hg; case_decide; congruence.
Qed.

Lemma NewError_kind_propagation_witness :
  let cause := mkError "inner" [] None None None "" ErrKindSyntax in
  let inherited := mkError "outer" [] None None (Some (CoreError cause)) "" ErrKindSyntax in
  (givenKind [ArgError (CoreError cause)] = ErrKindOther -> Kind inherited = Kind cause) /\
  (givenKind [ArgError (CoreError cause)] <> ErrKindOther ->
   Kind inherited = givenKind [ArgError (CoreError cause)]).
Proof.
  intros cause inherited.
  apply (NewError_kind_propagation "outer" [ArgError (CoreError cause)] inherited cause);
    reflexivity.
Defined.

(** C10. A call of [NewError] whose arguments contain a value of none of
    the recognised types returns the plain formatted error that reports
    the first such value's type and value, not a core Error. *)
Theorem NewError_unknown_argument (message : string) (args : list Arg)
    (goType repr : string) :
  ArgOther goType repr ∈ args ->
  exists pre ty v post,
    args = pre ++ ArgOther ty v :: post /\ Forall recognised pre /\
    NewError message args =
      ForeignError
        (mkForeign ("unknown type " +:+ ty +:+ ", value " +:+ v +:+ " in error call")
                   None None None) /\
    forall e, NewError message args <> CoreError e.
Proof.
  intros Hin.
  destruct (first_unrecognised _ _ _ Hin) as (pre & ty & v & post & -> & Hpre).
  exists pre, ty, v, post.
  assert (HN : NewError message (pre ++ ArgOther ty v :: post) = unknownTypeError ty v).
  { unfold NewError. by rewrite applyArgs_prefix. }
  repeat split; [assumption|exact HN|].
  intros e. rewrite HN. discriminate.
Qed.

Lemma NewError_unknown_argument_witness :
  exists pre ty v post,
    [ArgOp "parse"; ArgOther "int" "42"; ArgErrKind ErrKindSyntax]
      = pre ++ ArgOther ty v :: post /\ Forall recognised pre /\
    NewError "bad" [ArgOp "parse"; ArgOther "int" "42"; ArgErrKind ErrKindSyntax] =
      ForeignError
        (mkForeign ("unknown type " +:+ ty +:+ ", value " +:+ v +:+ " in error call")
                   None None None) /\
    forall e,
      NewError "bad" [ArgOp "parse"; ArgOther "int" "42"; ArgErrKind ErrKindSyntax]
      <> CoreError e.
Proof.
  apply (NewError_unknown_argument "bad"
           [ArgOp "parse"; ArgOther "int" "42"; ArgErrKind ErrKindSyntax] "int" "42").
  apply elem_of_cons; right. apply elem_of_cons; left. reflexivity.
Defined.

End error_facts.

(* ===================================================================== *)
(** ** Properties of input coercion *)
(* ===================================================================== *)

Module coercion_facts.
Import graphql types value coercion_spec samples.

Lemma lookupKey_None {A} (name : string) (entries : list (string * A)) :
  lookupKey name entries = None <-> name ∉ map fst entries.
Proof.
  induction entries as [|[k v] rest IH]; simpl.
  - split; [intros _ H; by apply elem_of_nil in H|done].
  - destruct (String.eqb_spec k name) as [->|Hne].
    + split; [discriminate|]. intros H. exfalso. apply H. by left.
    + rewrite IH. split.
      * intros Hn Hin. apply elem_of_cons in Hin as [->|Hin]; [by apply Hne|by apply Hn].
      * intros Hn Hin. apply Hn. by right.
Qed.

Lemma lookupKey_cons_ne {A} (name k : string) (v : A) (rest : list (string * A)) :
  name <> k -> lookupKey name ((k, v) :: rest) = lookupKey name rest.
Proof.
  intros Hne. cbn [lookupKey]. by destruct (String.eqb_spec k name) as [->|_].
Qed.

Lemma lookupKey_elem_of {A} (name : string) (x : A) (entries : list (string * A)) :
  NoDup (map fst entries) -> (name, x) ∈ entries -> lookupKey name entries = Some x.
Proof.
  induction entries as [|[k v] rest IH]; simpl; intros Hnd Hin.
  - by apply elem_of_nil in Hin.
  - apply NoDup_cons in Hnd as [Hk Hnd].
    apply elem_of_cons in Hin as [Heq|Hin].
    + inversion Heq; subst. by rewrite String.eqb_refl.
    + destruct (String.eqb_spec k name) as [->|Hne]; [|by apply IH].
      exfalso. apply Hk. apply list_elem_of_In, in_map_iff.
      exists (name, x). split; [done|by apply list_elem_of_In].
Qed.

Lemma propagate_Message e : Message (propagate e) = Message e.
Proof.
  unfold propagate. destruct (Err e) as [prev|]; [|done].
  unfold propagateKind, propagateExtensions, propagatePath, propagateLocations.
  repeat (case_decide || case_match); simpl; congruence.
Qed.

Lemma newCoercionError_Message message blameNode path subMessage originalError :
  Message (newCoercionError message blameNode path subMessage originalError) =
    let m := if Empty path then message
             else message +:+ " at " +:+ valuePath_String path in
    if decide (0 < String.length subMessage) then m +:+ "; " +:+ subMessage
    else m +:+ ".".
Proof.
  unfold newCoercionError.
  destruct originalError; unfold NewError; cbn -[propagate]; by rewrite propagate_Message.
Qed.

Section Facts.

Variable typeString : Type_ -> string.
Variable valueString : Value -> string.
Variable valueTypeString : Value -> string.
Variable SuggestionList : string -> list string -> list string.

Local Abbreviation coerce :=
  (coerceValueImpl typeString valueString valueTypeString SuggestionList).
Local Abbreviation fieldsLoop :=
  (coercion_spec.fieldsLoop typeString valueString valueTypeString SuggestionList).

Lemma coerce_NonNull value innerType blameNode path :
  coerce value (NonNull innerType) blameNode path =
    match value with
    | VNil =>
        (VNil, [newCoercionError
                  ("Expected non-nullable type " +:+ typeString (NonNull innerType)
                   +:+ " not to be null")
                  blameNode path "" None])
    | _ => coerce value innerType blameNode path
    end.
Proof. reflexivity. Qed.

(** C6 (as amended). Coercing null against a declared type: when the type
    is non-null the result is a one-element error list whose error reads
    "Expected non-nullable type <the declared non-null type itself, as fmt
    prints it> not to be null" (followed by the position, if any, and a full
    stop); when the type is nullable the result is null with an empty error
    list.  A value that is not null is coerced against NonNull(T) as it is
    against T. *)
Theorem coerce_null (t : Type_) (blameNode : option ErrorLocation) (path : valuePath) :
  (IsNonNullType t = true ->
   exists e,
     coerce VNil t blameNode path = (VNil, [e]) /\
     Message e =
       (if Empty path
        then "Expected non-nullable type " +:+ typeString t +:+ " not to be null"
        else ("Expected non-nullable type " +:+ typeString t +:+ " not to be null")
             +:+ " at " +:+ valuePath_String path)
       +:+ ".") /\
  (IsNonNullType t = false -> coerce VNil t blameNode path = (VNil, [])) /\
  (forall value, value <> VNil ->
     coerce value (NonNull t) blameNode path = coerce value t blameNode path).
Proof.
  split; [|split].
  - intros Ht. destruct t; try discriminate.
    eexists. split; [reflexivity|]. by rewrite newCoercionError_Message.
  - intros Ht. destruct t; try reflexivity. discriminate.
  - intros value Hv. rewrite coerce_NonNull. by destruct value.
Qed.

Lemma coerce_InputObject objectValue name fields blameNode path :
  coerce (VMap objectValue) (InputObject name fields) blameNode path =
    let '(coercedValue, errs) := fieldsLoop objectValue blameNode path fields ([], []) in
    let errs := checkProvided typeString SuggestionList (InputObject name fields)
                  fields blameNode path (map fst objectValue) errs in
    if decide (0 < length errs) then (VNil, errs) else (VMap coercedValue, []).
Proof. reflexivity. Qed.

Lemma checkProvided_nil t fields blameNode path provided : forall errs,
  checkProvided typeString SuggestionList t fields blameNode path provided errs = []
  <-> errs = [] /\ Forall (fun k => lookupKey k fields <> None) provided.
Proof.
  induction provided as [|k rest IH]; intros errs; simpl.
  - split; [intros ->; by split|by intros [-> _]].
  - destruct (lookupKey k fields) as [fld|] eqn:Hk.
    + rewrite IH. split; intros [He Hf]; (split; [done|]).
      * constructor; [by rewrite Hk|done].
      * by inversion Hf.
    + rewrite IH. split.
      * intros [He _]. by destruct errs.
      * intros [_ Hf]. inversion Hf; subst. congruence.
Qed.

Section Default.

Variables (with_ without : list (string * Value)).
Variables (F : string) (field : InputField) (d : Value).
Variables (blameNode : option ErrorLocation) (path : valuePath).
Hypothesis Hdefault : ifDefault field = Some d.
Hypothesis Hwith : lookupKey F with_ = Some d.
Hypothesis Hwithout : lookupKey F without = None.
Hypothesis Hother : forall k, k <> F -> lookupKey k with_ = lookupKey k without.
Hypothesis Hfixed :
  coerce d (ifType field) blameNode (NewObjectField path F) = (d, []).

Lemma fieldStep_agree name fld acc1 acc2 :
  (name = F -> fld = field) ->
  agree acc1 acc2 ->
  agree
    (fieldStep typeString name fld with_ blameNode path
       (fun v => coerce v (ifType fld) blameNode (NewObjectField path name)) acc1)
    (fieldStep typeString name fld without blameNode path
       (fun v => coerce v (ifType fld) blameNode (NewObjectField path name)) acc2).
Proof using Hdefault Hwith Hwithout Hother Hfixed.
  intros HF. destruct acc1 as [c1 e1], acc2 as [c2 e2].
  intros [He Hc]; simpl in He, Hc; subst e2.
  assert (Happ : forall x : Error, e1 ++ [x] = [] -> False) by (intros x; by destruct e1).
  unfold fieldStep. destruct (decide (name = F)) as [->|Hne].
  - rewrite (HF eq_refl), Hwith, Hwithout, Hdefault, Hfixed. simpl.
    case_decide as Hl; (split; simpl; [reflexivity|]); intros E.
    + by rewrite (Hc E).
    + subst e1. by simpl in Hl.
  - rewrite (Hother _ Hne).
    destruct (lookupKey name without) as [fieldValue|].
    + destruct (coerce fieldValue _ _ _) as [coercedField fieldErrs].
      repeat case_decide; (split; simpl; [reflexivity|]); intros E.
      * apply app_eq_nil in E as [_ ->]. simpl in *. lia.
      * by rewrite (Hc E).
      * subst e1. by simpl in *.
    + destruct (ifDefault fld); [|destruct (IsNonNullType _)];
        (split; simpl; [reflexivity|]); intros E.
      * by rewrite (Hc E).
      * by apply Happ in E.
      * by apply Hc.
Qed.

Lemma fieldsLoop_agree fields : forall acc1 acc2,
  (forall fld, (F, fld) ∈ fields -> fld = field) ->
  agree acc1 acc2 ->
  agree (fieldsLoop with_ blameNode path fields acc1)
        (fieldsLoop without blameNode path fields acc2).
Proof using Hdefault Hwith Hwithout Hother Hfixed.
  induction fields as [|[name fld] rest IH]; intros acc1 acc2 HF Hacc; [done|].
  unfold fieldsLoop; simpl. apply IH.
  - intros f Hin. apply HF. by right.
  - apply fieldStep_agree; [|done]. intros ->. apply HF. by left.
Qed.

Lemma provided_defined (fields : list (string * InputField)) :
  lookupKey F fields <> None ->
  Forall (fun k => lookupKey k fields <> None) (map fst with_) <->
  Forall (fun k => lookupKey k fields <> None) (map fst without).
Proof using Hwith Hwithout Hother.
  intros HF. rewrite !Forall_forall. split; intros H k Hin.
  - destruct (decide (k = F)) as [->|Hne].
    + exfalso. by apply (lookupKey_None F without).
    + apply H. apply dec_stable. rewrite <- lookupKey_None, (Hother _ Hne), lookupKey_None.
      tauto.
  - destruct (decide (k = F)) as [->|Hne]; [done|].
    apply H. apply dec_stable. rewrite <- lookupKey_None, <- (Hother _ Hne), lookupKey_None.
    tauto.
Qed.

End Default.

(** C7 (as amended). For an input object type with a field F whose default
    value d is left unchanged by coercion against F's type, a map that
    supplies F with d coerces successfully exactly when the same map with F
    omitted does, and then to the same value (with the same empty error
    list). *)
Theorem default_field_indistinguishable
    (name : string) (fields : list (string * InputField))
    (F : string) (field : InputField) (d : Value)
    (with_ without : list (string * Value))
    (blameNode : option ErrorLocation) (path : valuePath) (result : Value) :
  NoDup (map fst fields) ->
  (F, field) ∈ fields ->
  ifDefault field = Some d ->
  lookupKey F with_ = Some d ->
  lookupKey F without = None ->
  (forall k, k <> F -> lookupKey k with_ = lookupKey k without) ->
  coerce d (ifType field) blameNode (NewObjectField path F) = (d, []) ->
  coerce (VMap with_) (InputObject name fields) blameNode path = (result, [])
  <-> coerce (VMap without) (InputObject name fields) blameNode path = (result, []).
Proof.
  intros Hnd Hin Hdefault Hwith Hwithout Hother Hfixed.
  assert (HF : forall fld, (F, fld) ∈ fields -> fld = field).
  { intros fld Hfld.
    pose proof (lookupKey_elem_of _ _ _ Hnd Hin) as H1.
    pose proof (lookupKey_elem_of _ _ _ Hnd Hfld) as H2. congruence. }
  assert (Hdef : lookupKey F fields <> None).
  { by rewrite (lookupKey_elem_of _ _ _ Hnd Hin). }
  rewrite !coerce_InputObject.
  pose proof (fieldsLoop_agree with_ without F field d blameNode path
                Hdefault Hwith Hwithout Hother Hfixed fields ([], []) ([], []) HF
                (conj eq_refl (fun _ => eq_refl))) as [He Hc].
  destruct (fieldsLoop with_ _ _ _ _) as [c1 e1],
           (fieldsLoop without _ _ _ _) as [c2 e2]; simpl in He, Hc; subst e2.
  pose proof (checkProvided_nil (InputObject name fields) fields blameNode path
                (map fst with_) e1) as P1.
  pose proof (checkProvided_nil (InputObject name fields) fields blameNode path
                (map fst without) e1) as P2.
  pose proof (provided_defined with_ without F d Hwith Hwithout Hother fields Hdef) as PD.
  simpl.
  destruct (checkProvided _ _ _ _ _ _ (map fst with_) e1) as [|x1 l1] eqn:E1;
    destruct (checkProvided _ _ _ _ _ _ (map fst without) e1) as [|x2 l2] eqn:E2;
    simpl.
  - destruct P1 as [[-> _] _]; [done|]. by rewrite Hc.
  - exfalso. destruct P1 as [[-> Hp] _]; [done|].
    destruct P2 as [_ P2]. discriminate P2. split; [done|by apply PD].
  - exfalso. destruct P2 as [[-> Hp] _]; [done|].
    destruct P1 as [_ P1]. discriminate P1. split; [done|by apply PD].
  - split; intros H; inversion H.
Qed.

End Facts.

(** *** Concrete instances *)

Example coerce_null_Int :
  coerceWith VNil (NonNull Int) None [] =
    (VNil, [mkError "Expected non-nullable type Int! not to be null." []
              None None None "" ErrKindOther]).
Proof. reflexivity. Qed.

(** The spec's scenario S6, with a suggestion list that proposes [age]:
    one error, for the unknown field. *)
Example scenario_S6 :
  let User := InputObject "User" [("name", mkInputField (NonNull String_) None);
                                  ("age", mkInputField Int None)] in
  (coerceValueImpl typeNotation noRendering noRendering (fun _ _ => ["age"])
     (VMap [("name", VString "Al"); ("agee", VInt 30)]) User None []).2
  = [mkError ("Field " +:+ util.dquote +:+ "agee" +:+ util.dquote
              +:+ " is not defined by type User; did you mean age?")
             [] None None None "" ErrKindOther].
Proof. vm_compute. reflexivity. Qed.

Lemma coerce_null_witness :
  (exists e,
     coerceWith VNil (NonNull Int) None [] = (VNil, [e]) /\
     Message e = "Expected non-nullable type Int! not to be null.") /\
  coerceWith VNil Int None [] = (VNil, []) /\
  coerceWith (VInt 7) (NonNull Int) None [] = coerceWith (VInt 7) Int None [].
Proof.
  destruct (coerce_null typeNotation noRendering noRendering noSuggestions
              (NonNull Int) None []) as (Hnon & _ & _).
  destruct (coerce_null typeNotation noRendering noRendering noSuggestions Int None [])
    as (_ & Hnull & Hrec).
  split; [apply Hnon; reflexivity|].
  split; [apply Hnull; reflexivity|apply Hrec; discriminate].
Defined.

(** C6, as stated, fails: for T = Int the one error returned for null
    against NonNull(Int) reads "Expected non-nullable type Int! not to be
    null.": the message names the declared non-null type, not T, and no
    error of the list has the message that names T. *)
Lemma coerce_null_names_the_non_null_type :
  typeNotation Int = "Int" /\
  map Message (coerceWith VNil (NonNull Int) None []).2
    = ["Expected non-nullable type Int! not to be null."] /\
  Forall (fun e => Message e <> "Expected non-nullable type Int not to be null" /\
                   Message e <> "Expected non-nullable type Int not to be null.")
         (coerceWith VNil (NonNull Int) None []).2.
Proof.
  split; [reflexivity|]. split; [reflexivity|].
  rewrite coerce_null_Int. constructor; [|constructor].
  split; discriminate.
Qed.

(** C7, as stated, fails: the default of [power] is the internal value
    [true], which input coercion of Switch rejects, so supplying it is an
    error while omitting the field succeeds with the default. *)
Lemma default_field_distinguishable :
  lookupKey "power" [("power", mkInputField Switch (Some (VBool true)))]
    = Some (mkInputField Switch (Some (VBool true))) /\
  coerceWith (VMap []) Settings None [] = (VMap [("power", VBool true)], []) /\
  (exists e, coerceWith (VMap [("power", VBool true)]) Settings None [] = (VNil, [e])) /\
  coerceWith (VMap [("power", VBool true)]) Settings None []
    <> coerceWith (VMap []) Settings None [].
Proof.
  split; [reflexivity|]. split; [reflexivity|]. split.
  - eexists. reflexivity.
  - discriminate.
Qed.

Lemma default_field_indistinguishable_witness :
  coerceWith (VMap [("limit", VInt 10); ("tag", VString "a")]) Page None []
    = (VMap [("limit", VInt 10); ("tag", VString "a")], [])
  <-> coerceWith (VMap [("tag", VString "a")]) Page None []
    = (VMap [("limit", VInt 10); ("tag", VString "a")], []).
Proof.
  apply (default_field_indistinguishable typeNotation noRendering noRendering
           noSuggestions "Page"
           [("limit", mkInputField Int (Some (VInt 10)));
            ("tag", mkInputField String_ None)]
           "limit" (mkInputField Int (Some (VInt 10))) (VInt 10)
           [("limit", VInt 10); ("tag", VString "a")] [("tag", VString "a")]
           None [] (VMap [("limit", VInt 10); ("tag", VString "a")])).
  - apply (bool_decide_unpack _). vm_compute. exact I.
  - apply elem_of_cons. left. reflexivity.
  - reflexivity.
  - reflexivity.
  - reflexivity.
  - intros k Hk. by apply lookupKey_cons_ne.
  - reflexivity.
Defined.

End coercion_facts.

(* ===================================================================== *)
(** ** Properties of the field collector *)
(* ===================================================================== *)

Module collector_facts.
Import graphql executor collector_spec samples.

Section Directives.

Variable DirectiveValues :
  DirectiveDef -> list ast.Directive -> list (string * Value)
  -> error + list (string * Value).

Local Abbreviation shouldInclude := (shouldIncludeNode DirectiveValues).
Local Abbreviation valuesOf ctx node def :=
  (DirectiveValues def (ast.GetDirectives node) (VariableValues ctx)).

(** C3. [@skip] is evaluated before [@include]: a failing or true skip
    decides the result whatever [@include] says; [@skip(if: true)] and
    [@include(if: false)] each omit the selection; with both conditions
    given the selection is included iff skip is false and include is true;
    with neither it is included. *)
Theorem shouldIncludeNode_skip_include (ctx : ExecutionContext) (node : ast.Selection) :
  (forall err, valuesOf ctx node SkipDirective = inl err ->
     shouldInclude ctx node = Done (inl err)) /\
  (forall skip, valuesOf ctx node SkipDirective = inr skip ->
     Get skip "if" = VBool true ->
     shouldInclude ctx node = Done (inr false)) /\
  (forall skip include,
     valuesOf ctx node SkipDirective = inr skip ->
     Get skip "if" = VNil \/ Get skip "if" = VBool false ->
     valuesOf ctx node IncludeDirective = inr include ->
     Get include "if" = VBool false ->
     shouldInclude ctx node = Done (inr false)) /\
  (forall skip include s i,
     valuesOf ctx node SkipDirective = inr skip ->
     Get skip "if" = VBool s ->
     valuesOf ctx node IncludeDirective = inr include ->
     Get include "if" = VBool i ->
     shouldInclude ctx node = Done (inr (negb s && i))) /\
  (forall skip include,
     valuesOf ctx node SkipDirective = inr skip ->
     Get skip "if" = VNil ->
     valuesOf ctx node IncludeDirective = inr include ->
     Get include "if" = VNil ->
     shouldInclude ctx node = Done (inr true)).
Proof.
  unfold shouldIncludeNode. repeat split.
  - intros err ->. reflexivity.
  - intros skip -> ->. reflexivity.
  - intros skip include -> [-> | ->] -> ->; reflexivity.
  - intros skip include s i -> -> -> ->. by destruct s, i.
  - intros skip include -> -> -> ->. reflexivity.
Qed.

End Directives.

Lemma shouldIncludeNode_skip_include_witness :
  shouldIncludeNode sampleDirectiveValues (sampleContext [] (mkObjectType "Query" []))
    (ast.FieldSelection (leaf None "a" [skipIf false; includeIf true] 1))
  = Done (inr (negb false && true)).
Proof.
  destruct (shouldIncludeNode_skip_include sampleDirectiveValues
              (sampleContext [] (mkObjectType "Query" []))
              (ast.FieldSelection (leaf None "a" [skipIf false; includeIf true] 1)))
    as (_ & _ & _ & Hboth & _).
  apply (Hboth [("if", VBool false)] [("if", VBool true)]); reflexivity.
Defined.

Section Memo.

Variable DirectiveValues :
  DirectiveDef -> list ast.Directive -> list (string * Value)
  -> error + list (string * Value).
Variable ArgumentValuesOf :
  types.Field -> ast.Field -> list (string * Value) -> error + list (string * Value).

Local Abbreviation collect := (collectFields DirectiveValues ArgumentValuesOf).

Lemma setChildren_id n children :
  Children n = Some children -> setChildren children n = n.
Proof. destruct n; simpl; intros ->; reflexivity. Qed.

Lemma withNodes_id st : withNodes st (nodes st) = st.
Proof. by destruct st. Qed.

Lemma collectFields_stored fuel ctx node runtimeType st childNodes st1 :
  collect fuel ctx node runtimeType st = Done (inr childNodes, st1) ->
  stored st1 node runtimeType childNodes.
Proof.
  unfold collectFields. intros H.
  destruct (nodes st !! node) as [n|] eqn:Hn; [|discriminate].
  pose proof (lookup_lt_Some _ _ _ Hn) as Hlt.
  set (key := objectName runtimeType) in *.
  destruct (match Children n with
            | Some children => (children, default NilSlice (children !! key))
            | None => (∅, NilSlice)
            end) as [children cached] eqn:Hc.
  destruct cached as [|a].
  - destruct (buildChildExecutionNodesForSelectionSet _ _ _ _ _ _ _)
      as [[err|newNodes]| |]; try discriminate.
    inversion H; subst; clear H. simpl.
    eexists _, _. repeat split.
    + unfold withNodes; cbn [nodes].
      rewrite list_lookup_alter_eq, lookup_app_l by (by rewrite length_insert).
      rewrite list_lookup_insert_eq by done. reflexivity.
    + reflexivity.
    + apply lookup_insert_eq.
    + discriminate.
  - inversion H; subst; clear H. simpl.
    eexists _, _. repeat split.
    + unfold withNodes; cbn [nodes].
      rewrite list_lookup_alter_eq, list_lookup_insert_eq by done. reflexivity.
    + reflexivity.
    + apply lookup_insert_eq.
    + discriminate.
Qed.

Lemma collectFields_cached fuel ctx node runtimeType st childNodes :
  stored st node runtimeType childNodes ->
  collect fuel ctx node runtimeType st = Done (inr childNodes, st).
Proof.
  intros (n & children & Hn & Hc & Hk & Hnil).
  unfold collectFields. rewrite Hn, Hc, Hk. simpl.
  destruct childNodes as [|a]; [done|].
  do 3 f_equal.
  rewrite (setChildren_id _ _ Hc), (list_insert_id _ _ _ Hn).
  rewrite (insert_id _ _ _ Hk).
  unfold withNodes; simpl.
  replace (alter (setChildren children) node (nodes st)) with (nodes st);
    [by destruct st|].
  apply list_eq. intros i.
  destruct (decide (node = i)) as [<-|Hne].
  - rewrite list_lookup_alter_eq, Hn. simpl. by rewrite setChildren_id.
  - by rewrite list_lookup_alter_ne.
Qed.

(** C5. After a call of [collectFields] that returned a list, a second call
    with the same node and runtime type returns the very same slice (the one
    stored in the node's children map under the runtime type) and leaves
    the state as it is; it does so with any fuel, zero included, that is,
    without running the builder again. *)
Theorem collectFields_memoized (fuel : nat) (ctx : ExecutionContext) (node : nodeptr)
    (runtimeType : ObjectType) (st st1 : State) (childNodes : Slice) :
  collect fuel ctx node runtimeType st = Done (inr childNodes, st1) ->
  stored st1 node runtimeType childNodes /\
  forall fuel', collect fuel' ctx node runtimeType st1 = Done (inr childNodes, st1).
Proof.
  intros H. pose proof (collectFields_stored _ _ _ _ _ _ _ H) as Hs.
  split; [exact Hs|]. intros fuel'. by apply collectFields_cached.
Qed.

End Memo.

(** *** Coalescing of field selections *)

Lemma ext_refl st : ext st st.
Proof. split; [done|]. intros i n Hn. by exists n. Qed.

Lemma ext_trans st1 st2 st3 : ext st1 st2 -> ext st2 st3 -> ext st1 st3.
Proof.
  intros [Hf1 Hn1] [Hf2 Hn2]. split; [by auto|].
  intros i n Hn. destruct (Hn1 _ _ Hn) as (n' & Hn' & Hp).
  destruct (Hn2 _ _ Hn') as (n'' & Hn'' & Hp').
  exists n''. split; [done|]. by etrans.
Qed.

Lemma ext_same st st' :
  fields st' = fields st -> childNodes st' = childNodes st -> ext st st'.
Proof. intros Hf Hc. unfold ext. rewrite Hf, Hc. apply ext_refl. Qed.

Lemma Inv_same st st' :
  fields st' = fields st -> childNodes st' = childNodes st -> Inv st -> Inv st'.
Proof. intros Hf Hc [H1 H2 H3]. split; rewrite ?Hf, ?Hc; done. Qed.

Lemma nodeKey_appendDefinition f n :
  Definitions n <> [] -> nodeKey (appendDefinition f n) = nodeKey n.
Proof. unfold nodeKey. simpl. by destruct (Definitions n). Qed.

Lemma Inv_NoDup st : Inv st -> NoDup (map nodeKey (childNodes st)).
Proof.
  intros [_ H2 _]. apply NoDup_alt. intros i j k Hi Hj.
  rewrite list_lookup_fmap in Hi, Hj.
  destruct (childNodes st !! i) as [n|] eqn:Ei; [|discriminate].
  destruct (childNodes st !! j) as [m|] eqn:Ej; [|discriminate].
  simpl in Hi, Hj. inversion Hi; inversion Hj; subst.
  apply H2 in Ei, Ej. congruence.
Qed.

Section Coalescing.

Variable DirectiveValues :
  DirectiveDef -> list ast.Directive -> list (string * Value)
  -> error + list (string * Value).
Variable ArgumentValuesOf :
  types.Field -> ast.Field -> list (string * Value) -> error + list (string * Value).
Variables (ctx : ExecutionContext) (parentNode : nodeptr) (runtimeType : ObjectType).

Local Abbreviation process :=
  (processSelection DirectiveValues ArgumentValuesOf ctx parentNode runtimeType).
Local Abbreviation loop fuel :=
  (collectLoop DirectiveValues ArgumentValuesOf fuel ctx parentNode runtimeType).
Local Abbreviation included sel :=
  (shouldIncludeNode DirectiveValues ctx sel = Done (inr true)).

Lemma Inv_append st stack' visited f i :
  Inv st -> fields st !! ast.ResponseKey f = Some i ->
  Inv (mkBuildState stack' (fields st)
         (alter (appendDefinition f) i (childNodes st)) visited).
Proof.
  intros [H1 H2 H3] Hf.
  destruct (H1 _ _ Hf) as (n & Hn & Hk).
  assert (Hkn : keyed n) by (eapply Forall_lookup_1; eauto).
  split; simpl.
  - intros k j Hj. destruct (H1 _ _ Hj) as (m & Hm & Hkm).
    destruct (decide (i = j)) as [->|Hne].
    + exists (appendDefinition f m). rewrite list_lookup_alter_eq, Hm. split; [done|].
      assert (m = n) by congruence; subst m.
      rewrite nodeKey_appendDefinition; [done|apply Hkn].
    + exists m. by rewrite list_lookup_alter_ne.
  - intros j m Hm. destruct (decide (i = j)) as [->|Hne].
    + rewrite list_lookup_alter_eq, Hn in Hm. inversion Hm; subst.
      rewrite nodeKey_appendDefinition; [by apply H2|apply Hkn].
    + rewrite list_lookup_alter_ne in Hm by done. by apply H2.
  - apply Forall_lookup_2. intros j m Hm.
    destruct (decide (i = j)) as [->|Hne].
    + rewrite list_lookup_alter_eq, Hn in Hm. inversion Hm; subst.
      destruct Hkn as [Hne Hall]. split; [simpl; by destruct (Definitions n)|].
      rewrite nodeKey_appendDefinition by done. simpl.
      apply Forall_app. split; [done|]. constructor; [congruence|constructor].
    + rewrite list_lookup_alter_ne in Hm by done. eapply Forall_lookup_1; eauto.
Qed.

Lemma ext_append st stack' visited f i :
  ext st (mkBuildState stack' (fields st)
            (alter (appendDefinition f) i (childNodes st)) visited).
Proof.
  split; [done|]. simpl. intros j n Hn.
  destruct (decide (i = j)) as [->|Hne].
  - exists (appendDefinition f n). rewrite list_lookup_alter_eq, Hn. split; [done|].
    simpl. by apply prefix_app_r.
  - exists n. by rewrite list_lookup_alter_ne.
Qed.

Lemma Inv_new st stack' visited f fieldDef arguments :
  Inv st -> fields st !! ast.ResponseKey f = None ->
  Inv (mkBuildState stack'
         (<[ast.ResponseKey f := length (childNodes st)]> (fields st))
         (childNodes st ++ [mkExecutionNode (Some parentNode) [f] (Some fieldDef)
                                            arguments None])
         visited).
Proof.
  intros [H1 H2 H3] Hf. split; simpl.
  - intros k j Hj. destruct (decide (ast.ResponseKey f = k)) as [<-|Hne].
    + rewrite lookup_insert_eq in Hj. inversion Hj; subst.
      eexists. split; [by apply list_lookup_middle|done].
    + rewrite lookup_insert_ne in Hj by done.
      destruct (H1 _ _ Hj) as (n & Hn & Hk). exists n. split; [|done].
      by apply lookup_app_l_Some.
  - intros j n Hn. apply lookup_app_Some in Hn as [Hn|[Hge Hn]].
    + pose proof (H2 _ _ Hn) as Hk.
      rewrite lookup_insert_ne; [done|congruence].
    + apply list_lookup_singleton_Some in Hn as [Hj <-]. simpl.
      unfold nodeKey; simpl. rewrite lookup_insert_eq. f_equal. lia.
  - apply Forall_app. split; [done|]. constructor; [|constructor].
    split; [done|]. simpl. constructor; [done|constructor].
Qed.

Lemma ext_new st stack' visited k node :
  fields st !! k = None ->
  ext st (mkBuildState stack' (<[k := length (childNodes st)]> (fields st))
            (childNodes st ++ [node]) visited).
Proof.
  intros Hf. split; simpl.
  - intros k' i Hi. rewrite lookup_insert_ne; [done|congruence].
  - intros i n Hn. exists n. split; [by apply lookup_app_l_Some|done].
Qed.

(** One iteration of the loop keeps the invariant, only extends the nodes,
    and leaves the advanced stack, possibly under one new task. *)
Ltac unchanged :=
  match goal with
  | HI : Inv ?st |- _ => split; [by apply (Inv_same st)|split; [by apply ext_same|]]
  end.

Lemma process_step st data below sel st1 :
  process st data below sel = Done (inr st1) ->
  Inv st ->
  Inv st1 /\ ext st st1 /\
  (stack st1 = advanced data below \/
   exists ss, stack st1 = mkTaskData ss 0 :: advanced data below).
Proof.
  unfold processSelection. fold (advanced data below). intros H HI.
  destruct (shouldIncludeNode _ _ _) as [[err|[|]]| |]; try discriminate.
  2: { inversion H; subst. unchanged; by left. }
  destruct sel as [f|typeCondition directives ss|fragmentName directives].
  - destruct (fields st !! ast.ResponseKey f) as [i|] eqn:Hf.
    + inversion H; subst.
      split; [by apply Inv_append|split; [by apply ext_append|by left]].
    + destruct (findFieldDef _ _ _) as [fieldDef|].
      * destruct (ArgumentValuesOf _ _ _) as [err|arguments]; [discriminate|].
        inversion H; subst.
        split; [by apply Inv_new|split; [by apply ext_new|by left]].
      * inversion H; subst.
        unchanged; by left.
  - destruct (match typeCondition with
              | Some cond => doesTypeConditionSatisfy ctx cond (asType runtimeType)
              | None => true
              end); inversion H; subst.
    + unchanged; right; by eexists.
    + unchanged; by left.
  - destruct (decide (fragmentName ∈ visitedFragmentNames st)).
    { inversion H; subst.
      unchanged; by left. }
    destruct (FragmentDefs ctx !! fragmentName) as [fragmentDef|].
    + destruct (doesTypeConditionSatisfy _ _ _); inversion H; subst.
      * unchanged; right; by eexists.
      * unchanged; by left.
    + inversion H; subst.
      unchanged; by left.
Qed.

(** An included field selection ends as the last definition of the node of
    its response key, when the key has a node already or the field is
    defined on the runtime type. *)
Lemma process_field st data below f st1 :
  process st data below (ast.FieldSelection f) = Done (inr st1) ->
  included (ast.FieldSelection f) ->
  Inv st ->
  is_Some (fields st !! ast.ResponseKey f)
  \/ findFieldDef (OperationSchema ctx) runtimeType (ast.Name f) <> None ->
  stack st1 = advanced data below /\
  exists p n l,
    fields st1 !! ast.ResponseKey f = Some p /\
    childNodes st1 !! p = Some n /\
    Definitions n = l ++ [f] /\
    (forall n0, childNodes st !! p = Some n0 -> l = Definitions n0).
Proof.
  unfold processSelection. fold (advanced data below). intros H Hinc HI Hdef.
  rewrite Hinc in H.
  destruct (fields st !! ast.ResponseKey f) as [i|] eqn:Hf.
  - inversion H; subst; clear H. simpl. split; [done|].
    destruct (inv_fields _ HI _ _ Hf) as (n & Hn & _).
    exists i, (appendDefinition f n), (Definitions n).
    rewrite list_lookup_alter_eq, Hn. repeat split; [done|]. congruence.
  - destruct Hdef as [[? ?]|Hdef]; [discriminate|].
    destruct (findFieldDef _ _ _) as [fieldDef|]; [|done].
    destruct (ArgumentValuesOf _ _ _) as [err|arguments]; [discriminate|].
    inversion H; subst; clear H. simpl. split; [done|].
    eexists _, _, []. rewrite lookup_insert_eq. split; [done|].
    split; [by apply list_lookup_middle|]. split; [done|].
    intros n0 Hn0. apply lookup_lt_Some in Hn0. lia.
Qed.

Lemma loop_step fuel st data below sel out :
  loop fuel st = Done (inr out) ->
  stack st = data :: below ->
  selectionSet data !! selectionIndex data = Some sel ->
  exists fuel' st1,
    fuel = S fuel' /\ process st data below sel = Done (inr st1) /\
    loop fuel' st1 = Done (inr out).
Proof.
  destruct fuel as [|fuel]; [discriminate|]. simpl. intros H Hs Hsel.
  rewrite Hs, Hsel in H.
  destruct (process st data below sel) as [[err|st1]| |]; try discriminate.
  by exists fuel, st1.
Qed.

Lemma loop_final fuel : forall st out,
  loop fuel st = Done (inr out) -> Inv st ->
  exists final, Inv final /\ ext st final /\ out = childNodes final.
Proof.
  induction fuel as [|fuel IH]; intros st out H HI; [discriminate|].
  simpl in H. destruct (stack st) as [|data below] eqn:Hs.
  - inversion H; subst. exists st. split; [done|]. split; [apply ext_refl|done].
  - destruct (selectionSet data !! selectionIndex data) as [sel|]; [|by apply IH].
    destruct (process st data below sel) as [[err|st1]| |] eqn:Hp; try discriminate.
    destruct (process_step _ _ _ _ _ Hp HI) as (HI1 & He & _).
    destruct (IH _ _ H HI1) as (final & HIf & Hef & ->).
    exists final. split; [done|]. split; [by eapply ext_trans|done].
Qed.

(** The loop empties the top task (and every task pushed meanwhile) before
    it reads the task below. *)
Lemma loop_pops fuel : forall st data below out,
  loop fuel st = Done (inr out) ->
  stack st = data :: below ->
  Inv st ->
  exists fuel' st',
    fuel' < fuel /\ loop fuel' st' = Done (inr out) /\
    stack st' = below /\ ext st st' /\ Inv st'.
Proof.
  induction fuel as [fuel IH] using lt_wf_ind. intros st data below out H Hs HI.
  destruct fuel as [|fuel]; [discriminate|]. simpl in H. rewrite Hs in H.
  destruct (selectionSet data !! selectionIndex data) as [sel|].
  2: { destruct (IH fuel (Nat.lt_succ_diag_r _) _ _ _ _ H Hs HI)
         as (fuel' & st' & Hlt & Hl & Hs' & He & HI').
       exists fuel', st'. split_and!; try done. lia. }
  destruct (process st data below sel) as [[err|st1]| |] eqn:Hp; try discriminate.
  destruct (process_step _ _ _ _ _ Hp HI) as (HI1 & He1 & Hstack).
  assert (Hrest : forall st2 fuel2,
             fuel2 <= fuel -> loop fuel2 st2 = Done (inr out) ->
             stack st2 = advanced data below -> ext st st2 -> Inv st2 ->
             exists fuel' st',
               fuel' < S fuel /\ loop fuel' st' = Done (inr out) /\
               stack st' = below /\ ext st st' /\ Inv st').
  { intros st2 fuel2 Hle Hl2 Hs2 He2 HI2. unfold advanced in Hs2.
    case_decide.
    - exists fuel2, st2. split_and!; try done. lia.
    - destruct (IH fuel2 ltac:(lia) _ _ _ _ Hl2 Hs2 HI2)
        as (fuel' & st' & Hlt & Hl & Hs' & He & HI').
      exists fuel', st'. split_and!; try done; [lia|by eapply ext_trans]. }
  destruct Hstack as [Hs1|[ss Hs1]].
  - by apply (Hrest st1 fuel).
  - destruct (IH fuel ltac:(lia) _ _ _ _ H Hs1 HI1)
      as (fuel2 & st2 & Hlt2 & Hl2 & Hs2 & He2 & HI2).
    apply (Hrest st2 fuel2); [lia|done|done|by eapply ext_trans|done].
Qed.

Lemma loop_pops_many above : forall fuel st rest out,
  loop fuel st = Done (inr out) ->
  stack st = above ++ rest ->
  Inv st ->
  exists fuel' st',
    loop fuel' st' = Done (inr out) /\ stack st' = rest /\ ext st st' /\ Inv st'.
Proof.
  induction above as [|data above IH]; intros fuel st rest out H Hs HI.
  - exists fuel, st. split_and!; try done. apply ext_refl.
  - destruct (loop_pops _ _ _ _ _ H Hs HI) as (fuel1 & st1 & _ & Hl1 & Hs1 & He1 & HI1).
    destruct (IH _ _ _ _ Hl1 Hs1 HI1) as (fuel2 & st2 & Hl2 & Hs2 & He2 & HI2).
    exists fuel2, st2. split_and!; try done. by eapply ext_trans.
Qed.

(** After a selection that is not the last of its set, the loop comes back
    to the same task at the next index. *)
Lemma loop_next fuel st ss idx below out :
  loop fuel st = Done (inr out) ->
  stack st = mkTaskData ss idx :: below ->
  S idx < length ss ->
  Inv st ->
  exists fuel' st',
    loop fuel' st' = Done (inr out) /\
    stack st' = mkTaskData ss (S idx) :: below /\ ext st st' /\ Inv st'.
Proof.
  intros H Hs Hlt HI.
  destruct (lookup_lt_is_Some_2 ss idx ltac:(lia)) as [sel Hsel].
  destruct (loop_step _ _ _ _ _ _ H Hs Hsel) as (fuel1 & st1 & -> & Hp & Hl1).
  destruct (process_step _ _ _ _ _ Hp HI) as (HI1 & He1 & Hstack).
  unfold advanced in Hstack. simpl in Hstack.
  rewrite decide_False in Hstack by lia.
  destruct Hstack as [Hs1|[ss' Hs1]].
  - by exists fuel1, st1.
  - destruct (loop_pops _ _ _ _ _ Hl1 Hs1 HI1) as (fuel2 & st2 & _ & Hl2 & Hs2 & He2 & HI2).
    exists fuel2, st2. split_and!; try done. by eapply ext_trans.
Qed.

Lemma loop_reaches (d : nat) : forall fuel st ss idx below out,
  loop fuel st = Done (inr out) ->
  stack st = mkTaskData ss idx :: below ->
  idx + d < length ss ->
  Inv st ->
  exists fuel' st',
    loop fuel' st' = Done (inr out) /\
    stack st' = mkTaskData ss (idx + d) :: below /\ ext st st' /\ Inv st'.
Proof.
  induction d as [|d IH]; intros fuel st ss idx below out H Hs Hlt HI.
  - exists fuel, st. rewrite Nat.add_0_r. split_and!; try done. apply ext_refl.
  - destruct (loop_next _ _ _ _ _ _ H Hs ltac:(lia) HI)
      as (fuel1 & st1 & Hl1 & Hs1 & He1 & HI1).
    destruct (IH _ _ _ _ _ _ Hl1 Hs1 ltac:(lia) HI1)
      as (fuel2 & st2 & Hl2 & Hs2 & He2 & HI2).
    exists fuel2, st2. replace (idx + S d) with (S idx + d) by lia.
    split_and!; try done. by eapply ext_trans.
Qed.

Lemma Inv_initial stack0 : Inv (mkBuildState stack0 ∅ [] ∅).
Proof.
  split; simpl; [intros k i H; by rewrite lookup_empty in H|done|constructor].
Qed.

(** **** Termination of the loop *)

Lemma shouldIncludeNode_returns sel :
  shouldIncludeNode DirectiveValues ctx sel <> OutOfFuel.
Proof.
  unfold shouldIncludeNode.
  repeat (case_match; try discriminate).
Qed.

Lemma stackSize_advanced data below sel :
  selectionSet data !! selectionIndex data = Some sel ->
  stackSize (advanced data below) + selectionSize sel = stackSize (data :: below).
Proof.
  intros Hsel. unfold advanced, stackSize. simpl.
  rewrite (drop_S _ _ _ Hsel). simpl. case_decide; simpl.
  - rewrite drop_ge by done. simpl. lia.
  - lia.
Qed.

Lemma stackSize_push ss rest :
  stackSize (mkTaskData ss 0 :: rest) = sum_list_with selectionSize ss + stackSize rest.
Proof. unfold stackSize. simpl. by rewrite drop_0. Qed.

Lemma wfTask_advanced data below :
  wfTask data -> Forall wfTask below -> Forall wfTask (advanced data below).
Proof.
  intros [Hlt Hne] Hbelow. unfold advanced. case_decide; [done|].
  constructor; [|done]. split; simpl; [lia|done].
Qed.

Lemma selectionSize_pos sel : 0 < selectionSize sel.
Proof. destruct sel; simpl; lia. Qed.

Lemma unvisitedWeight_insert (defs : gmap string ast.FragmentDefinition) name def visited :
  defs !! name = None ->
  unvisitedWeight (<[name := def]> defs) visited =
    (if decide (name ∈ visited) then 0
     else sum_list_with selectionSize (ast.fragmentSelectionSet def))
    + unvisitedWeight defs visited.
Proof.
  intros Hn. unfold unvisitedWeight.
  by rewrite (map_to_list_insert _ _ _ Hn).
Qed.

Lemma unvisitedWeight_visit (defs : gmap string ast.FragmentDefinition) name visited :
  unvisitedWeight defs ({[name]} ∪ visited) <= unvisitedWeight defs visited.
Proof.
  induction defs as [|k def defs Hk _ IH] using map_first_key_ind.
  - done.
  - rewrite !unvisitedWeight_insert by done.
    repeat case_decide; try lia. set_solver.
Qed.

Lemma unvisitedWeight_visit_def (defs : gmap string ast.FragmentDefinition)
    name def visited :
  defs !! name = Some def -> name ∉ visited ->
  unvisitedWeight defs ({[name]} ∪ visited)
  + sum_list_with selectionSize (ast.fragmentSelectionSet def)
  <= unvisitedWeight defs visited.
Proof.
  intros Hdef Hv. rewrite <- (insert_delete_id _ _ _ Hdef).
  rewrite !unvisitedWeight_insert by apply lookup_delete_eq.
  rewrite decide_True by set_solver. rewrite decide_False by done.
  pose proof (unvisitedWeight_visit (delete name defs) name visited). lia.
Qed.

Lemma wfTask_selection data sel :
  wfTask data -> selectionSet data !! selectionIndex data = Some sel ->
  fragmentsNonEmpty sel = true.
Proof.
  intros [_ Hall] Hsel. rewrite forallb_forall in Hall.
  apply Hall. apply list_elem_of_In. by eapply list_elem_of_lookup_2.
Qed.

Lemma wfTask_push ss : wfSelectionSet ss -> wfTask (mkTaskData ss 0).
Proof. intros [Hne Hall]. split; simpl; [|done]. destruct ss; [done|simpl; lia]. Qed.

(** Every iteration strictly decreases the measure and keeps every task on
    the stack readable. *)
Lemma process_measure st data below sel st1 :
  stack st = data :: below ->
  Forall wfTask (stack st) ->
  map_Forall (fun _ def => wfSelectionSet (ast.fragmentSelectionSet def))
             (FragmentDefs ctx) ->
  selectionSet data !! selectionIndex data = Some sel ->
  process st data below sel = Done (inr st1) ->
  Forall wfTask (stack st1) /\ measure ctx st1 < measure ctx st.
Proof.
  intros Hs Hwf Hdefs Hsel. rewrite Hs in Hwf.
  apply Forall_cons in Hwf as [Hdata Hbelow].
  pose proof (stackSize_advanced data below sel Hsel) as Hsize.
  pose proof (wfTask_advanced _ _ Hdata Hbelow) as Hadv.
  pose proof (selectionSize_pos sel) as Hpos.
  pose proof (wfTask_selection _ _ Hdata Hsel) as Hne.
  unfold processSelection, measure. fold (advanced data below). rewrite Hs.
  destruct (shouldIncludeNode _ _ _) as [[err|[|]]| |]; try discriminate.
  2: { intros H; inversion H; subst. split; [done|]. cbn [stack visitedFragmentNames]. lia. }
  destruct sel as [f|typeCondition directives ss|fragmentName directives].
  - destruct (fields st !! ast.ResponseKey f) as [i|].
    { intros H; inversion H; subst. split; [done|]. cbn [stack visitedFragmentNames]. lia. }
    destruct (findFieldDef _ _ _) as [fieldDef|].
    + destruct (ArgumentValuesOf _ _ _) as [err|arguments]; [discriminate|].
      intros H; inversion H; subst. split; [done|]. cbn [stack visitedFragmentNames]. lia.
    + intros H; inversion H; subst. split; [done|]. cbn [stack visitedFragmentNames]. lia.
  - cbn [selectionSize fragmentsNonEmpty] in Hne, Hsize.
    assert (Hss : wfSelectionSet ss) by (split; by destruct ss).
    destruct (match typeCondition with
              | Some cond => doesTypeConditionSatisfy ctx cond (asType runtimeType)
              | None => true
              end); intros H; inversion H; subst;
      unfold pushTask; cbn [stack visitedFragmentNames].
    + split; [constructor; [by apply wfTask_push|done]|].
      rewrite stackSize_push. lia.
    + split; [done|lia].
  - cbn [selectionSize] in Hsize.
    destruct (decide (fragmentName ∈ visitedFragmentNames st)) as [Hv|Hv].
    { intros H; inversion H; subst. split; [done|]. cbn [stack visitedFragmentNames]. lia. }
    pose proof (unvisitedWeight_visit (FragmentDefs ctx) fragmentName
                  (visitedFragmentNames st)) as Hw.
    destruct (FragmentDefs ctx !! fragmentName) as [fragmentDef|] eqn:Hdef.
    + pose proof (unvisitedWeight_visit_def _ _ _ _ Hdef Hv) as Hwd.
      pose proof (Hdefs _ _ Hdef) as Hss. simpl in Hss.
      destruct (doesTypeConditionSatisfy _ _ _); intros H; inversion H; subst;
        unfold pushTask; cbn [stack visitedFragmentNames].
      * split; [constructor; [by apply wfTask_push|done]|].
        rewrite stackSize_push. lia.
      * split; [done|lia].
    + intros H; inversion H; subst. split; [done|]. cbn [stack visitedFragmentNames]. lia.
Qed.

Lemma loop_terminates fuel : forall st,
  Forall wfTask (stack st) ->
  map_Forall (fun _ def => wfSelectionSet (ast.fragmentSelectionSet def))
             (FragmentDefs ctx) ->
  measure ctx st < fuel ->
  loop fuel st <> OutOfFuel.
Proof.
  induction fuel as [|fuel IH]; intros st Hwf Hdefs Hm; [lia|].
  simpl. destruct (stack st) as [|data below] eqn:Hs; [discriminate|].
  assert (Hwf0 : Forall wfTask (stack st)) by (by rewrite Hs).
  apply Forall_cons in Hwf as [[Hlt _] _].
  destruct (lookup_lt_is_Some_2 _ _ Hlt) as [sel Hsel]. rewrite Hsel.
  destruct (process st data below sel) as [[err|st1]| |] eqn:Hp; try discriminate.
  - destruct (process_measure _ _ _ _ _ Hs Hwf0 Hdefs Hsel Hp) as [Hwf1 Hm1].
    apply IH; [done|done|lia].
  - exfalso. unfold processSelection in Hp.
    pose proof (shouldIncludeNode_returns sel) as Hr.
    destruct (shouldIncludeNode _ _ _) as [[?|[|]]| |]; try discriminate; [|done].
    repeat (case_match; try discriminate).
Qed.

Local Abbreviation build fuel parent :=
  (buildChildExecutionNodesForSelectionSet DirectiveValues ArgumentValuesOf fuel ctx
     parentNode parent runtimeType).

(** Collection of selection sets none of which is empty returns (a list, an
    error or a panic) within [collectBound] iterations. *)
Lemma collection_terminates (fuel : nat) (parent : ExecutionNode) :
  wfContext ctx parent ->
  collectBound ctx parent < fuel ->
  build fuel parent <> OutOfFuel.
Proof.
  intros [Hsets Hdefs] Hb. unfold buildChildExecutionNodesForSelectionSet.
  apply loop_terminates; [|done|].
  - simpl. unfold initialSelectionSets in Hsets.
    destruct (IsRoot parent).
    + inversion Hsets; subst. constructor; [by apply wfTask_push|done].
    + induction (Definitions parent) as [|d ds IHds]; simpl in *; [done|].
      inversion Hsets; subst. constructor; [by apply wfTask_push|by apply IHds].
  - unfold measure, collectBound, initialSelectionSets, stackSize in *. simpl.
    destruct (IsRoot parent); simpl in *.
    + rewrite drop_0. lia.
    + assert (Heq : forall ds : list ast.Field,
                 sum_list_with
                   (fun d => sum_list_with selectionSize
                               (drop (selectionIndex d) (selectionSet d)))
                   (map (fun definition => mkTaskData (ast.SelectionSet definition) 0) ds)
                 = sum_list_with (sum_list_with selectionSize)
                     (map ast.SelectionSet ds)).
      { induction ds as [|d ds IHds]; simpl; [done|]. by rewrite IHds. }
      rewrite Heq. lia.
Qed.


End Coalescing.


(** The same happens to selections excluded by their directives. *)
Example skipped_fields_yield_no_node :
  sampleBuild 10
    (sampleContext [ast.FieldSelection (leaf None "a" [skipIf true] 1);
                    ast.FieldSelection (leaf None "a" [skipIf true] 2)] QueryAB)
    0 rootNode QueryAB = Done (inr []).
Proof. vm_compute. reflexivity. Qed.

(** [{ a b a }] (scenario S5 with a field in between): one node for [a]
    with both selections, then the node for [b]. *)
Example merged_selections :
  sampleBuild 10
    (sampleContext [ast.FieldSelection (leaf None "a" [] 1);
                    ast.FieldSelection (leaf None "b" [] 2);
                    ast.FieldSelection (leaf None "a" [] 3)] QueryAB)
    0 rootNode QueryAB
  = Done (inr [mkExecutionNode (Some 0) [leaf None "a" [] 1; leaf None "a" [] 3]
                 (Some (types.mkField "a" (types.NonNull samples.Int) [] None))
                 [] None;
               mkExecutionNode (Some 0) [leaf None "b" [] 2]
                 (Some (types.mkField "b" samples.String_ [] None))
                 [] None]).
Proof. vm_compute. reflexivity. Qed.

Lemma sampleABA_wf : wfContext sampleABA rootNode.
Proof.
  split.
  - constructor; [|constructor]. split; [discriminate|reflexivity].
  - apply map_Forall_empty.
Qed.


Lemma collectFields_memoized_witness :
  exists childNodes st1,
    collectFields sampleDirectiveValues sampleArgumentValues 10
      (sampleContext [ast.FieldSelection (leaf None "a" [] 1);
                      ast.FieldSelection (leaf None "b" [] 2)] QueryAB)
      0 QueryAB rootOnly = Done (inr childNodes, st1) /\
    stored st1 0 QueryAB childNodes /\
    forall fuel',
      collectFields sampleDirectiveValues sampleArgumentValues fuel'
        (sampleContext [ast.FieldSelection (leaf None "a" [] 1);
                        ast.FieldSelection (leaf None "b" [] 2)] QueryAB)
        0 QueryAB st1 = Done (inr childNodes, st1).
Proof.
  eexists _, _. split.
  - vm_compute. reflexivity.
  - apply (collectFields_memoized sampleDirectiveValues sampleArgumentValues 10
             (sampleContext [ast.FieldSelection (leaf None "a" [] 1);
                             ast.FieldSelection (leaf None "b" [] 2)] QueryAB)
             0 QueryAB rootOnly).
    vm_compute. reflexivity.
Defined.

End collector_facts.

(* ===================================================================== *)
(** ** Properties of value completion *)
(* ===================================================================== *)

Module completion_facts.
Import graphql executor completion_spec samples.

Section Completion.

Variable DirectiveValues :
  DirectiveDef -> list ast.Directive -> list (string * Value)
  -> error + list (string * Value).
Variable ArgumentValuesOf :
  types.Field -> ast.Field -> list (string * Value) -> error + list (string * Value).
Variable typeString : types.Type_ -> string.
Variable parentFieldTypeName : ExecutionContext -> ExecutionNode -> string.
Variable ResultPath : State -> resultptr -> ResponsePath.
Variable NewDefaultResultCoercionError : string -> Value -> error -> error.

Local Abbreviation completeNonWrapping :=
  (completeNonWrappingValue DirectiveValues ArgumentValuesOf typeString ResultPath
     NewDefaultResultCoercionError).
Local Abbreviation complete :=
  (completeValue DirectiveValues ArgumentValuesOf typeString parentFieldTypeName
     ResultPath NewDefaultResultCoercionError).

(** C2 (as amended). Completing a value that is neither null nor an error
    value against an abstract type (interface or union) panics with
    "unimplemented": no concrete type is resolved and the target node is
    not populated. *)
Theorem abstract_completion_unimplemented (fuel : nat) (ctx : ExecutionContext)
    (task : ExecuteNodeTask) (returnType : types.Type_) (result : resultptr)
    (value : Value) (st : State) :
  isAbstractType returnType = true ->
  IsNullish value = false ->
  (forall e, value <> VError e) ->
  completeNonWrapping fuel ctx task returnType result value st = Panic "unimplemented" /\
  complete fuel ctx task returnType result value st = Panic "unimplemented".
Proof.
  intros Habs Hnull Herr.
  assert (H : completeNonWrapping fuel ctx task returnType result value st
              = Panic "unimplemented").
  { unfold completeNonWrappingValue. rewrite Hnull.
    destruct value; try discriminate; try (by destruct returnType).
    by destruct (Herr e). }
  split; [exact H|].
  unfold completeValue. destruct returnType; try discriminate; simpl; by rewrite H.
Qed.

(** *** The frame of a completion step *)

Lemma frame_refl r rs : wfResults rs -> frame r rs rs.
Proof. by intros H; repeat split. Qed.

Lemma frame_trans r rs1 rs2 rs3 : frame r rs1 rs2 -> frame r rs2 rs3 -> frame r rs1 rs3.
Proof.
  intros (_ & Hl1 & H1) (Hw & Hl2 & H2). repeat split; [done|lia|].
  intros a Hr Ha. rewrite H2, H1; [done|done|done|done|lia].
Qed.

Lemma wfResults_alter f a rs :
  (forall n, resultParent (f n) = resultParent n) ->
  wfResults rs -> wfResults (alter f a rs).
Proof.
  intros Hf Hw b n p Hb Hp.
  destruct (decide (a = b)) as [->|Hne].
  - rewrite list_lookup_alter_eq in Hb.
    destruct (rs !! b) as [m|] eqn:E; [|discriminate].
    simpl in Hb. inversion Hb; subst. rewrite Hf in Hp. by eapply Hw.
  - rewrite list_lookup_alter_ne in Hb by done. by eapply Hw.
Qed.

Lemma wfResults_setResultParent parent a rs :
  parent < a -> wfResults rs -> wfResults (alter (setResultParent parent) a rs).
Proof.
  intros Hlt Hw b n p Hb Hp.
  destruct (decide (a = b)) as [->|Hne].
  - rewrite list_lookup_alter_eq in Hb.
    destruct (rs !! b) as [m|] eqn:E; [|discriminate].
    simpl in Hb. inversion Hb; subst. simpl in Hp. inversion Hp; by subst.
  - rewrite list_lookup_alter_ne in Hb by done. by eapply Hw.
Qed.

Lemma frame_alter f r rs :
  (forall n, resultParent (f n) = resultParent n) ->
  wfResults rs -> frame r rs (alter f r rs).
Proof.
  intros Hf Hw. repeat split.
  - by apply wfResults_alter.
  - by rewrite length_alter.
  - intros a Hr _. rewrite list_lookup_alter_ne; [done|lia].
Qed.

Lemma bubble_frame fuel : forall r rs,
  wfResults rs ->
  wfResults (bubble fuel r rs) /\ length (bubble fuel r rs) = length rs /\
  forall a, r < a -> bubble fuel r rs !! a = rs !! a.
Proof.
  induction fuel as [|fuel IH]; intros r rs Hw; simpl; [done|].
  destruct (rs !! r) as [n|] eqn:Hr; [|done].
  destruct (resultIsNonNull n); [|done].
  destruct (resultParent n) as [p|] eqn:Hp; [|done].
  pose proof (Hw _ _ _ Hr Hp) as Hlt.
  destruct (IH p (alter setNil p rs)) as (Hw' & Hl & Hsame).
  { by apply wfResults_alter. }
  repeat split; [done|by rewrite Hl, length_alter|].
  intros a Ha. rewrite Hsame by lia. rewrite list_lookup_alter_ne; [done|lia].
Qed.

Lemma handleNodeError_frame task err r st st' :
  wfResults (results st) ->
  handleNodeError ResultPath task err r st = Done st' ->
  frame r (results st) (results st').
Proof.
  intros Hw. unfold handleNodeError.
  destruct (nodes st !! taskNode task); [|discriminate].
  destruct (results st !! r); [|discriminate].
  intros H; inversion H; subst; clear H. simpl.
  eapply frame_trans; [by apply (frame_alter setNil)|].
  destruct (bubble_frame (length (alter setNil r (results st))) r
              (alter setNil r (results st)))
    as (Hw' & Hl & Hsame); [by apply wfResults_alter|].
  repeat split; [done|rewrite Hl; lia|]. intros a Ha _. by apply Hsame.
Qed.

Lemma collectFields_results fuel ctx node runtimeType st x st' :
  collectFields DirectiveValues ArgumentValuesOf fuel ctx node runtimeType st
    = Done (x, st') ->
  results st' = results st.
Proof.
  unfold collectFields.
  destruct (nodes st !! node) as [n|]; [|discriminate].
  destruct (match Children n with
            | Some children =>
                (children, default NilSlice (children !! objectName runtimeType))
            | None => (∅, NilSlice)
            end) as [children [|a]].
  - destruct (buildChildExecutionNodesForSelectionSet _ _ _ _ _ _ _)
      as [[err|newNodes]| |]; intros H; inversion H; reflexivity.
  - intros H; inversion H; reflexivity.
Qed.

Lemma dispatchLoop_frame result value items : forall st st',
  wfResults (results st) ->
  Forall (fun item => result < item.2) items ->
  dispatchLoop result value items st = Done st' ->
  wfResults (results st') /\ length (results st') = length (results st) /\
  forall a, a ∉ map snd items -> results st' !! a = results st !! a.
Proof.
  induction items as [|[childNode nodeResult] rest IH]; intros st st' Hw Hitems H.
  - simpl in H. inversion H; subst. done.
  - simpl in H. apply Forall_cons in Hitems as [Hlt Hrest]. simpl in Hlt.
    destruct (nodes st !! childNode) as [child|]; [|discriminate].
    destruct (Field child) as [field|]; [|discriminate].
    apply IH in H as (Hw' & Hl & Hsame); [| |done].
    + repeat split; [done| |].
      * rewrite Hl. destruct (types.IsNonNullType _); simpl;
          by rewrite ?length_alter.
      * intros a Ha. rewrite Hsame.
        2: { intros Hin. apply Ha. simpl. by right. }
        assert (a <> nodeResult) by (intros ->; apply Ha; simpl; by left).
        destruct (types.IsNonNullType _); simpl;
          by rewrite ?list_lookup_alter_ne by done.
    + destruct (types.IsNonNullType _); simpl;
        repeat (apply wfResults_alter; [done|]);
        by apply wfResults_setResultParent.
Qed.

Lemma wfResults_app_zero rs n :
  wfResults rs -> wfResults (rs ++ replicate n zeroResultNode).
Proof.
  intros Hw a m p Ha Hp.
  destruct (decide (a < length rs)) as [Hlt|Hge].
  - rewrite lookup_app_l in Ha by done. by eapply Hw.
  - rewrite lookup_app_r in Ha by lia.
    apply lookup_replicate in Ha as [-> _]. discriminate.
Qed.

Lemma dispatchTasksForObject_frame ctx r childNodes value st st' :
  wfResults (results st) -> r < length (results st) ->
  dispatchTasksForObject ctx r childNodes value st = Done st' ->
  frame r (results st) (results st').
Proof.
  intros Hw Hr. unfold dispatchTasksForObject, makeResultNodes.
  set (n := length (sliceElements st childNodes)).
  cbn [results withResults].
  destruct ((results st ++ replicate n zeroResultNode) !! r); [|discriminate].
  intros H. apply dispatchLoop_frame in H as (Hw' & Hl & Hsame).
  - cbn [results withResults] in *. rewrite length_alter, length_app in Hl.
    repeat split; [done|lia|].
    intros a Ha Hlt. rewrite Hsame.
    + rewrite list_lookup_alter_ne by lia. by rewrite lookup_app_l.
    + intros Hin. apply list_elem_of_In, in_map_iff in Hin as ([c q] & <- & Hin).
      apply list_elem_of_In, elem_of_zip_r, elem_of_seq in Hin. simpl in *. lia.
  - cbn [results withResults]. apply wfResults_alter; [done|].
    by apply wfResults_app_zero.
  - apply Forall_forall. intros [c q] Hin.
    apply elem_of_zip_r, elem_of_seq in Hin. simpl. lia.
Qed.

Lemma completeNonWrappingValue_frame fuel ctx task returnType r value st ok st' :
  wfResults (results st) -> r < length (results st) ->
  completeNonWrapping fuel ctx task returnType r value st = Done (ok, st') ->
  frame r (results st) (results st').
Proof.
  intros Hw Hr. unfold completeNonWrappingValue.
  assert (Herr : forall err st1 ok1 st2,
             wfResults (results st1) ->
             match handleNodeError ResultPath task err r st1 with
             | Done st => Done (ok1, st)
             | Panic msg => Panic msg
             | OutOfFuel => OutOfFuel
             end = Done (ok, st2) ->
             frame r (results st1) (results st2)).
  { intros err st1 ok1 st2 Hw1 H.
    destruct (handleNodeError _ _ _ _ _) as [st3| |] eqn:E; try discriminate.
    inversion H; subst. by eapply handleNodeError_frame. }
  destruct (IsNullish value).
  { destruct (results st !! r); [|discriminate].
    intros H; inversion H; subst. simpl. by apply (frame_alter setNil). }
  assert (Hleaf : forall c,
             completeLeafValue ResultPath NewDefaultResultCoercionError task
               returnType c r value st = Done (ok, st') ->
             frame r (results st) (results st')).
  { intros c. unfold completeLeafValue. destruct (c value) as [err|coerced].
    - by apply Herr.
    - destruct (results st !! r); [|discriminate].
      intros H; inversion H; subst. simpl. by apply frame_alter. }
  assert (Hobj : forall name fields,
             completeObjectValue DirectiveValues ArgumentValuesOf ResultPath fuel ctx
               task (mkObjectType name fields) r value st = Done (ok, st') ->
             frame r (results st) (results st')).
  { intros name fields. unfold completeObjectValue.
    destruct (collectFields _ _ _ _ _ _ _) as [[[err|childNodes] st1]| |] eqn:E;
      try discriminate;
      apply collectFields_results in E.
    - rewrite <- E. apply Herr. by rewrite E.
    - destruct (dispatchTasksForObject _ _ _ _ _) as [st2| |] eqn:E2; try discriminate.
      intros H; inversion H; subst. rewrite <- E.
      eapply dispatchTasksForObject_frame; [by rewrite E|by rewrite E|done]. }
  destruct value; try (by apply Herr);
    destruct returnType; try (by apply Herr); try (by apply Hleaf);
    try (by apply Hobj); try done.
Qed.

(** *** The element loop of a list of non-wrapping element type *)

Section Elements.

Variables (fuel : nat) (ctx : ExecutionContext) (task : ExecuteNodeTask).
Variables (elementType : types.Type_) (result : resultptr).

Local Abbreviation completeElement r value st :=
  (completeNonWrapping fuel ctx task elementType r value
     (withResults st (alter (setResultParent result) r (results st)))).
Local Abbreviation ranThrough :=
  (completion_spec.ranThrough DirectiveValues ArgumentValuesOf typeString ResultPath
     NewDefaultResultCoercionError fuel ctx task elementType result).
Local Abbreviation elementsLoop :=
  (completeElements DirectiveValues ArgumentValuesOf typeString ResultPath
     NewDefaultResultCoercionError fuel ctx task elementType result).

Lemma completeElements_app pre rest st st1 :
  ranThrough pre st st1 ->
  elementsLoop (pre ++ rest) st = elementsLoop rest st1.
Proof.
  induction 1 as [|r value items st ok st1 st2 Hc Hok _ IH]; [done|].
  simpl. rewrite Hc. destruct Hok as [->| Hn]; simpl; [done|].
  destruct ok; simpl; [done|]. by rewrite Hn.
Qed.

Lemma completeElement_frame r value st ok st1 :
  wfResults (results st) -> result < r -> r < length (results st) ->
  completeElement r value st = Done (ok, st1) ->
  frame r (results st) (results st1).
Proof.
  intros Hw Hlt Hr H.
  apply completeNonWrappingValue_frame in H; cbn [results withResults] in *.
  - destruct H as (Hw1 & Hl & Hsame). rewrite length_alter in *.
    repeat split; [done|done|]. intros a Ha Hal.
    rewrite Hsame by done. rewrite list_lookup_alter_ne; [done|lia].
  - by apply wfResults_setResultParent.
  - by rewrite length_alter.
Qed.

Lemma ranThrough_frame items st st1 (bound : nat) :
  ranThrough items st st1 ->
  wfResults (results st) ->
  Forall (fun item => result < item.1 /\ item.1 < bound) items ->
  bound <= length (results st) ->
  wfResults (results st1) /\ length (results st) <= length (results st1) /\
  forall a, bound <= a -> a < length (results st) -> results st1 !! a = results st !! a.
Proof.
  induction 1 as [|r value items st ok st1 st2 Hc _ _ IH]; intros Hw Hitems Hb; [done|].
  apply Forall_cons in Hitems as [[Hlt Hr] Hitems]. simpl in Hlt, Hr.
  apply completeElement_frame in Hc as (Hw1 & Hl1 & Hs1); [|done|done|lia].
  destruct IH as (Hw2 & Hl2 & Hs2); [done|done|lia|].
  repeat split; [done|lia|]. intros a Ha Hal.
  rewrite Hs2 by lia. apply Hs1; lia.
Qed.

Lemma zip_seq_split {A} (base : nat) (elems : list A) i v :
  elems !! i = Some v ->
  zip (seq base (length elems)) elems =
    zip (seq base i) (take i elems)
    ++ (base + i, v) :: zip (seq (base + S i) (length elems - S i)) (drop (S i) elems).
Proof.
  revert base i. induction elems as [|x elems IH]; intros base i Hi; [done|].
  destruct i as [|i]; simpl in *.
  - inversion Hi; subst. rewrite Nat.add_0_r, Nat.sub_0_r.
    by replace (base + 1) with (S base) by lia.
  - rewrite (IH (S base) i Hi).
    replace (S base + i) with (base + S i) by lia.
    by replace (S base + S i) with (base + S (S i)) by lia.
Qed.

(** C9. In the element loop of a list whose element type is not a wrapping
    type, elements are completed from left to right; when the completion of
    the element at index [i] fails and leaves the list's own node Nil, the
    loop ends in the state that completion produced (no later element is
    completed), and the result nodes of the later elements are as they were
    when the loop started. *)
Theorem list_completion_stops_when_list_is_nil
    (base : nat) (elems : list Value) (st stPre stI : State) (i : nat) (v : Value) :
  wfResults (results st) ->
  result < base ->
  base + length elems <= length (results st) ->
  elems !! i = Some v ->
  ranThrough (zip (seq base i) (take i elems)) st stPre ->
  completeElement (base + i) v stPre = Done (false, stI) ->
  IsNil stI result = Some true ->
  elementsLoop (zip (seq base (length elems)) elems) st = Done stI /\
  forall j, i < j -> j < length elems ->
    results stI !! (base + j) = results st !! (base + j).
Proof.
  intros Hw Hbase Hlen Hi Hpre Hfail Hnil.
  pose proof (lookup_lt_Some _ _ _ Hi) as Hilt.
  split.
  - rewrite (zip_seq_split base elems i v Hi).
    rewrite (completeElements_app _ _ _ _ Hpre).
    simpl. rewrite Hfail. simpl. by rewrite Hnil.
  - intros j Hij Hj.
    destruct (ranThrough_frame _ _ _ (base + i) Hpre Hw) as (Hw1 & Hl1 & Hs1).
    { apply Forall_forall. intros [r x] Hin.
      apply elem_of_zip_l, elem_of_seq in Hin. simpl. lia. }
    { lia. }
    apply completeElement_frame in Hfail as (_ & _ & Hs2); [|done|lia|lia].
    rewrite Hs2 by lia. apply Hs1; lia.
Qed.

End Elements.

Local Abbreviation completeQueue :=
  (executor.completeQueue DirectiveValues ArgumentValuesOf typeString
     parentFieldTypeName ResultPath NewDefaultResultCoercionError).

(** A list value whose element type is not a wrapping type is completed by
    the element loop, entered in [elementLoopState]. *)
Lemma completeQueue_enters_element_loop fuel ctx task steps (isNonNullType : bool)
    elementType result elems queue st r parent :
  results st !! result = Some r ->
  resultParent r = Some parent ->
  IsNil st parent = Some false ->
  types.isWrappingType elementType = false ->
  completeQueue fuel ctx task (S steps)
    (mkValueNode (if isNonNullType then types.NonNull (types.List elementType)
                  else types.List elementType)
                 result (VSlice elems) :: queue) st =
  match completeElements DirectiveValues ArgumentValuesOf typeString ResultPath
          NewDefaultResultCoercionError fuel ctx task elementType result
          (zip (seq (length (results st)) (length elems)) elems)
          (elementLoopState isNonNullType result (length elems) st) with
  | Done st => completeQueue fuel ctx task steps queue st
  | Panic msg => Panic msg
  | OutOfFuel => OutOfFuel
  end.
Proof.
  intros Hr Hp Hnil Hw. cbn [executor.completeQueue vnResult vnValue vnReturnType].
  rewrite Hr. cbn [mbind option_bind]. rewrite Hp. cbn [mbind option_bind].
  rewrite Hnil. unfold elementLoopState, makeResultNodes.
  destruct isNonNullType; cbn [IsNullish]; rewrite Hw; reflexivity.
Qed.

Lemma wfResults_flags rs ptrs :
  wfResults rs -> wfResults (foldr (alter SetIsNonNull) rs ptrs).
Proof.
  intros Hw. induction ptrs as [|a ptrs IH]; [done|].
  simpl. by apply wfResults_alter.
Qed.

Lemma length_flags (rs : list ResultNode) ptrs :
  length (foldr (alter SetIsNonNull) rs ptrs) = length rs.
Proof. induction ptrs as [|a ptrs IH]; [done|]. simpl. by rewrite length_alter. Qed.

(** [elementLoopState] meets what the element loop needs: the heap is well
    formed and the element nodes lie in it, after the list's node. *)
Lemma elementLoopState_ready (isNonNullType : bool) result n st :
  wfResults (results st) -> result < length (results st) ->
  wfResults (results (elementLoopState isNonNullType result n st)) /\
  length (results st) + n <= length (results (elementLoopState isNonNullType result n st)).
Proof.
  intros Hw Hr. unfold elementLoopState, makeResultNodes.
  destruct isNonNullType; cbn [results withResults].
  - split.
    + apply wfResults_alter; [done|]. apply wfResults_flags.
      by apply wfResults_app_zero.
    + rewrite length_alter, length_flags, length_app, length_replicate. lia.
  - split.
    + apply wfResults_alter; [done|]. by apply wfResults_app_zero.
    + rewrite length_alter, length_app, length_replicate. lia.
Qed.

End Completion.

(** *** A concrete schema and its runs *)

(** C1, failing input: the field [field: [Int]!] resolved to [[1, null, 3]].
    The element nodes (2, 3, 4) carry the non-null flag of the enclosing
    [[Int]!] although their own type [Int] is nullable; the null element
    (node 3) ends as Nil with the flag set, and its parent, the list (node
    1), ends as a List, not Nil. *)
Lemma non_null_flag_without_bubbling :
  let final :=
    resultsOf (runFirstField 10
                 (oneFieldQuery (types.NonNull (types.List samples.Int))
                                (VSlice [VInt 1; VNil; VInt 3]))) in
  final !! 3 = Some (mkResultNode (Some 1) ResultKindNil NoValue true) /\
  final !! 1 = Some (mkResultNode (Some 0) ResultKindList (ListValue [2; 3; 4]) true) /\
  final !! 0 = Some (mkResultNode None ResultKindObject (ObjectValue (SliceAt 0) [1]) false).
Proof. vm_compute. repeat split. Qed.

(** The same flag shows in the response when an element of nullable type
    fails to coerce: for [field: [Int]!] resolved to [[1, "x", 3]] the error
    of the element nils the list and, through it, the root. *)
Example nullable_element_error_nils_the_list :
  fst <$> responseOf
            (execute 20 (oneFieldQuery (types.NonNull (types.List samples.Int))
                                       (VSlice [VInt 1; VString "x"; VInt 3])))
  = Some VNil.
Proof. vm_compute. reflexivity. Qed.

(** The spec's end-to-end scenarios on the model, with the serial executor. *)
Example scenario_S1 :
  responseOf (execute 20 (scenario [selecting "a" 1 []; selecting "b" 2 []]
                                   (VMap [("a", VInt 1); ("b", VString "hi")])))
  = Some (VMap [("a", VInt 1); ("b", VString "hi")], []).
Proof. vm_compute. reflexivity. Qed.

Example scenario_S2 :
  responseOf (execute 20 (scenario [selecting "a" 1 []; selecting "b" 2 []]
                                   (VMap [("a", VNil); ("b", VString "hi")])))
  = Some (VNil, [("Cannot return null for non-nullable field Query.a.", [KeyName "a"])]).
Proof. vm_compute. reflexivity. Qed.

Example scenario_S3 :
  responseOf (execute 20 (scenario [selecting "list" 1 []]
                                   (VMap [("list", VSlice [VInt 1; VNil; VInt 3])])))
  = Some (VNil, [("Cannot return null for non-nullable field Query.list.",
                  [KeyName "list"; KeyIndex 1])]).
Proof. vm_compute. reflexivity. Qed.

Example scenario_S4 :
  (fun response => (response.1, map snd response.2)) <$>
  responseOf (execute 20 (scenario [selecting "obj" 1 [selecting "x" 2 [];
                                                       selecting "y" 3 []]]
                                   (VMap [("obj", VMap [("x", VInt 1); ("y", VNil)])])))
  = Some (VMap [("obj", VNil)], [[KeyName "obj"; KeyName "y"]]).
Proof. vm_compute. reflexivity. Qed.

Example scenario_S5 :
  responseOf (execute 20 (scenario [selecting "a" 1 []; selecting "a" 2 []]
                                   (VMap [("a", VInt 7)])))
  = Some (VMap [("a", VInt 7)], []).
Proof. vm_compute. reflexivity. Qed.

(** C2, as stated, fails: a value of interface type is not completed as an
    object; the completion panics. *)
Lemma abstract_completion_panics :
  runFirstField 10 (oneFieldQuery (types.Interface "Pet") (VString "dog"))
    = Panic "unimplemented" /\
  ~ exists st r,
      runFirstField 10 (oneFieldQuery (types.Interface "Pet") (VString "dog")) = Done st /\
      results st !! 1 = Some r /\ resultKind r = ResultKindObject.
Proof.
  assert (H : runFirstField 10 (oneFieldQuery (types.Interface "Pet") (VString "dog"))
              = Panic "unimplemented") by (vm_compute; reflexivity).
  split; [exact H|]. intros (st & r & Hd & _). rewrite H in Hd. discriminate.
Qed.

Lemma abstract_completion_unimplemented_witness :
  sampleComplete 10 (oneFieldQuery (types.Union "SearchResult") (VInt 1))
    (mkExecuteNodeTask 1 1 VNil) (types.Union "SearchResult") 1 (VInt 1) emptyState
  = Panic "unimplemented".
Proof.
  apply (abstract_completion_unimplemented samples.sampleDirectiveValues
           samples.sampleArgumentValues samples.typeNotation
           (fun _ _ => "Query") samplePath sampleResultCoercionError
           10 (oneFieldQuery (types.Union "SearchResult") (VInt 1))
           (mkExecuteNodeTask 1 1 VNil) (types.Union "SearchResult") 1 (VInt 1)
           emptyState); [reflexivity|reflexivity|discriminate].
Defined.

Lemma elementLoopStart_wf : wfResults (results elementLoopStart).
Proof.
  intros a n p Ha Hp.
  do 5 (destruct a as [|a];
        [simpl in Ha; inversion Ha; subst; simpl in Hp; inversion Hp; lia|]).
  discriminate.
Qed.

Lemma list_completion_stops_when_list_is_nil_witness :
  exists stI,
    sampleElementsLoop 10 sampleListContext sampleTask samples.Int 1
      (zip (seq 2 3) [VInt 1; VString "x"; VInt 3]) elementLoopStart = Done stI /\
    forall j, 1 < j -> j < 3 ->
      results stI !! (2 + j) = results elementLoopStart !! (2 + j).
Proof.
  eexists.
  eapply (list_completion_stops_when_list_is_nil
            samples.sampleDirectiveValues samples.sampleArgumentValues
            samples.typeNotation samplePath sampleResultCoercionError
            10 sampleListContext sampleTask samples.Int 1
            2 [VInt 1; VString "x"; VInt 3] elementLoopStart _ _ 1 (VString "x")).
  - exact elementLoopStart_wf.
  - lia.
  - simpl. lia.
  - reflexivity.
  - eapply ranThrough_cons; [vm_compute; reflexivity|by left|apply ranThrough_nil].
  - vm_compute. reflexivity.
  - vm_compute. reflexivity.
Defined.

End completion_facts.

(* ===================================================================== *)
(** ** Strings *)
(* ===================================================================== *)

Module string_facts.

Lemma append_cons x (a b : string) : String x a +:+ b = String x (a +:+ b).
Proof. reflexivity. Qed.

Lemma append_assoc (a b c : string) : (a +:+ b) +:+ c = a +:+ (b +:+ c).
Proof. induction a as [|x a IH]; [done|]. rewrite !append_cons. by rewrite IH. Qed.

Lemma append_nil_r (a : string) : a +:+ "" = a.
Proof. induction a as [|x a IH]; [done|]. by rewrite append_cons, IH. Qed.

Lemma length_append (a b : string) :
  String.length (a +:+ b) = String.length a + String.length b.
Proof. induction a as [|x a IH]; [done|]. rewrite append_cons. simpl. by rewrite IH. Qed.

Lemma length_zero (a : string) : String.length a = 0 -> a = "".
Proof. by destruct a. Qed.

End string_facts.

(* ===================================================================== *)
(** ** Properties of OrList *)
(* ===================================================================== *)

Module orlist_facts.
Import util orlist_spec string_facts.


Lemma OrList_take (items : list string) (maxLength : nat) (quoted : bool) :
  0 < maxLength ->
  OrList items maxLength quoted = OrList (take maxLength items) maxLength quoted.
Proof.
  intros Hm. unfold OrList.
  destruct items as [|first rest]; [by destruct maxLength|].
  destruct maxLength as [|m]; [lia|].
  rewrite decide_False by (simpl; lia).
  rewrite (decide_False (P := length (take (S m) (first :: rest)) <= 0)) by (simpl; lia).
  case_decide as Hlt.
  - rewrite decide_False by (rewrite length_take; lia).
    rewrite decide_False by (rewrite length_take; lia).
    rewrite length_take. simpl in *.
    by replace (m `min` length rest) with m by lia.
  - rewrite decide_False by (rewrite length_take; lia).
    rewrite decide_False by (rewrite length_take; lia).
    rewrite take_ge by lia. done.
Qed.

Lemma orListRest_commas numItems quoted last : forall mid i,
  2 < numItems -> i + length mid = numItems - 1 ->
  orListRest numItems i (mid ++ [last]) quoted =
  commaItems quoted mid +:+ ", or " +:+ writeItem quoted last.
Proof.
  induction mid as [|x mid IH]; intros i Hn Hi; simpl in *.
  - rewrite decide_True by done. rewrite decide_True by lia.
    simpl. by rewrite append_nil_r.
  - rewrite decide_True by done. rewrite decide_False by lia.
    rewrite (IH (S i)) by lia. simpl.
    by rewrite !append_assoc.
Qed.

Lemma OrList_all (items : list string) (maxLength : nat) (quoted : bool) :
  length items <= maxLength ->
  OrList items maxLength quoted = Some (orText quoted items).
Proof.
  intros Hm. unfold OrList.
  destruct items as [|a [|b [|c rest]]].
  - done.
  - simpl in *. rewrite !decide_False by lia. simpl. by rewrite append_nil_r.
  - simpl in *. rewrite !decide_False by lia. simpl. by rewrite append_nil_r.
  - rewrite decide_False by (simpl; lia). rewrite !decide_False by lia.
    f_equal. unfold orText. f_equal.
    set (tail := b :: c :: rest) in *.
    assert (Hne : tail <> []) by done.
    pose proof (app_removelast_last "" Hne) as Htail.
    assert (Hl : length tail = length (removelast tail) + 1).
    { rewrite Htail at 1. by rewrite length_app. }
    change (length (a :: tail)) with (S (length tail)). rewrite Hl.
    trans (orListRest (S (length (removelast tail) + 1)) 1
             (removelast tail ++ [List.last tail ""]) quoted);
      [by rewrite <- Htail|].
    assert (2 <= length tail) by (unfold tail; simpl; lia).
    apply orListRest_commas; lia.
Qed.



End orlist_facts.

(* ===================================================================== *)
(** ** Properties of response paths *)
(* ===================================================================== *)

Module path_facts.
Import graphql response_path string_facts.

Lemma writeKeys_app ks1 : forall ks2 b,
  writeKeys (ks1 ++ ks2) b = writeKeys ks2 (writeKeys ks1 b).
Proof.
  induction ks1 as [|[name|index] ks1 IH]; intros ks2 b; simpl; [done| |]; by rewrite IH.
Qed.

(** X3. The text of a path is built key by key: appending a field name adds the
    name, after a dot unless nothing was written so far; appending an index
    adds the index between brackets. *)
Theorem ResponsePath_String_append (path : ResponsePath) (name : string) (index : Z) :
  ResponsePath_String (AppendFieldName path name) =
    (if decide (ResponsePath_String path = "") then name
     else ResponsePath_String path +:+ "." +:+ name) /\
  ResponsePath_String (AppendIndex path index) =
    ResponsePath_String path +:+ "[" +:+ pretty index +:+ "]".
Proof.
  unfold ResponsePath_String, AppendFieldName, AppendIndex. simpl.
  rewrite !writeKeys_app. simpl. split; [|done].
  set (b := writeKeys (keys path) "").
  destruct b as [|x b]; simpl.
  - done.
  - by rewrite append_assoc.
Qed.

End path_facts.

(* ===================================================================== *)
(** ** What an error takes from its arguments and from its cause *)
(* ===================================================================== *)

Module inheritance_facts.
Import graphql error_spec inheritance_spec.

Lemma last_cons_any {A} (x d : A) xs : List.last (x :: xs) d = List.last xs x.
Proof.
  revert x d. induction xs as [|y xs IH]; intros x d; [reflexivity|].
  change (List.last (y :: xs) d = List.last (y :: xs) x).
  by rewrite (IH y d), (IH y x).
Qed.

Lemma applyArgs_fields args : forall e,
  Forall recognised args ->
  applyArgs e args =
  inl (mkError (Message e)
         (List.last (locationArgs args) (Locations e))
         (List.last (pathArgs args) (Path e))
         (List.last (extensionsArgs args) (Extensions e))
         (List.last (errArgs args) (Err e))
         (List.last (opArgs args) (Op e))
         (List.last (kindArgs args) (Kind e))).
Proof.
  induction args as [|a args IH]; intros e Hrec.
  - by destruct e.
  - apply Forall_cons in Hrec as [Ha Hrec].
    destruct a; try done; cbn [applyArgs]; rewrite (IH _ Hrec); f_equal.
    + change (locationArgs (ArgErrorLocation l :: args)) with ([l] :: locationArgs args).
      by rewrite last_cons_any.
    + change (locationArgs (ArgErrorLocations ls :: args)) with (ls :: locationArgs args).
      by rewrite last_cons_any.
    + change (pathArgs (ArgResponsePath p :: args)) with (p :: pathArgs args).
      by rewrite last_cons_any.
    + change (extensionsArgs (ArgErrorExtensions x :: args)) with (x :: extensionsArgs args).
      by rewrite last_cons_any.
    + change (errArgs (ArgError err :: args)) with (Some err :: errArgs args).
      by rewrite last_cons_any.
    + change (opArgs (ArgOp op :: args)) with (op :: opArgs args).
      by rewrite last_cons_any.
    + change (kindArgs (ArgErrKind k :: args)) with (k :: kindArgs args).
      by rewrite last_cons_any.
Qed.

Lemma NewError_given message args :
  Forall recognised args ->
  NewError message args =
  CoreError (propagate (mkError message (givenLocations args) (givenPath args)
                          (givenExtensions args) (givenErr args) (givenOp args)
                          (givenKind args))).
Proof. intros Hrec. unfold NewError. by rewrite applyArgs_fields. Qed.

Lemma Clone_id (path : ResponsePath) : Clone path = path.
Proof. destruct path as [[|k ks]]; reflexivity. Qed.

(** X4. The message, the operation and the cause of the error [NewError]
    returns are the ones given, whatever the cause holds; without a cause
    the locations, the path, the extensions and the kind are the given ones
    too. *)
Theorem NewError_keeps_given (message : string) (args : list Arg) :
  Forall recognised args ->
  exists e, NewError message args = CoreError e /\
    Message e = message /\ Op e = givenOp args /\ Err e = givenErr args /\
    (givenErr args = None ->
     Locations e = givenLocations args /\ Path e = givenPath args /\
     Extensions e = givenExtensions args /\ Kind e = givenKind args).
Proof.
  intros Hrec. rewrite NewError_given by done. eexists. split; [done|].
  unfold propagate. cbn [Err].
  destruct (givenErr args) as [prev|]; [|done].
  unfold propagateKind, propagateExtensions, propagatePath, propagateLocations.
  split_and!; try done;
    repeat (case_decide || case_match); done.
Qed.

Lemma NewError_keeps_given_witness :
  exists e,
    NewError "m" [ArgOp "parse"; ArgErrKind ErrKindSyntax; ArgOp "lex"] = CoreError e /\
    Message e = "m" /\ Op e = "lex" /\ Err e = None /\
    (givenErr [ArgOp "parse"; ArgErrKind ErrKindSyntax; ArgOp "lex"] = None ->
     Locations e = [] /\ Path e = None /\ Extensions e = None /\ Kind e = ErrKindSyntax).
Proof.
  apply (NewError_keeps_given "m" [ArgOp "parse"; ArgErrKind ErrKindSyntax; ArgOp "lex"]).
  repeat constructor.
Defined.

Lemma propagate_core e c :
  Err e = Some (CoreError c) ->
  propagate e =
  mkError (Message e)
    (if decide (Locations e = []) then Locations c else Locations e)
    (match Path e with Some p => Some p | None => Path c end)
    (match Extensions e with Some x => Some x | None => Extensions c end)
    (Err e) (Op e)
    (if decide (Kind e = ErrKindOther) then Kind c else Kind e).
Proof.
  destruct e as [m ls p x err op k], c as [cm cls cp cx cerr cop ck].
  cbn [Err Message Locations Path Extensions Op Kind]. intros ->.
  unfold propagate. cbn [Err].
  assert (HL : propagateLocations
                 (mkError m ls p x (Some (CoreError (mkError cm cls cp cx cerr cop ck))) op k)
                 (CoreError (mkError cm cls cp cx cerr cop ck)) =
               mkError m (if decide (ls = []) then cls else ls) p x
                 (Some (CoreError (mkError cm cls cp cx cerr cop ck))) op k).
  { unfold propagateLocations. cbn [Locations].
    destruct ls as [|l ls]; [|by rewrite decide_False by (simpl; lia)].
    rewrite decide_True by done. rewrite (decide_True (P := [] = [])) by done.
    destruct cls as [|l' cls]; [by rewrite decide_False by (simpl; lia)|].
    by rewrite decide_True by (simpl; lia). }
  rewrite HL. clear HL.
  unfold propagatePath. cbn [Path].
  assert (HP : match p with
               | Some _ =>
                   mkError m (if decide (ls = []) then cls else ls) p x
                     (Some (CoreError (mkError cm cls cp cx cerr cop ck))) op k
               | None =>
                   match cp with
                   | Some pp =>
                       setPath
                         (mkError m (if decide (ls = []) then cls else ls) p x
                            (Some (CoreError (mkError cm cls cp cx cerr cop ck))) op k)
                         (Some (Clone pp))
                   | None =>
                       mkError m (if decide (ls = []) then cls else ls) p x
                         (Some (CoreError (mkError cm cls cp cx cerr cop ck))) op k
                   end
               end =
               mkError m (if decide (ls = []) then cls else ls)
                 (match p with Some q => Some q | None => cp end) x
                 (Some (CoreError (mkError cm cls cp cx cerr cop ck))) op k).
  { destruct p as [q|]; [done|]. destruct cp as [pp|]; [|done].
    unfold setPath. cbn. by rewrite Clone_id. }
  rewrite HP. clear HP.
  unfold propagateExtensions, propagateKind. cbn [Extensions Kind].
  destruct x as [x|]; cbn [Kind setExtensions Message Locations Path Extensions Err Op];
    by case_decide.
Qed.

Lemma propagate_foreign e f :
  Err e = Some (ForeignError f) ->
  propagate e =
  mkError (Message e)
    (if decide (Locations e = []) then default [] (withLocations f) else Locations e)
    (match Path e with Some p => Some p | None => default None (withPath f) end)
    (match Extensions e with Some x => Some x | None => default None (withExtensions f) end)
    (Err e) (Op e) (Kind e).
Proof.
  destruct e as [m ls p x err op k], f as [text fl fp fx].
  cbn [Err Message Locations Path Extensions Op Kind]. intros ->.
  unfold propagate, propagateLocations, propagatePath, propagateExtensions, propagateKind.
  cbn [Err Locations withLocations].
  destruct ls as [|l ls], fl as [fl|], p as [q|], fp as [fp|], x as [x|], fx as [fx|];
    cbn; repeat (case_decide; cbn); simpl in *; try done; try lia.
Qed.

(** X5. With a core error as its cause, [NewError] keeps the locations, the path
    and the extensions it was given and takes from the cause the ones it was
    not given: the locations when none (or an empty list) were given, the
    path when none (or nil) was given, the extensions when none (or nil)
    were given. *)
Theorem NewError_inherits_from_core (message : string) (args : list Arg) (c : Error) :
  Forall recognised args ->
  givenErr args = Some (CoreError c) ->
  exists e, NewError message args = CoreError e /\
    Locations e = (if decide (givenLocations args = []) then Locations c
                   else givenLocations args) /\
    Path e = (match givenPath args with Some p => Some p | None => Path c end) /\
    Extensions e = (match givenExtensions args with
                    | Some x => Some x
                    | None => Extensions c
                    end).
Proof.
  intros Hrec Hc. rewrite NewError_given by done. eexists. split; [done|].
  rewrite (propagate_core _ c) by exact Hc. done.
Qed.

Lemma NewError_inherits_from_core_witness :
  let c := mkError "inner" [Build_ErrorLocation 3 7]
             (Some (Build_ResponsePath [KeyName "a"; KeyIndex 2]))
             (Some [("code", "42")]) None "" ErrKindExecution in
  let args := [ArgError (CoreError c); ArgResponsePath (Some (Build_ResponsePath [KeyName "b"]))] in
  exists e, NewError "outer" args = CoreError e /\
    Locations e = [Build_ErrorLocation 3 7] /\
    Path e = Some (Build_ResponsePath [KeyName "b"]) /\
    Extensions e = Some [("code", "42")].
Proof.
  intros c args.
  apply (NewError_inherits_from_core "outer" args c); [repeat constructor|reflexivity].
Defined.

(** X6. With a cause that is not a core error, [NewError] takes the locations,
    the path and the extensions it was not given from the provider
    interfaces the cause implements, and nothing from a cause that
    implements none; the kind is the given one: it is never taken from such
    a cause. *)
Theorem NewError_inherits_from_foreign (message : string) (args : list Arg) (f : Foreign) :
  Forall recognised args ->
  givenErr args = Some (ForeignError f) ->
  exists e, NewError message args = CoreError e /\
    Locations e = (if decide (givenLocations args = []) then default [] (withLocations f)
                   else givenLocations args) /\
    Path e = (match givenPath args with
              | Some p => Some p
              | None => default None (withPath f)
              end) /\
    Extensions e = (match givenExtensions args with
                    | Some x => Some x
                    | None => default None (withExtensions f)
                    end) /\
    Kind e = givenKind args.
Proof.
  intros Hrec Hf. rewrite NewError_given by done. eexists. split; [done|].
  rewrite (propagate_foreign _ f) by exact Hf. done.
Qed.

Lemma NewError_inherits_from_foreign_witness :
  let f := mkForeign "io" (Some [Build_ErrorLocation 1 1]) None None in
  let args := [ArgError (ForeignError f)] in
  exists e, NewError "outer" args = CoreError e /\
    Locations e = [Build_ErrorLocation 1 1] /\ Path e = None /\
    Extensions e = None /\ Kind e = ErrKindOther.
Proof.
  intros f args.
  apply (NewError_inherits_from_foreign "outer" args f); [repeat constructor|reflexivity].
Defined.

Lemma WrapError_core (c : Error) (message : string) :
  WrapError (CoreError c) message =
  CoreError (mkError message (Locations c) (Path c) (Extensions c)
               (Some (CoreError c)) "" (Kind c)).
Proof.
  unfold WrapError, NewError. cbn [applyArgs setErr Message Locations Path Extensions Op Kind].
  rewrite (propagate_core _ c) by done. done.
Qed.

(** X7. Wrapping composes: however many times a core error is wrapped, the
    outermost error carries the last message and the locations, the path,
    the extensions and the kind of the innermost one. *)
Theorem WrapError_chain (c : Error) (messages : list string) :
  messages <> [] ->
  exists e, wrapAll (CoreError c) messages = CoreError e /\
    Message e = List.last messages "" /\
    Locations e = Locations c /\ Path e = Path c /\
    Extensions e = Extensions c /\ Kind e = Kind c /\ Op e = "".
Proof.
  induction messages as [|m ms IH] using rev_ind; [done|]. intros _.
  unfold wrapAll. rewrite fold_left_app. cbn [fold_left]. rewrite last_last.
  destruct ms as [|m0 ms'] eqn:E.
  - cbn [fold_left]. rewrite WrapError_core. by eexists.
  - rewrite <- E in *. destruct IH as (e & He & _ & Hl & Hp & Hx & Hk & _); [by subst|].
    unfold wrapAll in He. rewrite He, WrapError_core. eexists. split; [done|].
    by cbn.
Qed.

Lemma WrapError_chain_witness :
  let c := mkError "inner" [Build_ErrorLocation 3 7] None None None "resolve"
             ErrKindExecution in
  exists e, wrapAll (CoreError c) ["first"; "second"] = CoreError e /\
    Message e = "second" /\ Locations e = [Build_ErrorLocation 3 7] /\ Path e = None /\
    Extensions e = None /\ Kind e = ErrKindExecution /\ Op e = "".
Proof. intros c. apply (WrapError_chain c ["first"; "second"]). done. Defined.

End inheritance_facts.

(* ===================================================================== *)
(** ** Further properties of input coercion *)
(* ===================================================================== *)

Module coercion_results.
Import graphql types value coercion_spec element_spec.

(** Induction over types that reaches the types of the fields of an input
    object. *)
Lemma Type_fields_ind (P : Type_ -> Prop) :
  (forall name c1 c2, P (Scalar name c1 c2)) ->
  (forall name values c1 c2, P (Enum name values c1 c2)) ->
  (forall name fields,
     Forall (fun field => P (ifType field.2)) fields -> P (InputObject name fields)) ->
  (forall elementType, P elementType -> P (List elementType)) ->
  (forall innerType, P innerType -> P (NonNull innerType)) ->
  (forall name fields, P (Object name fields)) ->
  (forall name, P (Interface name)) ->
  (forall name, P (Union name)) ->
  forall t, P t.
Proof.
  intros HS HE HI HL HN HO HIf HU. fix IH 1. intros t. destruct t as
    [name c1 c2|name values c1 c2|name fields|elementType|innerType|name fields|name|name].
  - apply HS.
  - apply HE.
  - apply HI. induction fields as [|[k field] fields IHf]; constructor.
    + apply IH.
    + apply IHf.
  - apply HL, IH.
  - apply HN, IH.
  - apply HO.
  - apply HIf.
  - apply HU.
Qed.

Section Results.

Variable typeString : Type_ -> string.
Variable valueString : Value -> string.
Variable valueTypeString : Value -> string.
Variable SuggestionList : string -> list string -> list string.

Local Abbreviation coerce :=
  (coerceValueImpl typeString valueString valueTypeString SuggestionList).
Local Abbreviation fieldsLoop :=
  (coercion_spec.fieldsLoop typeString valueString valueTypeString SuggestionList).
Local Abbreviation elementResults :=
  (element_spec.elementResults typeString valueString valueTypeString SuggestionList).

(** X8. Coercion returns a value or errors, never both: whenever the error list
    is not empty the value is nil. *)
Theorem coerce_value_or_errors (value : Value) (t : Type_)
    (blameNode : option ErrorLocation) (path : valuePath) :
  (coerce value t blameNode path).2 = [] \/ (coerce value t blameNode path).1 = VNil.
Proof.
  revert value. induction t as
    [name c1 c2|name values c1 c2|name fields _|elementType _|innerType IH
    |name fields|name|name] using Type_fields_ind; intros value.
  - destruct value; simpl; try (by left); destruct (c1 _); simpl; auto.
  - destruct value; simpl; try (by left); destruct (c1 _); simpl; auto.
  - destruct value as [| | | | |objectValue| |]; try (by right); try (by left).
    rewrite coercion_facts.coerce_InputObject.
    destruct (fieldsLoop _ _ _ _ _) as [coercedValue errs]. cbn zeta.
    case_decide; simpl; auto.
  - destruct value as [| | | |elems| | |]; try (by left);
      cbn [coerceValueImpl];
      try (destruct (coerce _ elementType blameNode path) as [c errs];
           case_decide; simpl; by auto).
    case_decide; [by left|].
    match goal with |- context [let '(_, _) := ?x in _] => destruct x as [c errs] end.
    case_decide; simpl; auto.
  - rewrite coercion_facts.coerce_NonNull. destruct value; try apply IH. by right.
  - destruct value; simpl; auto.
  - destruct value; simpl; auto.
  - destruct value; simpl; auto.
Qed.

Lemma listStep_fold (rs : list (Value * Errors)) : forall vals errs,
  (fold_left (listStep) rs (vals, errs)).2 = errs ++ concat (map snd rs) /\
  (errs ++ concat (map snd rs) = [] ->
   (fold_left (listStep) rs (vals, errs)).1 = vals ++ map fst rs).
Proof.
  induction rs as [|[v es] rs IH]; intros vals errs; simpl.
  - rewrite !app_nil_r. done.
  - case_decide as Hes; [|case_decide as Herrs].
    + destruct (IH vals (errs ++ es)) as [H1 H2].
      rewrite H1, <- app_assoc. split; [done|].
      intros E. apply app_eq_nil in E as [_ E]. apply app_eq_nil in E as [-> _].
      simpl in Hes. lia.
    + destruct (IH (vals ++ [v]) errs) as [H1 H2].
      assert (es = []) as -> by (destruct es; [done|simpl in Hes; lia]).
      rewrite H1. simpl. split; [done|]. intros E. rewrite H2 by done.
      by rewrite <- app_assoc.
    + destruct (IH vals errs) as [H1 H2].
      assert (es = []) as -> by (destruct es; [done|simpl in Hes; lia]).
      rewrite H1. simpl. split; [done|]. intros E.
      apply app_eq_nil in E as [-> _]. done.
Qed.

Lemma coerce_VSlice (elems : list Value) (elementType : Type_)
    (blameNode : option ErrorLocation) (path : valuePath) :
  coerce (VSlice elems) (List elementType) blameNode path =
  if decide (concat (map snd (elementResults elementType blameNode path 0 elems)) = [])
  then (VSlice (map fst (elementResults elementType blameNode path 0 elems)), [])
  else (VNil, concat (map snd (elementResults elementType blameNode path 0 elems))).
Proof.
  cbn [coerceValueImpl].
  case_decide as Hlen.
  { by destruct elems. }
  match goal with
  | |- context [(let '(_, _) := ?loop 0%Z elems ([], []) in _)] =>
      assert (Hloop : forall elems i acc,
                 loop i elems acc =
                 fold_left listStep (elementResults elementType blameNode path i elems) acc)
  end.
  { clear. intros elems. induction elems as [|elem rest IH]; intros i acc; [done|].
    simpl. by rewrite IH. }
  rewrite Hloop. clear Hloop.
  destruct (listStep_fold (elementResults elementType blameNode path 0 elems) [] [])
    as [H1 H2].
  destruct (fold_left _ _ _) as [coercedValues errs]. simpl in H1, H2. subst errs.
  case_decide as Hn; case_decide as He; try done.
  - rewrite He in Hn. simpl in Hn. lia.
  - by rewrite H2.
  - destruct (concat _); [done|simpl in Hn; lia].
Qed.

(** X9. Coercion of a list does not stop at the first element that fails: the
    errors it returns are the errors of every element, in order, each
    element being coerced under the path extended with its index; when no
    element has an error the result is the list of the coerced elements. *)
Theorem coerce_list_collects_all_errors (elems : list Value) (elementType : Type_)
    (blameNode : option ErrorLocation) (path : valuePath) :
  let results := elementResults elementType blameNode path 0 elems in
  coerce (VSlice elems) (List elementType) blameNode path =
  if decide (concat (map snd results) = []) then (VSlice (map fst results), [])
  else (VNil, concat (map snd results)).
Proof. apply coerce_VSlice. Qed.

(** *** The location of the errors *)

Lemma newCoercionError_Locations message l path subMessage originalError :
  Locations (newCoercionError message (Some l) path subMessage originalError) = [l].
Proof.
  unfold newCoercionError. destruct originalError as [[c|f]|].
  - rewrite inheritance_facts.NewError_given by repeat constructor. cbn [assertError].
    by rewrite (inheritance_facts.propagate_core _ c).
  - rewrite inheritance_facts.NewError_given by repeat constructor. cbn [assertError].
    by rewrite (inheritance_facts.propagate_foreign _ f).
  - reflexivity.
Qed.

Lemma checkProvided_Forall (P : Error -> Prop) t fields blameNode path provided :
  (forall message subMessage, P (newCoercionError message blameNode path subMessage None)) ->
  forall errs, Forall P errs ->
  Forall P (checkProvided typeString SuggestionList t fields blameNode path provided errs).
Proof.
  intros HP. induction provided as [|name rest IH]; intros errs Herrs; simpl; [done|].
  destruct (lookupKey name fields); apply IH; [done|].
  apply Forall_app. split; [done|]. constructor; [apply HP|constructor].
Qed.

Lemma fieldsLoop_Forall (P : Error -> Prop) objectValue blameNode path fields :
  (forall message, P (newCoercionError message blameNode [] "" None)) ->
  Forall (fun field => forall value path,
            Forall P (coerce value (ifType field.2) blameNode path).2) fields ->
  forall acc, Forall P acc.2 ->
  Forall P (fieldsLoop objectValue blameNode path fields acc).2.
Proof.
  intros HP. induction fields as [|[name field] rest IH]; intros Hfields acc Hacc; [done|].
  apply Forall_cons in Hfields as [Hfield Hrest].
  unfold coercion_spec.fieldsLoop. cbn [fold_left]. apply IH; [done|].
  destruct acc as [coercedValue errs]. unfold fieldStep. simpl in Hacc.
  destruct (lookupKey name objectValue) as [fieldValue|].
  - specialize (Hfield fieldValue (NewObjectField path name)). simpl in Hfield.
    destruct (coerce fieldValue _ _ _) as [coercedField fieldErrs].
    repeat case_decide; simpl; try done. apply Forall_app. by split.
  - destruct (ifDefault field); [done|].
    destruct (IsNonNullType _); simpl; [|done].
    apply Forall_app. split; [done|]. constructor; [apply HP|constructor].
Qed.

(** X10. Every error that coercion returns for a value blamed on a node carries
    the location of that node, and no other, whatever the scalar's own
    error or the depth at which the error arose. *)
Theorem coerce_errors_carry_blame_location (value : Value) (t : Type_)
    (l : ErrorLocation) (path : valuePath) :
  Forall (fun e => Locations e = [l]) (coerce value t (Some l) path).2.
Proof.
  revert value path. induction t as
    [name c1 c2|name values c1 c2|name fields IHf|elementType IH|innerType IH
    |name fields|name|name] using Type_fields_ind; intros value path.
  - destruct value; cbn [coerceValueImpl snd]; try done;
      destruct (c1 _); cbn [snd]; try done;
      (constructor; [apply newCoercionError_Locations|constructor]).
  - destruct value; cbn [coerceValueImpl snd]; try done;
      destruct (c1 _); cbn [snd]; try done;
      (constructor; [apply newCoercionError_Locations|constructor]).
  - destruct value as [| | | | |objectValue| |];
      try (constructor; [apply newCoercionError_Locations|constructor]); [done|].
    rewrite coercion_facts.coerce_InputObject.
    pose proof (fieldsLoop_Forall (fun e => Locations e = [l]) objectValue (Some l)
                  path fields (fun m => newCoercionError_Locations m l [] "" None))
      as Hloop.
    specialize (Hloop ltac:(eapply Forall_impl; [exact IHf|]; intros field H v p; apply H)
                      ([], []) ltac:(constructor)).
    destruct (fieldsLoop _ _ _ _ _) as [coercedValue errs]. cbn zeta.
    simpl in Hloop. case_decide; simpl; [|done].
    apply checkProvided_Forall; [|done].
    intros m sub. apply newCoercionError_Locations.
  - destruct value as [| | | |elems| | |]; try done;
      try (cbn [coerceValueImpl];
           pose proof (IH ltac:(first [exact (VBool b)|exact (VInt n)|exact (VString s)
                                      |exact (VMap entries)|exact (VError e)
                                      |exact (VOpaque goType repr)]) path) as H;
           destruct (coerce _ elementType (Some l) path) as [c errs];
           case_decide; simpl; by auto).
    rewrite coerce_VSlice. case_decide as He; [done|]. simpl. clear He.
    generalize 0%Z. induction elems as [|elem rest IHe]; intros i; simpl; [done|].
    apply Forall_app. split; [apply IH|apply IHe].
  - rewrite coercion_facts.coerce_NonNull. destruct value; try apply IH.
    constructor; [apply newCoercionError_Locations|constructor].
  - destruct value; cbn [coerceValueImpl snd]; try done;
      (constructor; [apply newCoercionError_Locations|constructor]).
  - destruct value; cbn [coerceValueImpl snd]; try done;
      (constructor; [apply newCoercionError_Locations|constructor]).
  - destruct value; cbn [coerceValueImpl snd]; try done;
      (constructor; [apply newCoercionError_Locations|constructor]).
Qed.

(** *** Input objects *)

Lemma checkProvided_grows t fields blameNode path provided : forall errs e,
  e ∈ errs ->
  e ∈ checkProvided typeString SuggestionList t fields blameNode path provided errs.
Proof.
  induction provided as [|name rest IH]; intros errs e He; simpl; [done|].
  destruct (lookupKey name fields); apply IH; [done|].
  apply elem_of_app. by left.
Qed.

Lemma checkProvided_reports t fields blameNode path provided name : forall errs,
  name ∈ provided ->
  lookupKey name fields = None ->
  newCoercionError
    ("Field " +:+ util.dquote +:+ name +:+ util.dquote
     +:+ " is not defined by type " +:+ typeString t)
    blameNode path (didYouMean (SuggestionList name (map fst fields))) None
  ∈ checkProvided typeString SuggestionList t fields blameNode path provided errs.
Proof.
  induction provided as [|k rest IH]; intros errs Hin Hn.
  - by apply elem_of_nil in Hin.
  - apply elem_of_cons in Hin as [<-|Hin]; simpl.
    + rewrite Hn. apply checkProvided_grows. apply elem_of_app. right.
      by apply list_elem_of_singleton.
    + destruct (lookupKey k fields); by apply IH.
Qed.

Lemma fieldStep_grows name field objectValue blameNode path coerceField acc e :
  e ∈ acc.2 ->
  e ∈ (fieldStep typeString name field objectValue blameNode path coerceField acc).2.
Proof.
  destruct acc as [coercedValue errs]. unfold fieldStep. simpl. intros He.
  destruct (lookupKey name objectValue) as [fieldValue|].
  - destruct (coerceField fieldValue) as [coercedField fieldErrs].
    repeat case_decide; simpl; try done. apply elem_of_app. by left.
  - destruct (ifDefault field); [done|].
    destruct (IsNonNullType _); simpl; [|done]. apply elem_of_app. by left.
Qed.

Lemma fieldsLoop_grows objectValue blameNode path fields : forall acc e,
  e ∈ acc.2 -> e ∈ (fieldsLoop objectValue blameNode path fields acc).2.
Proof.
  induction fields as [|[name field] rest IH]; intros acc e He; [done|].
  unfold coercion_spec.fieldsLoop. cbn [fold_left]. apply IH.
  by apply fieldStep_grows.
Qed.

Lemma fieldsLoop_reports objectValue blameNode path fields name field : forall acc,
  (name, field) ∈ fields ->
  lookupKey name objectValue = None ->
  ifDefault field = None ->
  IsNonNullType (ifType field) = true ->
  newCoercionError
    ("Field " +:+ valuePath_String (NewObjectField path name)
     +:+ " of required type " +:+ typeString (ifType field) +:+ " was not provided")
    blameNode [] "" None
  ∈ (fieldsLoop objectValue blameNode path fields acc).2.
Proof.
  induction fields as [|[k f] rest IH]; intros acc Hin Hobj Hdef Hnn.
  - by apply elem_of_nil in Hin.
  - unfold coercion_spec.fieldsLoop. cbn [fold_left].
    apply elem_of_cons in Hin as [Heq|Hin]; [|by apply IH].
    inversion Heq; subst k f. apply fieldsLoop_grows.
    destruct acc as [coercedValue errs]. unfold fieldStep.
    rewrite Hobj, Hdef, Hnn. simpl. apply elem_of_app. right.
    by apply list_elem_of_singleton.
Qed.

Lemma coerce_InputObject_fails objectValue name fields blameNode path e :
  e ∈ checkProvided typeString SuggestionList (InputObject name fields) fields blameNode
        path (map fst objectValue)
        (fieldsLoop objectValue blameNode path fields ([], [])).2 ->
  (coerce (VMap objectValue) (InputObject name fields) blameNode path).1 = VNil /\
  e ∈ (coerce (VMap objectValue) (InputObject name fields) blameNode path).2.
Proof.
  rewrite coercion_facts.coerce_InputObject.
  destruct (fieldsLoop _ _ _ _ _) as [coercedValue errs]. cbn zeta. cbn [snd].
  intros He. case_decide as Hl; [done|].
  destruct (checkProvided _ _ _ _ _ _ _ _); [by apply elem_of_nil in He|].
  simpl in Hl. lia.
Qed.

(** X11. An input object rejects unknown fields: when the value has a key that
    the type does not define, coercion returns nil, and the error "Field
    <key, quoted> is not defined by type <type>" (with the position and the
    suggestions, if any) is among the errors returned. *)
Theorem coerce_rejects_unknown_field (objectValue : list (string * Value))
    (name : string) (fields : list (string * InputField))
    (blameNode : option ErrorLocation) (path : valuePath) (key : string) :
  key ∈ map fst objectValue ->
  lookupKey key fields = None ->
  (coerce (VMap objectValue) (InputObject name fields) blameNode path).1 = VNil /\
  newCoercionError
    ("Field " +:+ util.dquote +:+ key +:+ util.dquote
     +:+ " is not defined by type " +:+ typeString (InputObject name fields))
    blameNode path (didYouMean (SuggestionList key (map fst fields))) None
  ∈ (coerce (VMap objectValue) (InputObject name fields) blameNode path).2.
Proof.
  intros Hin Hn. apply coerce_InputObject_fails. by apply checkProvided_reports.
Qed.

(** X12. An input object requires its non-null fields: when a field of non-null
    type without a default value is missing from the value, coercion returns
    nil, and the error "Field <path of the field> of required type <type>
    was not provided." is among the errors returned. *)
Theorem coerce_requires_non_null_fields (objectValue : list (string * Value))
    (name : string) (fields : list (string * InputField))
    (blameNode : option ErrorLocation) (path : valuePath)
    (key : string) (field : InputField) :
  (key, field) ∈ fields ->
  lookupKey key objectValue = None ->
  ifDefault field = None ->
  IsNonNullType (ifType field) = true ->
  (coerce (VMap objectValue) (InputObject name fields) blameNode path).1 = VNil /\
  newCoercionError
    ("Field " +:+ valuePath_String (NewObjectField path key)
     +:+ " of required type " +:+ typeString (ifType field) +:+ " was not provided")
    blameNode [] "" None
  ∈ (coerce (VMap objectValue) (InputObject name fields) blameNode path).2.
Proof.
  intros Hin Hobj Hdef Hnn. apply coerce_InputObject_fails.
  apply checkProvided_grows. by apply fieldsLoop_reports.
Qed.

Lemma lookupKey_setKey_eq {A} (k : string) (v : A) (m : list (string * A)) :
  lookupKey k (setKey k v m) = Some v.
Proof.
  induction m as [|[k' w] m IH]; simpl.
  - by rewrite String.eqb_refl.
  - destruct (String.eqb_spec k' k) as [->|Hne]; simpl.
    + by rewrite String.eqb_refl.
    + destruct (String.eqb_spec k' k); [done|]. exact IH.
Qed.

Lemma lookupKey_setKey_ne {A} (k k' : string) (v : A) (m : list (string * A)) :
  k <> k' -> lookupKey k' (setKey k v m) = lookupKey k' m.
Proof.
  intros Hne. induction m as [|[k0 w] m IH]; simpl.
  - destruct (String.eqb_spec k k'); [done|done].
  - destruct (String.eqb_spec k0 k) as [->|Hk]; simpl.
    + destruct (String.eqb_spec k k'); [done|done].
    + destruct (String.eqb_spec k0 k'); [done|exact IH].
Qed.

Lemma fieldsLoop_success objectValue blameNode path fields : forall acc out,
  NoDup (map fst fields) ->
  fieldsLoop objectValue blameNode path fields acc = (out, []) ->
  acc.2 = [] /\
  forall key,
    lookupKey key out =
    match lookupKey key fields with
    | Some field =>
        match lookupKey key objectValue with
        | Some fieldValue =>
            Some (coerce fieldValue (ifType field) blameNode (NewObjectField path key)).1
        | None =>
            match ifDefault field with
            | Some d => Some d
            | None => lookupKey key acc.1
            end
        end
    | None => lookupKey key acc.1
    end.
Proof.
  induction fields as [|[k f] rest IH]; intros acc out Hnd H.
  - unfold coercion_spec.fieldsLoop in H. simpl in H. subst acc. done.
  - apply NoDup_cons in Hnd as [Hk Hnd].
    unfold coercion_spec.fieldsLoop in H. cbn [fold_left] in H.
    apply (IH _ _ Hnd) in H as [Hs Hout]. clear IH.
    apply coercion_facts.lookupKey_None in Hk.
    destruct acc as [coercedValue errs]. unfold fieldStep in Hs, Hout.
    cbn [fst snd] in *.
    destruct (lookupKey k objectValue) as [fieldValue|] eqn:Hobj.
    + destruct (coerce fieldValue (ifType f) blameNode (NewObjectField path k))
        as [coercedField fieldErrs] eqn:Hc.
      case_decide as Hfe; cbn [fst snd] in *.
      { apply app_eq_nil in Hs as [_ ->]. simpl in Hfe. lia. }
      case_decide as Herrs; cbn [fst snd] in *; subst errs; [|done].
      split; [done|]. intros key. rewrite (Hout key).
      destruct (decide (key = k)) as [->|Hne].
      * rewrite Hk. cbn [lookupKey]. rewrite String.eqb_refl, Hobj, Hc.
        apply lookupKey_setKey_eq.
      * rewrite (coercion_facts.lookupKey_cons_ne key k) by done.
        by rewrite lookupKey_setKey_ne by done.
    + destruct (ifDefault f) as [d|] eqn:Hd; cbn [fst snd] in *.
      * split; [done|]. intros key. rewrite (Hout key).
        destruct (decide (key = k)) as [->|Hne].
        -- rewrite Hk. cbn [lookupKey]. rewrite String.eqb_refl, Hobj, Hd.
           apply lookupKey_setKey_eq.
        -- rewrite (coercion_facts.lookupKey_cons_ne key k) by done.
           by rewrite lookupKey_setKey_ne by done.
      * destruct (IsNonNullType (ifType f)); cbn [fst snd] in *.
        { by destruct errs. }
        split; [done|]. intros key. rewrite (Hout key).
        destruct (decide (key = k)) as [->|Hne].
        -- rewrite Hk. cbn [lookupKey]. by rewrite String.eqb_refl, Hobj, Hd.
        -- by rewrite (coercion_facts.lookupKey_cons_ne key k) by done.
Qed.

(** X13. What a successful coercion of an input object holds: every key of the
    value is a field of the type, and the result has exactly the declared
    fields that were provided or have a default: a provided field holds its
    value coerced against the field's type under the path extended with the
    field's name, a missing field with a default holds the default as it
    is, and any other name is absent. *)
Theorem coerce_object_fields (objectValue out : list (string * Value))
    (name : string) (fields : list (string * InputField))
    (blameNode : option ErrorLocation) (path : valuePath) :
  NoDup (map fst fields) ->
  coerce (VMap objectValue) (InputObject name fields) blameNode path = (VMap out, []) ->
  Forall (fun key => lookupKey key fields <> None) (map fst objectValue) /\
  forall key,
    lookupKey key out =
    match lookupKey key fields with
    | Some field =>
        match lookupKey key objectValue with
        | Some fieldValue =>
            Some (coerce fieldValue (ifType field) blameNode (NewObjectField path key)).1
        | None => ifDefault field
        end
    | None => None
    end.
Proof.
  intros Hnd. rewrite coercion_facts.coerce_InputObject.
  destruct (fieldsLoop objectValue blameNode path fields ([], []))
    as [coercedValue errs] eqn:Hloop. cbn zeta.
  case_decide as Hl; [discriminate|]. intros H. inversion H; subst out; clear H.
  assert (Hnil : checkProvided typeString SuggestionList (InputObject name fields) fields
                   blameNode path (map fst objectValue) errs = []).
  { destruct (checkProvided _ _ _ _ _ _ _ _); [done|]. simpl in Hl. lia. }
  apply coercion_facts.checkProvided_nil in Hnil as [-> Hdefined].
  split; [done|].
  destruct (fieldsLoop_success _ _ _ _ _ _ Hnd Hloop) as [_ Hout].
  intros key. rewrite (Hout key). simpl.
  destruct (lookupKey key fields) as [field|]; [|done].
  destruct (lookupKey key objectValue); [done|]. by destruct (ifDefault field).
Qed.

End Results.

Import samples.

Lemma coerce_rejects_unknown_field_witness :
  (coerceWith (VMap [("tag", VString "a"); ("agee", VInt 30)]) Page None []).1 = VNil /\
  newCoercionError
    ("Field " +:+ util.dquote +:+ "agee" +:+ util.dquote
     +:+ " is not defined by type " +:+ typeNotation Page)
    None [] (didYouMean (noSuggestions "agee" ["limit"; "tag"])) None
  ∈ (coerceWith (VMap [("tag", VString "a"); ("agee", VInt 30)]) Page None []).2.
Proof.
  apply (coerce_rejects_unknown_field typeNotation noRendering noRendering noSuggestions
           [("tag", VString "a"); ("agee", VInt 30)] "Page"
           [("limit", mkInputField Int (Some (VInt 10)));
            ("tag", mkInputField String_ None)]
           None [] "agee").
  - right. left.
  - reflexivity.
Defined.

Lemma coerce_requires_non_null_fields_witness :
  let User := InputObject "User" [("name", mkInputField (NonNull String_) None);
                                  ("age", mkInputField Int None)] in
  (coerceWith (VMap [("age", VInt 30)]) User None []).1 = VNil /\
  newCoercionError
    ("Field " +:+ valuePath_String (NewObjectField [] "name")
     +:+ " of required type " +:+ typeNotation (NonNull String_) +:+ " was not provided")
    None [] "" None
  ∈ (coerceWith (VMap [("age", VInt 30)]) User None []).2.
Proof.
  apply (coerce_requires_non_null_fields typeNotation noRendering noRendering
           noSuggestions [("age", VInt 30)] "User"
           [("name", mkInputField (NonNull String_) None);
            ("age", mkInputField Int None)]
           None [] "name" (mkInputField (NonNull String_) None)).
  - left.
  - reflexivity.
  - reflexivity.
  - reflexivity.
Defined.

Lemma coerce_object_fields_witness :
  Forall (fun key => lookupKey key [("limit", mkInputField Int (Some (VInt 10)));
                                    ("tag", mkInputField String_ None)] <> None)
         ["tag"] /\
  forall key,
    lookupKey key [("limit", VInt 10); ("tag", VString "a")] =
    match lookupKey key [("limit", mkInputField Int (Some (VInt 10)));
                         ("tag", mkInputField String_ None)] with
    | Some field =>
        match lookupKey key [("tag", VString "a")] with
        | Some fieldValue =>
            Some (coerceWith fieldValue (ifType field) None (NewObjectField [] key)).1
        | None => ifDefault field
        end
    | None => None
    end.
Proof.
  apply (coerce_object_fields typeNotation noRendering noRendering noSuggestions
           [("tag", VString "a")] [("limit", VInt 10); ("tag", VString "a")] "Page"
           [("limit", mkInputField Int (Some (VInt 10)));
            ("tag", mkInputField String_ None)] None []).
  - apply (bool_decide_unpack _). vm_compute. exact I.
  - reflexivity.
Defined.

End coercion_results.

(* ===================================================================== *)
(** ** Further properties of the field collector *)
(* ===================================================================== *)

Module collected_facts.
Import graphql executor collector_spec collected_spec.

(** X14. For an object runtime type the type condition holds only when it names
    that very object type: a condition that names an interface or a union
    (or any other type, or none the schema knows) is not satisfied, and the
    possible types of the schema are not consulted. *)
Theorem type_condition_on_object_type (ctx : ExecutionContext) (typeCondition : string)
    (runtimeType : ObjectType) :
  doesTypeConditionSatisfy ctx typeCondition (asType runtimeType) =
  match TypeFromAST (OperationSchema ctx) typeCondition with
  | Some (types.Object name _) => String.eqb name (objectName runtimeType)
  | _ => false
  end.
Proof.
  unfold doesTypeConditionSatisfy, asType. cbn [isAbstractType].
  destruct (TypeFromAST _ _) as [[]|]; cbn [sameType]; try done.
  by destruct (String.eqb _ _).
Qed.

Section Collected.

Variable DirectiveValues :
  DirectiveDef -> list ast.Directive -> list (string * Value)
  -> error + list (string * Value).
Variable ArgumentValuesOf :
  types.Field -> ast.Field -> list (string * Value) -> error + list (string * Value).
Variables (ctx : ExecutionContext) (parentNode : nodeptr) (runtimeType : ObjectType).

Local Abbreviation process :=
  (processSelection DirectiveValues ArgumentValuesOf ctx parentNode runtimeType).
Local Abbreviation loop fuel :=
  (collectLoop DirectiveValues ArgumentValuesOf fuel ctx parentNode runtimeType).
Local Abbreviation collected :=
  (collectedFrom ArgumentValuesOf ctx parentNode runtimeType).

Lemma collected_appendDefinition f n : collected n -> collected (appendDefinition f n).
Proof.
  intros (Hp & Hc & first & fieldDef & Hh & Hf & Hd & Ha).
  split; [done|]. split; [done|]. exists first, fieldDef. split_and!; try done.
  simpl. by destruct (Definitions n).
Qed.

Lemma process_collected st data below sel st1 :
  process st data below sel = Done (inr st1) ->
  Forall collected (childNodes st) -> Forall collected (childNodes st1).
Proof.
  unfold processSelection. intros H Hall.
  destruct (shouldIncludeNode _ _ _) as [[err|[|]]| |]; try discriminate.
  2: { by inversion H; subst. }
  destruct sel as [f|typeCondition directives ss|fragmentName directives].
  - destruct (fields st !! ast.ResponseKey f) as [i|].
    + inversion H; subst; clear H. cbn [childNodes].
      apply Forall_lookup_2. intros j m Hm.
      destruct (decide (i = j)) as [->|Hne].
      * rewrite list_lookup_alter_eq in Hm.
        destruct (childNodes st !! j) as [n|] eqn:Hn; [|discriminate].
        inversion Hm; subst. apply collected_appendDefinition.
        by eapply Forall_lookup_1.
      * rewrite list_lookup_alter_ne in Hm by done. by eapply Forall_lookup_1.
    + destruct (findFieldDef _ _ _) as [fieldDef|] eqn:Hdef.
      * destruct (ArgumentValuesOf _ _ _) as [err|arguments] eqn:Hargs; [discriminate|].
        inversion H; subst; clear H. cbn [childNodes].
        apply Forall_app. split; [done|]. constructor; [|constructor].
        split; [done|]. split; [done|]. by exists f, fieldDef.
      * by inversion H; subst.
  - destruct (match typeCondition with
              | Some cond => doesTypeConditionSatisfy ctx cond (asType runtimeType)
              | None => true
              end); by inversion H; subst.
  - destruct (decide (fragmentName ∈ visitedFragmentNames st)).
    { by inversion H; subst. }
    destruct (FragmentDefs ctx !! fragmentName) as [fragmentDef|].
    + destruct (doesTypeConditionSatisfy _ _ _); by inversion H; subst.
    + by inversion H; subst.
Qed.

Lemma loop_collected fuel : forall st out,
  loop fuel st = Done (inr out) ->
  Forall collected (childNodes st) -> Forall collected out.
Proof.
  induction fuel as [|fuel IH]; intros st out H Hall; [discriminate|].
  simpl in H. destruct (stack st) as [|data below].
  - by inversion H; subst.
  - destruct (selectionSet data !! selectionIndex data) as [sel|]; [|by eapply IH].
    destruct (process st data below sel) as [[err|st1]| |] eqn:Hp; try discriminate.
    eapply IH; [done|]. by eapply process_collected.
Qed.

Lemma build_collected fuel parent out :
  buildChildExecutionNodesForSelectionSet DirectiveValues ArgumentValuesOf fuel ctx
    parentNode parent runtimeType = Done (inr out) ->
  Forall collected out.
Proof.
  unfold buildChildExecutionNodesForSelectionSet. intros H.
  eapply loop_collected; [done|]. constructor.
Qed.

(** X15. Every node the collector returns is a child of the parent node, has no
    children yet, and carries the field definition that the runtime type
    has for the name of its first definition together with the argument
    values computed for that first definition: no returned node lacks a
    field definition. *)
Theorem collected_nodes_are_defined_fields (fuel : nat) (parent : ExecutionNode)
    (out : list ExecutionNode) :
  buildChildExecutionNodesForSelectionSet DirectiveValues ArgumentValuesOf fuel ctx
    parentNode parent runtimeType = Done (inr out) ->
  Forall collected out.
Proof. apply build_collected. Qed.

End Collected.

Lemma collected_nodes_are_defined_fields_witness :
  Forall (collectedFrom samples.sampleArgumentValues samples.sampleABA 0 samples.QueryAB)
    (match samples.sampleBuild 10 samples.sampleABA 0 samples.rootNode samples.QueryAB with
     | Done (inr out) => out
     | _ => []
     end).
Proof.
  apply (collected_nodes_are_defined_fields samples.sampleDirectiveValues
           samples.sampleArgumentValues samples.sampleABA 0 samples.QueryAB 10
           samples.rootNode).
  vm_compute. reflexivity.
Defined.

Section Frame.

Variable DirectiveValues :
  DirectiveDef -> list ast.Directive -> list (string * Value)
  -> error + list (string * Value).
Variable ArgumentValuesOf :
  types.Field -> ast.Field -> list (string * Value) -> error + list (string * Value).

Local Abbreviation collect := (collectFields DirectiveValues ArgumentValuesOf).
Local Abbreviation build :=
  (buildChildExecutionNodesForSelectionSet DirectiveValues ArgumentValuesOf).

Lemma collectFields_frame (fuel : nat) (ctx : ExecutionContext)
    (node : nodeptr) (runtimeType : ObjectType) (st st' : State) (x : error + Slice) :
  collect fuel ctx node runtimeType st = Done (x, st') ->
  results st' = results st /\ queue st' = queue st /\ errs st' = errs st /\
  arrays st `prefix_of` arrays st' /\
  length (nodes st) <= length (nodes st') /\
  (forall i, i <> node -> i < length (nodes st) -> nodes st' !! i = nodes st !! i) /\
  sameButChildren st st' node.
Proof.
  unfold collectFields.
  destruct (nodes st !! node) as [n|] eqn:Hn; [|discriminate].
  pose proof (lookup_lt_Some _ _ _ Hn) as Hlt.
  destruct (match Children n with
            | Some children =>
                (children, default NilSlice (children !! objectName runtimeType))
            | None => (∅, NilSlice)
            end) as [children [|a]].
  - destruct (build fuel ctx node n runtimeType) as [[err|newNodes]| |];
      intros H; inversion H; subst; clear H; cbn [results queue errs arrays nodes withNodes].
    + split_and!; try done.
      * by rewrite length_insert.
      * intros i Hi _. by rewrite list_lookup_insert_ne.
      * unfold sameButChildren. cbn [nodes withNodes].
        exists n, (setChildren children n). split; [done|].
        split; [by rewrite list_lookup_insert_eq|done].
    + split_and!; try done.
      * by apply prefix_app_r.
      * rewrite length_alter, length_app, length_insert. lia.
      * intros i Hi Hil. rewrite list_lookup_alter_ne by done.
        rewrite lookup_app_l by (by rewrite length_insert).
        by rewrite list_lookup_insert_ne.
      * unfold sameButChildren. cbn [nodes withNodes].
        exists n, (setChildren (<[objectName runtimeType := SliceAt (length (arrays st))]>
                                 children) (setChildren children n)).
        split; [done|]. split; [|done].
        rewrite list_lookup_alter_eq.
        rewrite lookup_app_l by (by rewrite length_insert).
        by rewrite list_lookup_insert_eq.
  - intros H; inversion H; subst; clear H; cbn [results queue errs arrays nodes withNodes].
    split_and!; try done.
    + by rewrite length_alter, length_insert.
    + intros i Hi _. rewrite list_lookup_alter_ne by done.
      by rewrite list_lookup_insert_ne.
    + unfold sameButChildren. cbn [nodes withNodes].
      exists n, (setChildren (<[objectName runtimeType := SliceAt a]> children)
                   (setChildren children n)).
      split; [done|]. split; [|done].
      rewrite list_lookup_alter_eq. by rewrite list_lookup_insert_eq.
Qed.

(** X16. [collectFields] writes only the children of the node it is given: the
    result nodes, the queue and the errors are untouched, every other node
    is as it was, the node itself keeps its parent, definitions, field and
    argument values, and new nodes and arrays are only added at the end. *)
Theorem collectFields_writes_only_children (fuel : nat) (ctx : ExecutionContext)
    (node : nodeptr) (runtimeType : ObjectType) (st st' : State) (x : error + Slice) :
  collect fuel ctx node runtimeType st = Done (x, st') ->
  results st' = results st /\ queue st' = queue st /\ errs st' = errs st /\
  arrays st `prefix_of` arrays st' /\
  length (nodes st) <= length (nodes st') /\
  (forall i, i <> node -> i < length (nodes st) -> nodes st' !! i = nodes st !! i) /\
  sameButChildren st st' node.
Proof. apply collectFields_frame. Qed.

(** X17. A collection that fails is not memoized: it allocates no node and no
    array, it leaves the node with a children map that has no list for the
    runtime type, and a second call builds again (and fails with the same
    error, leaving the state as it is). *)
Theorem collectFields_error_is_not_cached (fuel : nat) (ctx : ExecutionContext)
    (node : nodeptr) (runtimeType : ObjectType) (st st' : State) (err : error) :
  collect fuel ctx node runtimeType st = Done (inl err, st') ->
  arrays st' = arrays st /\ length (nodes st') = length (nodes st) /\
  (exists n' children,
     nodes st' !! node = Some n' /\ Children n' = Some children /\
     default NilSlice (children !! objectName runtimeType) = NilSlice) /\
  collect fuel ctx node runtimeType st' = Done (inl err, st').
Proof.
  unfold collectFields.
  destruct (nodes st !! node) as [n|] eqn:Hn; [|discriminate].
  pose proof (lookup_lt_Some _ _ _ Hn) as Hlt.
  destruct (match Children n with
            | Some children =>
                (children, default NilSlice (children !! objectName runtimeType))
            | None => (∅, NilSlice)
            end) as [children childNodes] eqn:Hch.
  assert (Hnil : childNodes = NilSlice ->
                 default NilSlice (children !! objectName runtimeType) = NilSlice).
  { intros ->. destruct (Children n) as [c|].
    - injection Hch as Hc Hd. by rewrite <- Hc.
    - injection Hch as Hc. rewrite <- Hc. by rewrite lookup_empty. }
  destruct childNodes as [|a]; [|discriminate].
  destruct (build fuel ctx node n runtimeType) as [[err'|newNodes]| |] eqn:Hb;
    try discriminate.
  intros H; inversion H; subst; clear H. cbn [results queue errs arrays nodes withNodes].
  split; [done|]. split; [by rewrite length_insert|]. split.
  { exists (setChildren children n), children.
    split; [by rewrite list_lookup_insert_eq|]. split; [done|by apply Hnil]. }
  rewrite list_lookup_insert_eq by done. cbn [Children setChildren].
  rewrite (Hnil eq_refl).
  assert (Hb' : build fuel ctx node (setChildren children n) runtimeType
                = Done (inl err)) by exact Hb.
  rewrite Hb'. do 2 f_equal.
  unfold withNodes. cbn [nodes arrays results queue errs]. f_equal.
  by rewrite list_insert_insert_eq.
Qed.

End Frame.

Lemma collectFields_writes_only_children_witness :
  exists x st',
    collectFields samples.sampleDirectiveValues samples.sampleArgumentValues 10
      samples.sampleABA 0 samples.QueryAB samples.rootOnly = Done (x, st') /\
    results st' = results samples.rootOnly /\ queue st' = queue samples.rootOnly /\
    errs st' = errs samples.rootOnly /\
    arrays samples.rootOnly `prefix_of` arrays st' /\
    length (nodes samples.rootOnly) <= length (nodes st') /\
    (forall i, i <> 0 -> i < length (nodes samples.rootOnly) ->
               nodes st' !! i = nodes samples.rootOnly !! i) /\
    sameButChildren samples.rootOnly st' 0.
Proof.
  eexists _, _. split.
  - vm_compute. reflexivity.
  - eapply (collectFields_writes_only_children samples.sampleDirectiveValues
             samples.sampleArgumentValues 10 samples.sampleABA 0 samples.QueryAB
             samples.rootOnly).
    vm_compute. reflexivity.
Defined.

Lemma collectFields_error_is_not_cached_witness :
  let failing : DirectiveDef -> list ast.Directive -> list (string * Value)
                -> error + list (string * Value) :=
    fun _ _ _ => inl (samples.plainError "bad directive") in
  exists st',
    collectFields failing samples.sampleArgumentValues 10 samples.sampleABA 0
      samples.QueryAB samples.rootOnly = Done (inl (samples.plainError "bad directive"), st') /\
    arrays st' = arrays samples.rootOnly /\
    length (nodes st') = length (nodes samples.rootOnly) /\
    (exists n' children,
       nodes st' !! 0 = Some n' /\ Children n' = Some children /\
       default NilSlice (children !! objectName samples.QueryAB) = NilSlice) /\
    collectFields failing samples.sampleArgumentValues 10 samples.sampleABA 0
      samples.QueryAB st' = Done (inl (samples.plainError "bad directive"), st').
Proof.
  intros failing. eexists. split.
  - vm_compute. reflexivity.
  - apply (collectFields_error_is_not_cached failing samples.sampleArgumentValues 10
             samples.sampleABA 0 samples.QueryAB samples.rootOnly).
    vm_compute. reflexivity.
Defined.

End collected_facts.

(* ===================================================================== *)
(** ** Dispatch and completion *)
(* ===================================================================== *)

Module dispatch_facts.
Import graphql executor completion_spec dispatch_spec.

Lemma map_zip_tasks (value : Value) (pointers : list nat) : forall rs : list nat,
  map (fun item : nat * nat => mkExecuteNodeTask item.1 item.2 value) (zip pointers rs) =
  zip_with (fun c r => mkExecuteNodeTask c r value) pointers rs.
Proof.
  induction pointers as [|c pointers IH]; intros [|r rs]; simpl; try done.
  by rewrite IH.
Qed.

Lemma dispatchLoop_spec result value : forall items st,
  dispatchable st (map fst items) ->
  exists st',
    dispatchLoop result value items st = Done st' /\
    nodes st' = nodes st /\ arrays st' = arrays st /\ errs st' = errs st /\
    queue st' =
      queue st ++ map (fun item => mkExecuteNodeTask item.1 item.2 value) items /\
    length (results st') = length (results st) /\
    (forall a, a ∉ map snd items -> results st' !! a = results st !! a) /\
    (NoDup (map snd items) ->
     forall c r, (c, r) ∈ items ->
       results st' !! r =
       (fun n => (if fieldIsNonNull st c then SetIsNonNull else id)
                   (setResultParent result n)) <$> results st !! r).
Proof.
  induction items as [|[childNode nodeResult] rest IH]; intros st Hd.
  - exists st. simpl. rewrite app_nil_r. split_and!; try done.
    intros _ c r Hin. by apply elem_of_nil in Hin.
  - cbn [map fst] in Hd. apply Forall_cons in Hd as [(n & field & Hn & Hf) Hd].
    cbn [dispatchLoop]. cbn [nodes withResults]. rewrite Hn, Hf.
    set (st1 := Dispatch _ _).
    assert (Hnodes1 : nodes st1 = nodes st).
    { unfold st1. by destruct (types.IsNonNullType _). }
    assert (Harrays1 : arrays st1 = arrays st).
    { unfold st1. by destruct (types.IsNonNullType _). }
    assert (Herrs1 : errs st1 = errs st).
    { unfold st1. by destruct (types.IsNonNullType _). }
    assert (Hqueue1 : queue st1
                      = queue st ++ [mkExecuteNodeTask childNode nodeResult value]).
    { unfold st1. by destruct (types.IsNonNullType _). }
    assert (Hres1 : results st1 =
                    alter (fun m => (if fieldIsNonNull st childNode then SetIsNonNull
                                     else id) (setResultParent result m))
                          nodeResult (results st)).
    { unfold st1, fieldIsNonNull. rewrite Hn, Hf.
      destruct (types.IsNonNullType _); cbn [results withResults Dispatch]; [|done].
      by rewrite list_alter_alter_eq. }
    destruct (IH st1) as (st' & Hrun & Hnodes & Harrays & Herrs & Hqueue & Hlen & Hout & Hin).
    { unfold dispatchable. by rewrite Hnodes1. }
    exists st'. split; [exact Hrun|].
    split; [congruence|]. split; [congruence|]. split; [congruence|].
    split; [by rewrite Hqueue, Hqueue1, <- app_assoc|].
    split; [by rewrite Hlen, Hres1, length_alter|].
    split.
    + intros a Ha. cbn [map snd] in Ha. rewrite not_elem_of_cons in Ha.
      destruct Ha as [Hne Ha]. rewrite (Hout a Ha), Hres1.
      by rewrite list_lookup_alter_ne.
    + intros Hnd c r Hcr. cbn [map snd] in Hnd. apply NoDup_cons in Hnd as [Hfresh Hnd].
      apply elem_of_cons in Hcr as [Heq|Hcr].
      * inversion Heq; subst c r. rewrite (Hout _ Hfresh), Hres1.
        by rewrite list_lookup_alter_eq.
      * assert (r <> nodeResult).
        { intros ->. apply Hfresh. apply list_elem_of_In, in_map_iff.
          exists (c, nodeResult). split; [done|by apply list_elem_of_In]. }
        rewrite (Hin Hnd c r Hcr), Hres1.
        rewrite list_lookup_alter_ne by done.
        unfold fieldIsNonNull. by rewrite Hnodes1.
Qed.

Lemma dispatchTasksForObject_spec (ctx : ExecutionContext) (result : resultptr)
    (childNodes : Slice) (value : Value) (st : State) :
  result < length (results st) ->
  dispatchable st (sliceElements st childNodes) ->
  let pointers := sliceElements st childNodes in
  let base := length (results st) in
  exists st',
    dispatchTasksForObject ctx result childNodes value st = Done st' /\
    nodes st' = nodes st /\ arrays st' = arrays st /\ errs st' = errs st /\
    queue st' = queue st ++ tasksFor pointers base value /\
    length (results st') = base + length pointers /\
    results st' !! result =
      setResult ResultKindObject (ObjectValue childNodes (seq base (length pointers)))
        <$> results st !! result /\
    forall i c, pointers !! i = Some c ->
      results st' !! (base + i) =
      Some (mkResultNode (Some result) ResultKindUnresolved NoValue (fieldIsNonNull st c)).
Proof.
  intros Hr Hd pointers base. unfold dispatchTasksForObject, makeResultNodes.
  fold pointers. fold base. cbn [results withResults].
  destruct (lookup_lt_is_Some_2 (results st) result Hr) as [r Hres].
  rewrite lookup_app_l by done. rewrite Hres.
  set (st0 := withResults _ _).
  assert (Hlen : length (zip pointers (seq base (length pointers))) = length pointers).
  { rewrite length_zip, length_seq. lia. }
  destruct (dispatchLoop_spec result value (zip pointers (seq base (length pointers))) st0)
    as (st' & Hrun & Hnodes & Harrays & Herrs & Hqueue & Hl & Hout & Hin).
  { unfold dispatchable. rewrite fst_zip by (rewrite length_seq; lia). exact Hd. }
  exists st'. split; [exact Hrun|].
  assert (Hsnd : map snd (zip pointers (seq base (length pointers)))
                 = seq base (length pointers)).
  { apply snd_zip. rewrite length_seq. lia. }
  split_and!; try done.
  - by rewrite Hqueue, map_zip_tasks.
  - rewrite Hl. unfold st0. cbn [results withResults].
    by rewrite length_alter, length_app, length_replicate.
  - rewrite Hout.
    + unfold st0. cbn [results withResults]. rewrite list_lookup_alter_eq.
      rewrite lookup_app_l by done. by rewrite Hres.
    + rewrite Hsnd. rewrite elem_of_seq. unfold base. lia.
  - intros i c Hi. pose proof (lookup_lt_Some _ _ _ Hi) as Hilt.
    rewrite (Hin ltac:(rewrite Hsnd; apply NoDup_seq) c (base + i)).
    + unfold st0. cbn [results withResults].
      rewrite list_lookup_alter_ne by (unfold base; lia).
      rewrite lookup_app_r by (unfold base; lia).
      replace (base + i - length (results st)) with i by (unfold base; lia).
      rewrite lookup_replicate_2 by done. cbn [fmap option_fmap option_map].
      unfold fieldIsNonNull. cbn [nodes withResults].
      by destruct (match nodes st !! c with Some _ => _ | None => _ end).
    + apply list_elem_of_lookup. exists i.
      apply lookup_zip_Some. split; [done|]. by apply lookup_seq.
Qed.

(** X18. [dispatchTasksForObject] on child nodes that all have a field returns
    (it does not panic) and dispatches exactly one task per child node, in
    the order of the child nodes, each with the object's value as its
    source; the result node becomes an Object that lists the child nodes and
    their new result nodes; and the result node of each field has the
    object's node as parent, is unresolved, and is flagged non-null exactly
    when the type of its own field is non-null. *)
Theorem dispatchTasksForObject_dispatches (ctx : ExecutionContext) (result : resultptr)
    (childNodes : Slice) (value : Value) (st : State) :
  result < length (results st) ->
  dispatchable st (sliceElements st childNodes) ->
  let pointers := sliceElements st childNodes in
  let base := length (results st) in
  exists st',
    dispatchTasksForObject ctx result childNodes value st = Done st' /\
    nodes st' = nodes st /\ arrays st' = arrays st /\ errs st' = errs st /\
    queue st' = queue st ++ tasksFor pointers base value /\
    length (results st') = base + length pointers /\
    results st' !! result =
      setResult ResultKindObject (ObjectValue childNodes (seq base (length pointers)))
        <$> results st !! result /\
    forall i c, pointers !! i = Some c ->
      results st' !! (base + i) =
      Some (mkResultNode (Some result) ResultKindUnresolved NoValue (fieldIsNonNull st c)).
Proof. apply dispatchTasksForObject_spec. Qed.

Lemma length_bubble fuel : forall r rs, length (bubble fuel r rs) = length rs.
Proof.
  induction fuel as [|fuel IH]; intros r rs; simpl; [done|].
  destruct (rs !! r) as [n|]; [|done].
  destruct (resultIsNonNull n); [|done].
  destruct (resultParent n) as [p|]; [|done].
  by rewrite IH, length_alter.
Qed.

Lemma bubble_Nil fuel : forall r rs a n,
  rs !! a = Some n -> resultKind n = ResultKindNil ->
  exists n', bubble fuel r rs !! a = Some n' /\ resultKind n' = ResultKindNil.
Proof.
  induction fuel as [|fuel IH]; intros r rs a n Ha Hk; simpl; [by exists n|].
  destruct (rs !! r) as [m|]; [|by exists n].
  destruct (resultIsNonNull m); [|by exists n].
  destruct (resultParent m) as [p|]; [|by exists n].
  destruct (decide (p = a)) as [->|Hne].
  - apply (IH _ _ a (setNil n)); [|done].
    by rewrite list_lookup_alter_eq, Ha.
  - apply (IH _ _ a n); [|done]. by rewrite list_lookup_alter_ne.
Qed.

Section Completion.

Variable DirectiveValues :
  DirectiveDef -> list ast.Directive -> list (string * Value)
  -> error + list (string * Value).
Variable ArgumentValuesOf :
  types.Field -> ast.Field -> list (string * Value) -> error + list (string * Value).
Variable typeString : types.Type_ -> string.
Variable parentFieldTypeName : ExecutionContext -> ExecutionNode -> string.
Variable ResultPath : State -> resultptr -> ResponsePath.
Variable NewDefaultResultCoercionError : string -> Value -> error -> error.

Local Abbreviation handle := (handleNodeError ResultPath).
Local Abbreviation completeNonWrapping :=
  (completeNonWrappingValue DirectiveValues ArgumentValuesOf typeString ResultPath
     NewDefaultResultCoercionError).
Local Abbreviation complete :=
  (completeValue DirectiveValues ArgumentValuesOf typeString parentFieldTypeName
     ResultPath NewDefaultResultCoercionError).
Local Abbreviation run :=
  (Run DirectiveValues ArgumentValuesOf typeString parentFieldTypeName
     ResultPath NewDefaultResultCoercionError).

Lemma handleNodeError_spec (task : ExecuteNodeTask) (err : error) (result : resultptr)
    (st : State) (node : ExecutionNode) (r : ResultNode) :
  nodes st !! taskNode task = Some node ->
  results st !! result = Some r ->
  exists st',
    handle task err result st = Done st' /\
    errs st' = errs st ++ [completion_vocab.recorded err
                             (map ast.Location (Definitions node))
                             (ResultPath st result)] /\
    IsNil st' result = Some true /\
    nodes st' = nodes st /\ arrays st' = arrays st /\ queue st' = queue st /\
    length (results st') = length (results st).
Proof.
  intros Hn Hr. unfold handleNodeError. rewrite Hn, Hr. eexists. split; [done|].
  unfold AppendError. cbn [errs nodes arrays queue results withResults].
  split_and!; try done.
  - unfold IsNil. cbn [results].
    destruct (bubble_Nil (length (alter setNil result (results st))) result
                (alter setNil result (results st)) result (setNil r))
      as (n' & Hn' & Hk); [by rewrite list_lookup_alter_eq, Hr|done|].
    rewrite Hn'. simpl. by rewrite Hk.
  - by rewrite length_bubble, length_alter.
Qed.


(** X20. A null value for a field of non-null type is an error: completion
    records "Cannot return null for non-nullable field <parent type>.<field
    name>." with the locations of the field's definitions and the path of
    the result node, and nils the result node. *)
Theorem null_for_non_null_field_is_an_error (fuel : nat) (ctx : ExecutionContext)
    (task : ExecuteNodeTask) (innerType : types.Type_) (result parent : resultptr)
    (st : State) (node : ExecutionNode) (field : types.Field) (r : ResultNode) :
  0 < fuel ->
  nodes st !! taskNode task = Some node ->
  Field node = Some field ->
  results st !! result = Some r ->
  resultParent r = Some parent ->
  IsNil st parent = Some false ->
  exists st',
    complete fuel ctx task (types.NonNull innerType) result VNil st = Done st' /\
    errs st' = errs st ++
      [mkError ("Cannot return null for non-nullable field "
                +:+ (parentFieldTypeName ctx node +:+ "." +:+ types.fName field) +:+ ".")
               (map ast.Location (Definitions node)) (Some (ResultPath st result))
               None None "" ErrKindOther] /\
    IsNil st' result = Some true.
Proof.
  intros Hfuel Hn Hf Hr Hp Hnil.
  destruct fuel as [|steps]; [lia|].
  unfold completeValue, completeWrappingValue. cbn [types.isWrappingType].
  cbn [completeQueue vnResult vnValue vnReturnType].
  rewrite Hr. cbn [mbind option_bind]. rewrite Hp. cbn [mbind option_bind].
  rewrite Hnil. cbn [IsNullish]. unfold fieldLabel. rewrite Hn.
  cbn [mbind option_bind]. rewrite Hf. cbn [mbind option_bind].
  destruct (handleNodeError_spec task
              (NewError ("Cannot return null for non-nullable field "
                         +:+ (parentFieldTypeName ctx node +:+ "." +:+ types.fName field)
                         +:+ ".") [])
              result st node r Hn Hr)
    as (st' & Hrun & Herrs & Hres & _).
  rewrite Hrun. exists st'. split; [by destruct steps|]. by split.
Qed.

(** X21. A value of a leaf type (a scalar or an enum) that its result coercion
    accepts is completed in place: the result node becomes a Leaf that holds
    the coerced value, and nothing else in the state changes (no error, no
    task); the same holds under a non-null wrapper when the parent of the
    result node is not Nil. *)
Theorem leaf_value_is_completed (fuel : nat) (ctx : ExecutionContext)
    (task : ExecuteNodeTask) (t : types.Type_) (coerceResult : types.Coercer)
    (result : resultptr) (value coerced : Value) (st : State) (r : ResultNode) :
  completion_vocab.resultCoercer t = Some coerceResult ->
  coerceResult value = inr coerced ->
  IsNullish value = false ->
  (forall e, value <> VError e) ->
  results st !! result = Some r ->
  complete fuel ctx task t result value st =
    Done (withResults st (alter (setResult ResultKindLeaf (LeafValue coerced)) result
                                (results st))) /\
  (forall parent,
     0 < fuel -> resultParent r = Some parent -> IsNil st parent = Some false ->
     complete fuel ctx task (types.NonNull t) result value st =
       Done (withResults st (alter (setResult ResultKindLeaf (LeafValue coerced)) result
                                   (results st)))).
Proof.
  intros Ht Hc Hnull Herr Hr.
  assert (Hnw : completeNonWrapping fuel ctx task t result value st =
                Done (true, withResults st (alter (setResult ResultKindLeaf
                                                     (LeafValue coerced))
                                                  result (results st)))).
  { unfold completeNonWrappingValue. rewrite Hnull.
    destruct t; try discriminate; inversion Ht; subst;
      destruct value; try discriminate; try (by destruct (Herr e));
      unfold completeLeafValue; by rewrite Hc, Hr. }
  split.
  - unfold completeValue. destruct t; try discriminate; cbn [types.isWrappingType];
      by rewrite Hnw.
  - intros parent Hfuel Hp Hnil. destruct fuel as [|steps]; [lia|].
    unfold completeValue, completeWrappingValue. cbn [types.isWrappingType].
    assert (Hq : executor.completeQueue DirectiveValues ArgumentValuesOf typeString
                   parentFieldTypeName ResultPath NewDefaultResultCoercionError
                   (S steps) ctx task (S steps)
                   [mkValueNode (types.NonNull t) result value] st =
                 Done (withResults st (alter (setResult ResultKindLeaf (LeafValue coerced))
                                             result (results st)))).
    { cbn [completeQueue vnResult vnValue vnReturnType].
      rewrite Hr. cbn [mbind option_bind]. rewrite Hp. cbn [mbind option_bind].
      rewrite Hnil, Hnull.
      destruct t; try discriminate; rewrite Hnw; by destruct steps. }
    destruct value; try exact Hq. by destruct (Herr e).
Qed.


End Completion.

(** *** A run only adds *)

Lemma grows_refl st : grows st st.
Proof. by split_and!. Qed.

Lemma grows_trans st1 st2 st3 : grows st1 st2 -> grows st2 st3 -> grows st1 st3.
Proof.
  intros (He1 & Hq1 & Ha1 & Hn1 & Hr1) (He2 & Hq2 & Ha2 & Hn2 & Hr2).
  split_and!; try (by etrans); lia.
Qed.

Lemma grows_results st st2 :
  nodes st2 = nodes st -> arrays st2 = arrays st -> queue st2 = queue st ->
  errs st2 = errs st -> length (results st) <= length (results st2) -> grows st st2.
Proof. intros Hn Ha Hq He Hl. unfold grows. by rewrite Hn, Ha, Hq, He. Qed.

Lemma grows_withResults st rs :
  length (results st) <= length rs -> grows st (withResults st rs).
Proof. intros Hl. by apply grows_results. Qed.

Lemma grows_alter f a st : grows st (withResults st (alter f a (results st))).
Proof. apply grows_withResults. by rewrite length_alter. Qed.

Lemma length_foldr_alter (f : ResultNode -> ResultNode) (rs : list ResultNode) ptrs :
  length (foldr (alter f) rs ptrs) = length rs.
Proof. induction ptrs as [|a ptrs IH]; [done|]. simpl. by rewrite length_alter. Qed.

Lemma dispatchLoop_grows result value : forall items st st',
  dispatchLoop result value items st = Done st' -> grows st st'.
Proof.
  induction items as [|[childNode nodeResult] rest IH]; intros st st' H.
  - simpl in H. inversion H. apply grows_refl.
  - cbn [dispatchLoop] in H. cbn [nodes withResults] in H.
    destruct (nodes st !! childNode) as [child|]; [|discriminate].
    destruct (Field child) as [field|]; [|discriminate].
    apply IH in H. eapply grows_trans; [|exact H].
    destruct (types.IsNonNullType _); unfold Dispatch;
      cbn [nodes arrays results queue errs withResults];
      (split_and!; cbn [nodes arrays results queue errs]; try done;
       [by apply prefix_app_r|by rewrite ?length_alter]).
Qed.

Lemma dispatchTasksForObject_grows ctx result childNodes value st st' :
  dispatchTasksForObject ctx result childNodes value st = Done st' -> grows st st'.
Proof.
  unfold dispatchTasksForObject, makeResultNodes. cbn [results withResults].
  destruct (_ !! result); [|discriminate]. intros H.
  apply dispatchLoop_grows in H. eapply grows_trans; [|exact H].
  apply grows_results; try done. cbn [results withResults].
  rewrite length_alter, length_app. lia.
Qed.

Section Growth.

Variable DirectiveValues :
  DirectiveDef -> list ast.Directive -> list (string * Value)
  -> error + list (string * Value).
Variable ArgumentValuesOf :
  types.Field -> ast.Field -> list (string * Value) -> error + list (string * Value).
Variable typeString : types.Type_ -> string.
Variable parentFieldTypeName : ExecutionContext -> ExecutionNode -> string.
Variable ResultPath : State -> resultptr -> ResponsePath.
Variable NewDefaultResultCoercionError : string -> Value -> error -> error.

Local Abbreviation handle := (handleNodeError ResultPath).
Local Abbreviation completeNonWrapping :=
  (completeNonWrappingValue DirectiveValues ArgumentValuesOf typeString ResultPath
     NewDefaultResultCoercionError).
Local Abbreviation completeQueue :=
  (executor.completeQueue DirectiveValues ArgumentValuesOf typeString
     parentFieldTypeName ResultPath NewDefaultResultCoercionError).
Local Abbreviation complete :=
  (completeValue DirectiveValues ArgumentValuesOf typeString parentFieldTypeName
     ResultPath NewDefaultResultCoercionError).
Local Abbreviation run :=
  (Run DirectiveValues ArgumentValuesOf typeString parentFieldTypeName
     ResultPath NewDefaultResultCoercionError).

Lemma handleNodeError_grows task err r st st' :
  handle task err r st = Done st' -> grows st st'.
Proof.
  unfold handleNodeError.
  destruct (nodes st !! taskNode task); [|discriminate].
  destruct (results st !! r); [|discriminate].
  intros H; inversion H; subst; clear H. unfold AppendError.
  split_and!; cbn [nodes arrays results queue errs withResults]; try done.
  - by apply prefix_app_r.
  - by rewrite length_bubble, length_alter.
Qed.

Lemma handled_grows {A} task err r st (ok : A) x st' :
  match handle task err r st with
  | Done st => Done (ok, st)
  | Panic msg => Panic msg
  | OutOfFuel => OutOfFuel
  end = Done (x, st') ->
  grows st st'.
Proof.
  destruct (handle task err r st) as [st1| |] eqn:E; try discriminate.
  intros H; inversion H; subst. by eapply handleNodeError_grows.
Qed.

Lemma collectFields_grows fuel ctx node runtimeType st x st' :
  collectFields DirectiveValues ArgumentValuesOf fuel ctx node runtimeType st
    = Done (x, st') ->
  grows st st'.
Proof.
  intros H. apply collected_facts.collectFields_frame in H
    as (Hr & Hq & He & Ha & Hn & _).
  split_and!; try done; by rewrite ?Hr, ?Hq, ?He.
Qed.

Lemma completeNonWrappingValue_grows fuel ctx task returnType r value st ok st' :
  completeNonWrapping fuel ctx task returnType r value st = Done (ok, st') ->
  grows st st'.
Proof.
  unfold completeNonWrappingValue.
  destruct (IsNullish value).
  { destruct (results st !! r); [|discriminate].
    intros H; inversion H; subst. apply grows_alter. }
  assert (Hleaf : forall c,
             completeLeafValue ResultPath NewDefaultResultCoercionError task
               returnType c r value st = Done (ok, st') ->
             grows st st').
  { intros c. unfold completeLeafValue. destruct (c value) as [err|coerced].
    - apply handled_grows.
    - destruct (results st !! r); [|discriminate].
      intros H; inversion H; subst. apply grows_alter. }
  assert (Hobj : forall name fields,
             completeObjectValue DirectiveValues ArgumentValuesOf ResultPath fuel ctx
               task (mkObjectType name fields) r value st = Done (ok, st') ->
             grows st st').
  { intros name fields. unfold completeObjectValue.
    destruct (collectFields _ _ _ _ _ _ _) as [[[err|childNodes] st1]| |] eqn:E;
      try discriminate; apply collectFields_grows in E.
    - intros H. apply handled_grows in H. by eapply grows_trans.
    - destruct (dispatchTasksForObject _ _ _ _ _) as [st2| |] eqn:E2; try discriminate.
      intros H; inversion H; subst. apply dispatchTasksForObject_grows in E2.
      by eapply grows_trans. }
  destruct value; try (by apply handled_grows);
    destruct returnType; try (by apply handled_grows); try (by apply Hleaf);
    try (by apply Hobj); try done.
Qed.

Lemma completeElements_grows fuel ctx task elementType result : forall items st st',
  completeElements DirectiveValues ArgumentValuesOf typeString ResultPath
    NewDefaultResultCoercionError fuel ctx task elementType result items st = Done st' ->
  grows st st'.
Proof.
  induction items as [|[resultNode value] rest IH]; intros st st' H.
  - simpl in H. inversion H. apply grows_refl.
  - cbn [completeElements] in H.
    destruct (completeNonWrapping _ _ _ _ _ _ _) as [[ok st1]| |] eqn:E;
      try discriminate.
    apply completeNonWrappingValue_grows in E.
    assert (Hst1 : grows st st1).
    { eapply grows_trans; [|exact E]. apply grows_alter. }
    destruct ok; cbn [negb] in H.
    + apply IH in H. by eapply grows_trans.
    + destruct (IsNil st1 result) as [[|]|]; try discriminate.
      * by inversion H; subst.
      * apply IH in H. by eapply grows_trans.
Qed.

Lemma completeQueue_grows fuel ctx task : forall steps queue st st',
  completeQueue fuel ctx task steps queue st = Done st' -> grows st st'.
Proof.
  induction steps as [|steps IH]; intros [|valueNode queue] st st' H;
    try (simpl in H; inversion H; apply grows_refl); try discriminate.
  cbn [executor.completeQueue] in H.
  destruct (_ ≫= _) as [[|]|]; try discriminate; [by eapply IH|].
  assert (Hhandled : forall err,
             match handle task err (vnResult valueNode) st with
             | Done st0 => completeQueue fuel ctx task steps queue st0
             | Panic msg => Panic msg
             | OutOfFuel => OutOfFuel
             end = Done st' -> grows st st').
  { intros err H1.
    destruct (handle task err (vnResult valueNode) st) as [st1| |] eqn:E;
      try discriminate.
    apply handleNodeError_grows in E. apply IH in H1. by eapply grows_trans. }
  destruct (match vnReturnType valueNode with
            | types.NonNull innerType => (true, innerType)
            | t => (false, t)
            end) as [isNonNullType returnType].
  destruct (IsNullish (vnValue valueNode)).
  { destruct isNonNullType.
    - destruct (fieldLabel _ _ _ _); [|discriminate]. by eapply Hhandled.
    - apply IH in H. eapply grows_trans; [|exact H]. apply grows_alter. }
  assert (Hother : forall t,
             match completeNonWrapping fuel ctx task t (vnResult valueNode)
                     (vnValue valueNode) st with
             | Done (_, st0) => completeQueue fuel ctx task steps queue st0
             | Panic msg => Panic msg
             | OutOfFuel => OutOfFuel
             end = Done st' -> grows st st').
  { intros t.
    destruct (completeNonWrapping fuel ctx task t (vnResult valueNode)
                (vnValue valueNode) st) as [[ok st1]| |] eqn:E;
      try discriminate.
    intros H1.
    apply completeNonWrappingValue_grows in E. apply IH in H1. by eapply grows_trans. }
  destruct returnType as [| | |elementType| | | |]; try (by eapply Hother).
  destruct (vnValue valueNode) as [| | | |elems| | |];
    try (destruct (fieldLabel _ _ _ _); [|discriminate]; by eapply Hhandled).
  unfold makeResultNodes in H. cbn [results withResults] in H.
  set (rs1 := results st ++ replicate (length elems) zeroResultNode) in H.
  set (ptrs := seq (length (results st)) (length elems)) in H.
  set (rs2 := if isNonNullType then foldr (alter SetIsNonNull) rs1 ptrs else rs1).
  assert (Hrs2 : length (results st) <= length rs2).
  { unfold rs2, rs1. destruct isNonNullType;
      rewrite ?length_foldr_alter, length_app; lia. }
  destruct (types.isWrappingType elementType).
  - apply IH in H. eapply grows_trans; [|exact H].
    destruct isNonNullType; apply grows_results; try done;
      cbn [results withResults];
      rewrite length_foldr_alter, length_alter; cbn [results withResults];
      exact Hrs2.
  - destruct (completeElements _ _ _ _ _ _ _ _ _ _ _ _) as [st1| |] eqn:E;
      try discriminate.
    apply completeElements_grows in E. apply IH in H.
    eapply grows_trans; [|exact H]. eapply grows_trans; [|exact E].
    destruct isNonNullType; apply grows_results; try done;
      cbn [results withResults];
      rewrite length_alter; cbn [results withResults];
      exact Hrs2.
Qed.

Lemma completeValue_grows fuel ctx task returnType r value st st' :
  complete fuel ctx task returnType r value st = Done st' -> grows st st'.
Proof.
  unfold completeValue, completeWrappingValue.
  destruct (types.isWrappingType returnType).
  - destruct value; try apply completeQueue_grows. apply handleNodeError_grows.
  - destruct (completeNonWrapping _ _ _ _ _ _ _) as [[ok st1]| |] eqn:E;
      try discriminate.
    intros H; inversion H; subst. by eapply completeNonWrappingValue_grows.
Qed.


End Growth.

Section Root.

Variable DirectiveValues :
  DirectiveDef -> list ast.Directive -> list (string * Value)
  -> error + list (string * Value).
Variable ArgumentValuesOf :
  types.Field -> ast.Field -> list (string * Value) -> error + list (string * Value).

Local Abbreviation build :=
  (buildChildExecutionNodesForSelectionSet DirectiveValues ArgumentValuesOf).
Local Abbreviation rootTasks :=
  (collectAndDispatchRootTasks DirectiveValues ArgumentValuesOf).

(** X24. When the collection of the top-level selection set returns a list of
    nodes, [collectAndDispatchRootTasks] returns the root result node (it
    does not panic): the collected nodes are stored after the new root
    node, the root result node is an Object without parent that lists them,
    and exactly one task per collected node is dispatched, in order, with
    the root value as its source; no error is recorded.  When the collection
    fails, the error is returned, nothing is dispatched and no result node
    is allocated. *)
Theorem root_fields_are_dispatched (fuel : nat) (ctx : ExecutionContext) (st : State) :
  (forall out,
     build fuel ctx (length (nodes st)) (mkExecutionNode None [] None [] None)
       (RootType ctx) = Done (inr out) ->
     exists st',
       rootTasks fuel ctx st = Done (inr (length (results st)), st') /\
       queue st' =
         queue st ++ tasksFor (seq (S (length (nodes st))) (length out))
                       (S (length (results st))) (RootValue ctx) /\
       errs st' = errs st /\
       (forall i n, out !! i = Some n ->
          nodes st' !! (S (length (nodes st)) + i) = Some n) /\
       results st' !! length (results st) =
         Some (mkResultNode None ResultKindObject
                 (ObjectValue (SliceAt (length (arrays st)))
                    (seq (S (length (results st))) (length out)))
                 false)) /\
  (forall err,
     build fuel ctx (length (nodes st)) (mkExecutionNode None [] None [] None)
       (RootType ctx) = Done (inl err) ->
     exists st',
       rootTasks fuel ctx st = Done (inl err, st') /\
       queue st' = queue st /\ results st' = results st /\ errs st' = errs st).
Proof.
  set (root := mkExecutionNode None [] None [] None).
  assert (Hroot : (nodes st ++ [root]) !! length (nodes st) = Some root)
    by apply list_lookup_middle, eq_refl.
  split.
  - intros out Hbuild.
    unfold collectAndDispatchRootTasks, collectFields. fold root.
    cbn [nodes withNodes]. rewrite Hroot. cbn [Children root].
    rewrite Hbuild. cbn [nodes arrays results queue errs withNodes withResults].
    set (pointers := seq (length (<[length (nodes st) := setChildren ∅ root]>
                                    (nodes st ++ [root]))) (length out)).
    assert (Hptrs : pointers = seq (S (length (nodes st))) (length out)).
    { unfold pointers. rewrite length_insert, length_app. simpl.
      by replace (length (nodes st) + 1) with (S (length (nodes st))) by lia. }
    set (st2 := withResults _ _).
    assert (Hnodes2 : forall i n, out !! i = Some n ->
                        nodes st2 !! (S (length (nodes st)) + i) = Some n).
    { intros i n Hi. unfold st2. cbn [nodes withResults withNodes].
      rewrite list_lookup_alter_ne by lia.
      rewrite lookup_app_r by (rewrite length_insert, length_app; simpl; lia).
      rewrite length_insert, length_app. simpl.
      by replace (S (length (nodes st) + i) - (length (nodes st) + 1)) with i by lia. }
    assert (Hslice : sliceElements st2 (SliceAt (length (arrays st))) = pointers).
    { unfold st2, sliceElements. cbn [arrays withResults withNodes].
      by rewrite list_lookup_middle. }
    pose proof (collected_facts.build_collected DirectiveValues ArgumentValuesOf ctx
                  (length (nodes st)) (RootType ctx) fuel root out Hbuild) as Hcollected.
    destruct (dispatchTasksForObject_spec ctx (length (results st))
                (SliceAt (length (arrays st))) (RootValue ctx) st2)
      as (st' & Hrun & Hnodes & Harrays & Herrs & Hqueue & Hlen & Hres & Hnew).
    { unfold st2. cbn [results withResults withNodes]. rewrite length_app. simpl. lia. }
    { rewrite Hslice, Hptrs. apply Forall_forall. intros c Hc.
      apply elem_of_seq in Hc.
      destruct (lookup_lt_is_Some_2 out (c - S (length (nodes st))) ltac:(lia))
        as [n Hn].
      pose proof (Forall_lookup_1 _ _ _ _ Hcollected Hn)
        as (_ & _ & first & fieldDef & _ & Hf & _).
      exists n, fieldDef. split; [|done].
      rewrite <- (Hnodes2 _ _ Hn). f_equal. lia. }
    cbn zeta in Hqueue, Hlen, Hres. rewrite Hslice in Hqueue, Hlen, Hres.
    rewrite Hrun. exists st'. split; [done|].
    assert (Hl2 : length (results st2) = S (length (results st))).
    { unfold st2. cbn [results withResults withNodes]. rewrite length_app. simpl. lia. }
    split_and!.
    + rewrite Hqueue, Hl2, Hptrs. done.
    + by rewrite Herrs.
    + intros i n Hi. rewrite Hnodes. by apply Hnodes2.
    + rewrite Hres, Hl2, Hptrs, length_seq.
      unfold st2. cbn [results withResults withNodes].
      by rewrite list_lookup_middle.
  - intros err Hbuild.
    unfold collectAndDispatchRootTasks, collectFields. fold root.
    cbn [nodes withNodes]. rewrite Hroot. cbn [Children root].
    rewrite Hbuild. by eexists.
Qed.

End Root.


Lemma null_for_non_null_field_is_an_error_witness :
  let st := samples_dispatch.dispatchedAB in
  let task := mkExecuteNodeTask 1 1 VNil in
  let ctx := samples.sampleContext [] samples.QueryAB in
  exists st',
    samples.sampleComplete 1 ctx task (types.NonNull samples.Int) 1 VNil st = Done st' /\
    errs st' = errs st ++
      [mkError ("Cannot return null for non-nullable field " +:+ ("Query" +:+ "." +:+ "a")
                +:+ ".")
               (map ast.Location [samples.leaf None "a" [] 1])
               (Some (samples.samplePath st 1)) None None "" ErrKindOther] /\
    IsNil st' 1 = Some true.
Proof.
  intros st task ctx.
  apply (null_for_non_null_field_is_an_error samples.sampleDirectiveValues
           samples.sampleArgumentValues samples.typeNotation (fun _ _ => "Query")
           samples.samplePath samples.sampleResultCoercionError 1 ctx task samples.Int
           1 0 st
           (mkExecutionNode (Some 0) [samples.leaf None "a" [] 1]
              (Some (types.mkField "a" (types.NonNull samples.Int) [] None)) [] None)
           (types.mkField "a" (types.NonNull samples.Int) [] None)
           (mkResultNode (Some 0) ResultKindUnresolved NoValue true));
    try reflexivity. lia.
Defined.

Lemma leaf_value_is_completed_witness :
  let st := samples_dispatch.dispatchedAB in
  let task := mkExecuteNodeTask 2 2 VNil in
  let ctx := samples.sampleContext [] samples.QueryAB in
  let done :=
    Done (withResults st (alter (setResult ResultKindLeaf (LeafValue (VString "x"))) 2
                                (results st))) in
  samples.sampleComplete 1 ctx task samples.String_ 2 (VString "x") st = done /\
  (forall parent,
     0 < 1 ->
     resultParent (mkResultNode (Some 0) ResultKindUnresolved NoValue false) = Some parent ->
     IsNil st parent = Some false ->
     samples.sampleComplete 1 ctx task (types.NonNull samples.String_) 2 (VString "x") st
     = done).
Proof.
  intros st task ctx done.
  apply (leaf_value_is_completed samples.sampleDirectiveValues
           samples.sampleArgumentValues samples.typeNotation (fun _ _ => "Query")
           samples.samplePath samples.sampleResultCoercionError 1 ctx task
           samples.String_ samples.StringCoercer 2 (VString "x") (VString "x") st
           (mkResultNode (Some 0) ResultKindUnresolved NoValue false));
    try reflexivity. discriminate.
Defined.



Lemma root_fields_are_dispatched_witness :
  exists out,
    samples.sampleBuild 10 samples.sampleABA 0 samples.rootNode samples.QueryAB
      = Done (inr out) /\
    exists st',
      samples.sampleRoot 10 samples.sampleABA samples.emptyState = Done (inr 0, st') /\
      queue st' =
        queue samples.emptyState ++ tasksFor (seq 1 (length out)) 1
                                      (RootValue samples.sampleABA) /\
      errs st' = errs samples.emptyState /\
      (forall i n, out !! i = Some n -> nodes st' !! (1 + i) = Some n) /\
      results st' !! 0 =
        Some (mkResultNode None ResultKindObject
                (ObjectValue (SliceAt 0) (seq 1 (length out))) false).
Proof.
  eexists. split.
  - vm_compute. reflexivity.
  - apply (proj1 (root_fields_are_dispatched samples.sampleDirectiveValues
                    samples.sampleArgumentValues 10 samples.sampleABA
                    samples.emptyState)).
    vm_compute. reflexivity.
Defined.

Lemma dispatchTasksForObject_dispatches_witness :
  let st := samples_dispatch.collectedAB in
  let pointers := sliceElements st (SliceAt 0) in
  let base := length (results st) in
  exists st',
    dispatchTasksForObject (samples.sampleContext [] samples.QueryAB) 0 (SliceAt 0)
      (VString "root") st = Done st' /\
    nodes st' = nodes st /\ arrays st' = arrays st /\ errs st' = errs st /\
    queue st' = queue st ++ tasksFor pointers base (VString "root") /\
    length (results st') = base + length pointers /\
    results st' !! 0 =
      setResult ResultKindObject (ObjectValue (SliceAt 0) (seq base (length pointers)))
        <$> results st !! 0 /\
    forall i c, pointers !! i = Some c ->
      results st' !! (base + i) =
      Some (mkResultNode (Some 0) ResultKindUnresolved NoValue (fieldIsNonNull st c)).
Proof.
  apply (dispatchTasksForObject_dispatches (samples.sampleContext [] samples.QueryAB) 0
           (SliceAt 0) (VString "root") samples_dispatch.collectedAB).
  - simpl. lia.
  - repeat constructor; eexists _, _; split; reflexivity.
Defined.

End dispatch_facts.
